(** * Face encoding index: a shallow embedding of
      [face_recognition/faiss_manager.py] and [face_recognition/face_processor.py]

    The file has two parts.  The first is the embedding: the flat index,
    the manager with its two files on disk, the encoder and the recognition
    loop, followed by the vocabulary of the statements.  The second part
    holds the lemmas and, one per claim, the theorems.

    Numbers.  The Python code computes with IEEE floats (numpy float64 in
    the encoder, float32 inside the index).  The embedding idealises a
    finite float as a real number and keeps the one special value the code
    really produces on well-formed input, [nan] (from the division
    [0.0 / 0.0] when a vector of zero norm is normalised).  Rounding, the
    cast to float32, overflow and the signed infinities are not modelled.

    State.  The manager is passed explicitly together with the disk; the
    outcome of each write is an input, and the warnings of the recognition
    loop are an output. *)

From Stdlib Require Import Reals Lra Lia ZArith List.
From stdpp Require Import base option list sorting strings pretty gmap.

Local Open Scope Z_scope.
Set Warnings "-register-all".

(* ===================================================================== *)
(** ** Floats *)

Inductive float : Type :=
  | NaN : float
  | Fin (r : R) : float.

Definition f0 : float := Fin 0%R.

Definition lift2 (op : R → R → R) (a b : float) : float :=
  match a, b with
  | Fin x, Fin y => Fin (op x y)
  | _, _ => NaN
  end.

Definition fadd : float → float → float := lift2 Rplus.
Definition fsub : float → float → float := lift2 Rminus.
Definition fmul : float → float → float := lift2 Rmult.

Definition fsqrt (a : float) : float :=
  match a with
  | Fin x => Fin (sqrt x)
  | NaN => NaN
  end.

(** numpy's true division.  [0.0 / 0.0] is [nan] (a RuntimeWarning, not an
    exception).  A non-zero numerator over a zero denominator would be a
    signed infinity; the embedding has none and gives [nan] there too: the
    only divisions of the program are by a Euclidean norm, and a zero norm
    forces every numerator to be zero (lemma [norm_zero_all_zero]). *)
Definition fdiv (a b : float) : float :=
  match a, b with
  | Fin x, Fin y => if Req_dec_T y 0%R then NaN else Fin (x / y)%R
  | _, _ => NaN
  end.

(** Comparisons of finite floats are decided as comparisons of reals. *)
#[global] Instance Rle_decision (x y : R) : Decision (x <= y)%R := Rle_dec x y.
#[global] Instance Rlt_decision (x y : R) : Decision (x < y)%R := Rlt_dec x y.
#[global] Instance Rge_decision (x y : R) : Decision (x >= y)%R := Rge_dec x y.
#[global] Instance Req_decision : EqDecision R := Req_dec_T.

(* ===================================================================== *)
(** ** Vectors: one-dimensional numpy arrays *)

Abbreviation vec := (list float).

Definition sum_squares (v : vec) : float :=
  foldr (λ x acc, fadd (fmul x x) acc) f0 v.

(** [np.linalg.norm(v)] of a one-dimensional array. *)
Definition linalg_norm (v : vec) : float := fsqrt (sum_squares v).

(** [v / np.linalg.norm(v)]: the normalisation written three times in the
    source (encoder output, [add_face_encoding], [search_similar_faces]). *)
Definition normalize (v : vec) : vec :=
  let n := linalg_norm v in map (λ x, fdiv x n) v.

(** The vector of the finite floats [rs]. *)
Definition reals (rs : list R) : vec := map Fin rs.

(* ===================================================================== *)
(** ** [faiss.IndexFlatL2]: the exact (brute force) L2 index

    The index keeps the vectors in insertion order and compares a query
    with every one of them.  A candidate whose distance is [nan] never
    enters the result heap (every comparison with [nan] is false), so it
    only ever shows up as an unfilled slot. *)

Record IndexFlatL2 : Type := mkIndex {
  d : nat;              (* vector dimension fixed at construction *)
  xb : list vec         (* stored vectors, in insertion order *)
}.

Definition new_IndexFlatL2 (dim : nat) : IndexFlatL2 := mkIndex dim [].

Definition ntotal (idx : IndexFlatL2) : Z := Z.of_nat (length (xb idx)).

(** [index.add(x)] for a [(1, n)] array: the Python wrapper asserts
    [n == self.d]; [None] stands for the AssertionError. *)
Definition IndexFlatL2_add (idx : IndexFlatL2) (x : vec) : option IndexFlatL2 :=
  if decide (length x = d idx) then Some (mkIndex (d idx) (xb idx ++ [x])) else None.

Fixpoint fvec_L2sqr (x y : vec) : float :=
  match x, y with
  | a :: x', b :: y' => fadd (fmul (fsub a b) (fsub a b)) (fvec_L2sqr x' y')
  | _, _ => f0
  end.

(** A hit is a pair (distance, label), as [zip(distances[0], indices[0])]. *)
Abbreviation hit := (R * Z)%type.

(** Distances of the query to the stored vectors from position [i] on,
    keeping the comparable (non-nan) ones. *)
Fixpoint scan (q : vec) (i : Z) (xs : list vec) : list hit :=
  match xs with
  | [] => []
  | x :: xs' =>
      match fvec_L2sqr q x with
      | Fin dis => (dis, i) :: scan q (i + 1) xs'
      | NaN => scan q (i + 1) xs'
      end
  end.

(** Stable insertion: [c] precedes every element of [l] in scan order, so it
    is placed before the first element that is not strictly closer. *)
Fixpoint insert_hit (c : hit) (l : list hit) : list hit :=
  match l with
  | [] => [c]
  | c' :: l' => if decide (c.1 <= c'.1)%R then c :: l else c' :: insert_hit c l'
  end.

Definition sort_hits (l : list hit) : list hit := foldr insert_hit [] l.

(** Largest finite float32, the distance FAISS leaves in an unfilled slot. *)
Definition FLT_MAX : R := ((2 - / 2 ^ 23) * 2 ^ 127)%R.

Definition unfilled : hit := (FLT_MAX, -1).

(** Modelled from the spec: [faiss.IndexFlatL2.search] is a routine of the
    FAISS library, whose code is not among the sources of the repository.
    The spec (4.2) gives its contract: the squared Euclidean distance to
    every stored vector is computed, the [k] smallest are returned in
    ascending distance, ties broken by lowest position.  The model is for
    one query row; [None] stands for the AssertionError of the Python
    wrapper ([q.shape[1] == self.d], [k > 0]); a slot that could not be
    filled carries the label [-1], which the loop of
    [search_similar_faces] tests for. *)
Definition IndexFlatL2_search (idx : IndexFlatL2) (q : vec) (k : nat)
    : option (list hit) :=
  if decide (length q = d idx ∧ (0 < k)%nat) then
    let best := take k (sort_hits (scan q 0 (xb idx))) in
    Some (best ++ replicate (k - length best) unfilled)
  else None.

(* ===================================================================== *)
(** ** Metadata records and the manager *)

(** The values the service stores in a face record: all of them JSON
    values ([str], [int], [float], nested string-keyed [dict]). *)
Inductive pyval : Type :=
  | VStr (s : string)
  | VInt (z : Z)
  | VFloat (f : float)
  | VDict (fields : list (string * pyval)).

(** One face record: a Python [dict] with string keys. *)
Abbreviation record := (gmap string pyval).

(** [str(n)] of a Python [int]. *)
Definition str (n : Z) : string := pretty n.

Definition dimension : nat := 128.

Record FAISSManager : Type := mkManager {
  index : IndexFlatL2;
  metadata : gmap string record;   (* "Maps index position to face metadata" *)
  threshold : R
}.

(** *** The two files of the snapshot *)

Inductive file (A : Type) : Type :=
  | Missing : file A
  | Unreadable : file A          (* present, but reading it raises *)
  | Stored (content : A) : file A.
Arguments Missing {A}.
Arguments Unreadable {A}.
Arguments Stored {A} content.

Definition path_exists {A} (f : file A) : bool :=
  match f with Missing => false | _ => true end.

Record disk : Type := mkDisk {
  index_file : file IndexFlatL2;              (* face_encodings.index *)
  metadata_file : file (gmap string record)   (* face_metadata.json *)
}.

Definition empty_disk : disk := mkDisk Missing Missing.

(** Outcome of one write, decided by the environment.  [IoErr] is a write
    that raises before the file is touched (no permission, no space). *)
Inductive io_result : Type := IoOk | IoErr.

Record io_env : Type := mkIo { write_index : io_result; write_metadata : io_result }.

Definition io_ok : io_env := mkIo IoOk IoOk.

(** [_initialize_index]: returns the pair ([self.index], [self.metadata]). *)
Definition _initialize_index (dk : disk) : IndexFlatL2 * gmap string record :=
  if path_exists (index_file dk) && path_exists (metadata_file dk) then
    match index_file dk with
    | Stored idx =>
        match metadata_file dk with
        | Stored m => (idx, m)
        | _ => (new_IndexFlatL2 dimension, ∅)      (* except: fallback *)
        end
    | _ => (new_IndexFlatL2 dimension, ∅)          (* except: fallback *)
    end
  else (new_IndexFlatL2 dimension, ∅).

(** [FAISSManager.__init__]. *)
Definition FAISSManager_init (dk : disk) : FAISSManager :=
  let '(idx, m) := _initialize_index dk in mkManager idx m (6 / 10)%R.

(** [_save_index]: two writes in sequence inside one [try]; an exception of
    the first skips the second, every exception is logged and swallowed. *)
Definition _save_index (st : FAISSManager) (dk : disk) (io : io_env) : disk :=
  match write_index io with
  | IoErr => dk
  | IoOk =>
      let dk1 := mkDisk (Stored (index st)) (metadata_file dk) in
      match write_metadata io with
      | IoErr => dk1
      | IoOk => mkDisk (index_file dk1) (Stored (metadata st))
      end
  end.

(** [encoding.reshape(self.dimension)] of a one-dimensional array: the
    identity when the size agrees, a ValueError ([None]) otherwise. *)
Definition reshape (encoding : vec) (n : nat) : option vec :=
  if decide (length encoding = n) then Some encoding else None.

(** The record built by [add_face_encoding] before it is stored. *)
Definition build_metadata (face_id person_name : string) (index_position : Z)
    (additional_metadata : option record) : record :=
  let md : record :=
    {[ "face_id" := VStr face_id; "person_name" := VStr person_name;
       "index_position" := VInt index_position ]} in
  match additional_metadata with
  | Some extra => if decide (extra = ∅) then md else extra ∪ md
  | None => md
  end.

(** [add_face_encoding]: the returned [bool] with the manager and the disk
    after the call. *)
Definition add_face_encoding (st : FAISSManager) (dk : disk) (io : io_env)
    (encoding : vec) (face_id person_name : string)
    (additional_metadata : option record) : bool * FAISSManager * disk :=
  match reshape encoding dimension with
  | None => (false, st, dk)
  | Some encoding =>
      let encoding := normalize encoding in
      match IndexFlatL2_add (index st) encoding with
      | None => (false, st, dk)
      | Some index' =>
          let index_position := ntotal index' - 1 in
          let md :=
            build_metadata face_id person_name index_position additional_metadata in
          let st' := mkManager index'
                       (<[ str index_position := md ]> (metadata st))
                       (threshold st) in
          (true, st', _save_index st' dk io)
      end
  end.

(** [clear_index]. *)
Definition clear_index (st : FAISSManager) (dk : disk) (io : io_env)
    : FAISSManager * disk :=
  let st' := mkManager (new_IndexFlatL2 dimension) ∅ (threshold st) in
  (st', _save_index st' dk io).

(** *** Search *)

Record match_result : Type := mkResult {
  r_face_id : pyval;
  r_person_name : pyval;
  r_similarity : R;
  r_distance : R;
  r_index_position : Z;
  r_rank : Z
}.

(** [d.get(key, default)]. *)
Definition dict_get {V} (m : gmap string V) (key : string) (dflt : V) : V :=
  default dflt (m !! key).

(** The acceptance test of the loop body: [similarity >= (1 - self.threshold)]
    with [similarity = max(0, 1 - distance)]. *)
Definition similarity_of (distance : R) : R := Rmax 0 (1 - distance).

Definition accepted (thr : R) (distance : R) : bool :=
  bool_decide (similarity_of distance >= 1 - thr)%R.

(** The loop [for i, (distance, index) in enumerate(zip(distances[0], indices[0]))]
    started at enumeration index [i]. *)
Fixpoint collect_results (st : FAISSManager) (i : Z) (hits : list hit)
    : list match_result :=
  match hits with
  | [] => []
  | (distance, idx) :: rest =>
      if decide (idx = -1) then collect_results st (i + 1) rest
      else
        let similarity := similarity_of distance in
        if accepted (threshold st) distance then
          let md := dict_get (metadata st) (str idx) ∅ in
          mkResult (dict_get md "face_id" (VStr "unknown"))
                   (dict_get md "person_name" (VStr "unknown"))
                   similarity distance idx (i + 1)
          :: collect_results st (i + 1) rest
        else collect_results st (i + 1) rest
  end.

(** [search_similar_faces].  [k] is the number of neighbours asked for, a
    count (the callers pass 1 and 3, the default is 5).  Every exception
    inside is caught and turned into [[]]. *)
Definition search_similar_faces (st : FAISSManager) (query_encoding : vec)
    (k : nat) : list match_result :=
  if decide (ntotal (index st) = 0) then []
  else
    match reshape query_encoding dimension with
    | None => []
    | Some query_encoding =>
        let query_encoding := normalize query_encoding in
        match IndexFlatL2_search (index st) query_encoding
                (Nat.min k (Z.to_nat (ntotal (index st)))) with
        | None => []
        | Some hits => collect_results st 0 hits
        end
    end.

(** [get_best_match]. *)
Definition get_best_match (st : FAISSManager) (query_encoding : vec)
    : option match_result :=
  head (search_similar_faces st query_encoding 1).

(* ===================================================================== *)
(** ** [face_processor.py]: the encoder *)

(** Python's [l[start:stop]] (step 1): a negative bound counts from the
    end, both bounds are clipped to the length. *)
Definition py_slice {A} (start stop : Z) (l : list A) : list A :=
  let n := Z.of_nat (length l) in
  let clip i := if i <? 0 then Z.max 0 (i + n) else Z.min i n in
  take (Z.to_nat (clip stop - clip start)) (drop (Z.to_nat (clip start)) l).

(** [a[r0:r1, c0:c1]] of an array given by its rows. *)
Definition slice2 {A} (r0 r1 c0 c1 : Z) (a : list (list A)) : list (list A) :=
  map (py_slice c0 c1) (py_slice r0 r1 a).

(** [a.size] of an array of rows of [channels]-component pixels. *)
Definition array_size {A} (channels : nat) (a : list (list A)) : nat :=
  (length (concat a) * channels)%nat.

(** [a.shape[0]] and [a.shape[1]]. *)
Definition shape0 {A} (a : list (list A)) : nat := length a.
Definition shape1 {A} (a : list (list A)) : nat := length (hd [] a).

(** An RGB pixel, and an image as [preprocess_image] returns it: rows of
    RGB pixels (a three-dimensional uint8 array). *)
Abbreviation rgb := (Z * Z * Z)%type.
Abbreviation image := (list (list rgb)).
Abbreviation gray_image := (list (list Z)).

Record bounding_box : Type := mkBox {
  box_x : Z;        (* 'x' *)
  box_y : Z;        (* 'y' *)
  box_width : Z;    (* 'width' *)
  box_height : Z    (* 'height' *)
}.

(** *** [cv2.Sobel(img, cv2.CV_64F, dx, dy, ksize=3)]

    The 3x3 Sobel operator with the default border, BORDER_REFLECT_101. *)

Definition reflect101 (n : nat) (i : Z) : nat :=
  if (n <=? 1)%nat then 0%nat
  else if i <? 0 then Z.to_nat (- i)
  else if Z.of_nat n <=? i then Z.to_nat (2 * Z.of_nat n - 2 - i)
  else Z.to_nat i.

Definition pixel_at (g : gray_image) (i j : Z) : R :=
  IZR (nth (reflect101 (shape1 g) j) (nth (reflect101 (shape0 g) i) g []) 0).

Definition Sobel_dx (g : gray_image) (i j : Z) : R :=
  ((pixel_at g (i - 1) (j + 1) - pixel_at g (i - 1) (j - 1))
   + 2 * (pixel_at g i (j + 1) - pixel_at g i (j - 1))
   + (pixel_at g (i + 1) (j + 1) - pixel_at g (i + 1) (j - 1)))%R.

Definition Sobel_dy (g : gray_image) (i j : Z) : R :=
  ((pixel_at g (i + 1) (j - 1) - pixel_at g (i - 1) (j - 1))
   + 2 * (pixel_at g (i + 1) j - pixel_at g (i - 1) j)
   + (pixel_at g (i + 1) (j + 1) - pixel_at g (i - 1) (j + 1)))%R.

(** The array with the shape of [g] whose entry at (i, j) is [f i j]. *)
Definition tabulate_like {A B} (g : list (list A)) (f : Z → Z → B)
    : list (list B) :=
  imap (λ i row, imap (λ j _, f (Z.of_nat i) (Z.of_nat j)) row) g.

Definition cv2_Sobel (g : gray_image) (dx dy : nat) : list (list R) :=
  match dx, dy with
  | 1%nat, 0%nat => tabulate_like g (Sobel_dx g)
  | _, _ => tabulate_like g (Sobel_dy g)
  end.

(** *** numpy *)

(** [np.arctan2(y, x)], with [arctan2(0, 0) = 0]. *)
Definition np_arctan2 (y x : R) : R :=
  if decide (0 < x)%R then atan (y / x)
  else if decide (x < 0)%R then
    (if decide (0 <= y)%R then atan (y / x) + PI else atan (y / x) - PI)%R
  else if decide (0 < y)%R then (PI / 2)%R
  else if decide (y < 0)%R then (- PI / 2)%R
  else 0%R.

(** Elementwise binary operation on two arrays of one shape. *)
Definition map2_2d {A B C} (f : A → B → C) (a : list (list A)) (b : list (list B))
    : list (list C) :=
  zip_with (zip_with f) a b.

(** [np.histogram(a, bins=9, weights=w, range=(-np.pi, np.pi))[0]]: nine
    bins of equal width, each closed on the left and open on the right
    except the last, which is closed; values outside the range are dropped. *)
Definition bin_edge (b : nat) : R := (- PI + INR b * (2 * PI / 9))%R.

Definition in_bin (b : nat) (a : R) : bool :=
  bool_decide (bin_edge b <= a)%R
  && (bool_decide (a < bin_edge (S b))%R
      || (Nat.eqb b 8 && bool_decide (a = bin_edge 9))).

Definition weighted_count (b : nat) (aw : list (R * R)) : R :=
  foldr (λ p acc, ((if in_bin b p.1 then p.2 else 0) + acc)%R) 0%R aw.

Definition np_histogram (a weights : list R) : list R :=
  map (λ b, weighted_count b (zip a weights)) (seq 0 9).

(** *** [_compute_hog_features]

    No statement of its [try] block raises on a two-dimensional array, so
    the [except] branch (random features) is not taken on this path. *)
Definition cell_size : nat := 16.

Definition cell_histogram (magnitude angle : list (list R)) (h w i j : nat)
    : list R :=
  let y_start := (i * cell_size)%nat in
  let y_end := Nat.min ((i + 1) * cell_size) h in
  let x_start := (j * cell_size)%nat in
  let x_end := Nat.min ((j + 1) * cell_size) w in
  let cell_magnitude :=
    slice2 (Z.of_nat y_start) (Z.of_nat y_end) (Z.of_nat x_start) (Z.of_nat x_end)
      magnitude in
  let cell_angle :=
    slice2 (Z.of_nat y_start) (Z.of_nat y_end) (Z.of_nat x_start) (Z.of_nat x_end)
      angle in
  np_histogram (concat cell_angle) (concat cell_magnitude).

(** The list [features] when the two loops are done. *)
Definition cell_features (face_gray : gray_image) : list R :=
  let grad_x := cv2_Sobel face_gray 1 0 in
  let grad_y := cv2_Sobel face_gray 0 1 in
  let magnitude := map2_2d (λ gx gy, sqrt (gx * gx + gy * gy)) grad_x grad_y in
  let angle := map2_2d (λ gx gy, np_arctan2 gy gx) grad_x grad_y in
  let h := shape0 face_gray in
  let w := shape1 face_gray in
  let cells_x := (w / cell_size)%nat in
  let cells_y := (h / cell_size)%nat in
  concat (map (λ i, concat (map (λ j, cell_histogram magnitude angle h w i j)
                                (seq 0 cells_x)))
              (seq 0 cells_y)).

(** "Ensure we have exactly 128 features". *)
Definition fit_128 (features : list R) : list R :=
  if decide (128 < length features)%nat then take 128 features
  else if decide (length features < 128)%nat
       then features ++ replicate (128 - length features) 0%R
       else features.

Definition _compute_hog_features (face_gray : gray_image) : vec :=
  reals (fit_128 (cell_features face_gray)).

(** *** [generate_face_encoding]

    The image is the three-dimensional RGB array of [preprocess_image], so
    the conversion to grey is always taken.
    [cv2.resize] and [cv2.cvtColor] are library routines.  What the
    encoder relies on is their shape: [resize] returns a 128 x 128 array and
    the colour conversion works pixel by pixel.  The pixel values are left
    to two parameters: [interp region i j] is the resampled pixel at row
    [i], column [j], and [luma] the intensity of a pixel. *)
Section Encoder.

Variable interp : image → nat → nat → rgb.
Variable luma : rgb → Z.

Definition cv2_resize (region : image) : image :=
  map (λ i, map (λ j, interp region i j) (seq 0 128)) (seq 0 128).

Definition cv2_cvtColor_RGB2GRAY (img : image) : gray_image :=
  map (map luma) img.

Definition padding : Z := 20.

(** The slice [image[y_start:y_end, x_start:x_end]]. *)
Definition face_region_of (img : image) (face_bbox : bounding_box) : image :=
  let x := box_x face_bbox in
  let y := box_y face_bbox in
  let w := box_width face_bbox in
  let h := box_height face_bbox in
  let x_start := Z.max 0 (x - padding) in
  let y_start := Z.max 0 (y - padding) in
  let x_end := Z.min (Z.of_nat (shape1 img)) (x + w + padding) in
  let y_end := Z.min (Z.of_nat (shape0 img)) (y + h + padding) in
  slice2 y_start y_end x_start x_end img.

(** [None] stands for the RuntimeError that the function raises. *)
Definition generate_face_encoding (img : image) (face_bbox : bounding_box)
    : option vec :=
  let face_region := face_region_of img face_bbox in
  if decide (array_size 3 face_region = 0%nat) then None
  else
    let face_resized := cv2_resize face_region in
    let face_gray := cv2_cvtColor_RGB2GRAY face_resized in
    let encoding := _compute_hog_features face_gray in
    Some (normalize encoding).

(** The 128 numbers that [generate_face_encoding] divides by their norm. *)
Definition features_of (img : image) (face_bbox : bounding_box) : list R :=
  fit_128 (cell_features
             (cv2_cvtColor_RGB2GRAY
                (cv2_resize (face_region_of img face_bbox)))).

End Encoder.


(* ===================================================================== *)
(** ** [face_processor.py]: recognition *)

(** One entry of the list returned by [detect_faces]. *)
Record detection : Type := mkDetection {
  det_bounding_box : bounding_box;
  det_confidence : R;
  det_detection_id : Z
}.

(** One entry of the ['faces'] list of the response. *)
Record processed_face : Type := mkFace {
  pf_encoding : vec;
  pf_confidence : R;
  pf_bounding_box : bounding_box;
  pf_detection_id : Z;
  pf_name : pyval;
  pf_similarity : R;
  pf_is_recognized : bool;
  pf_matches : list match_result
}.

(** One detection as MediaPipe reports it: the relative bounding box
    ([xmin], [ymin], [width], [height] as fractions of the image size) and
    the score. *)
Record mp_detection : Type := mkRaw {
  rel_xmin : R;
  rel_ymin : R;
  rel_width : R;
  rel_height : R;
  score : R
}.

(** [int(x)] of a float: truncation towards zero. *)
Definition py_int (x : R) : Z :=
  if decide (0 <= x)%R then Int_part x else - Int_part (- x).

(** What the function writes to the log. *)
Inductive log_record : Type :=
  | Warning_failed_face (detection_id : Z)   (* "Failed to process face {id}" *)
  | Error_processing_image.                  (* "Error processing image ..." *)

(** The three shapes of the returned dictionary. *)
Inductive recognition_response : Type :=
  | No_faces                    (* success, faces [], 'No faces detected' *)
  | Processed (faces : list processed_face) (total_detected total_processed : nat)
  | Failed.                     (* success False *)

Section Recognition.

Variable interp : image → nat → nat → rgb.
Variable luma : rgb → Z.
(** [preprocess_image] (PIL) and [self.face_detection.process] (MediaPipe);
    [None] stands for the exception either may raise. *)
Variable preprocess_image : list Byte.byte → option image.
Variable face_detection_process : image → option (list mp_detection).

(** One iteration of [for detection in results.detections]. *)
Definition detect_step (img : image) (detected_faces : list detection)
    (det : mp_detection) : list detection :=
  let h := Z.of_nat (shape0 img) in
  let w := Z.of_nat (shape1 img) in
  let x := py_int (rel_xmin det * IZR w) in
  let y := py_int (rel_ymin det * IZR h) in
  let width := py_int (rel_width det * IZR w) in
  let height := py_int (rel_height det * IZR h) in
  let x := Z.max 0 x in
  let y := Z.max 0 y in
  let width := Z.min width (w - x) in
  let height := Z.min height (h - y) in
  detected_faces
    ++ [ mkDetection (mkBox x y width height) (score det)
           (Z.of_nat (length detected_faces)) ].

(** [detect_faces]; [None] stands for the RuntimeError it raises. *)
Definition detect_faces (img : image) : option (list detection) :=
  match face_detection_process img with
  | None => None
  | Some detections => Some (foldl (detect_step img) [] detections)
  end.

(** The body of the inner [try], given the encoding. *)
Definition recognized_face (st : FAISSManager) (face : detection)
    (encoding : vec) : processed_face :=
  let matches := search_similar_faces st encoding 3 in
  let best_match := get_best_match st encoding in
  let '(recognized_name, similarity, is_recognized) :=
    match best_match with
    | Some b => (r_person_name b, r_similarity b, true)
    | None => (VStr "Unknown", 0%R, false)
    end in
  mkFace encoding (det_confidence face) (det_bounding_box face)
         (det_detection_id face) recognized_name similarity is_recognized
         (take 3 matches).

(** One iteration of [for face in detected_faces], on the pair
    ([processed_faces], log). *)
Definition recognize_step (st : FAISSManager) (img : image)
    (acc : list processed_face * list log_record) (face : detection)
    : list processed_face * list log_record :=
  let '(processed_faces, log) := acc in
  match generate_face_encoding interp luma img (det_bounding_box face) with
  | Some encoding =>
      (processed_faces ++ [recognized_face st face encoding], log)
  | None =>
      (processed_faces, log ++ [Warning_failed_face (det_detection_id face)])
  end.

Definition recognize_loop (st : FAISSManager) (img : image)
    (detected_faces : list detection)
    : list processed_face * list log_record :=
  foldl (recognize_step st img) ([], []) detected_faces.

(** [process_image_for_recognition]: the response and the log. *)
Definition process_image_for_recognition (st : FAISSManager)
    (image_data : list Byte.byte) : recognition_response * list log_record :=
  match preprocess_image image_data with
  | None => (Failed, [Error_processing_image])
  | Some img =>
      match detect_faces img with
      | None => (Failed, [Error_processing_image])
      | Some [] => (No_faces, [])
      | Some detected_faces =>
          let '(processed_faces, log) := recognize_loop st img detected_faces in
          (Processed processed_faces (length detected_faces)
                     (length processed_faces), log)
      end
  end.

(** The outcome of one detection taken alone, and the warning it causes. *)
Definition face_outcome (st : FAISSManager) (img : image) (face : detection)
    : option processed_face :=
  recognized_face st face
    <$> generate_face_encoding interp luma img (det_bounding_box face).

Definition face_warning (img : image) (face : detection) : option log_record :=
  match generate_face_encoding interp luma img (det_bounding_box face) with
  | Some _ => None
  | None => Some (Warning_failed_face (det_detection_id face))
  end.

End Recognition.

(* ===================================================================== *)
(** ** Vocabulary of the statements *)

Fixpoint Rsum_squares (rs : list R) : R :=
  match rs with
  | [] => 0
  | r :: rs' => r * r + Rsum_squares rs'
  end%R.

(** Order of an answer: closer first, the earlier position first among
    equal distances. *)
Definition hit_lt (a b : hit) : Prop :=
  (a.1 < b.1)%R ∨ (a.1 = b.1 ∧ a.2 < b.2).

Definition label_lt (a b : hit) : Prop := a.2 < b.2.

(** The filled part of an answer of the index. *)
Definition best_hits (idx : IndexFlatL2) (q : vec) (k : nat) : list hit :=
  take k (sort_hits (scan q 0 (xb idx))).

(** The answer of the index as the loop of [search_similar_faces] receives
    it; [[]] when the search raises and the [except] clause returns. *)
Definition faiss_answer (st : FAISSManager) (query_encoding : vec) (k : nat)
    : list hit :=
  match reshape query_encoding dimension with
  | None => []
  | Some q =>
      default [] (IndexFlatL2_search (index st) (normalize q)
                    (Nat.min k (Z.to_nat (ntotal (index st)))))
  end.

(** The candidates of an answer: its filled slots. *)
Definition candidates (st : FAISSManager) (query_encoding : vec) (k : nat)
    : list hit :=
  filter (λ h, h.2 ≠ -1) (faiss_answer st query_encoding k).

(** The dictionary appended for the hit at enumeration index [i]. *)
Definition result_of (st : FAISSManager) (i : Z) (h : hit) : match_result :=
  let md := dict_get (metadata st) (str h.2) ∅ in
  mkResult (dict_get md "face_id" (VStr "unknown"))
           (dict_get md "person_name" (VStr "unknown"))
           (similarity_of h.1) h.1 h.2 (i + 1).

Definition result_hit (r : match_result) : hit := (r_distance r, r_index_position r).

Definition result_lt (r1 r2 : match_result) : Prop :=
  hit_lt (result_hit r1) (result_hit r2).

Definition with_threshold (st : FAISSManager) (thr : R) : FAISSManager :=
  mkManager (index st) (metadata st) thr.

(** *** Runs of the mutating operations, with the history of what was added *)

Inductive op : Type :=
  | OpAdd (io : io_env) (encoding : vec) (face_id person_name : string)
          (additional_metadata : option record)
  | OpClear (io : io_env).

Definition op_io (o : op) : io_env :=
  match o with OpAdd io _ _ _ _ => io | OpClear io => io end.

(** The pairs (stored vector, record) of the successful adds since the
    index was last empty, oldest first. *)
Abbreviation history := (list (vec * record)).

Definition step (w : FAISSManager * disk * history) (o : op)
    : FAISSManager * disk * history :=
  let '(st, dk, hist) := w in
  match o with
  | OpAdd io encoding face_id person_name extra =>
      let '(ok, st', dk') :=
        add_face_encoding st dk io encoding face_id person_name extra in
      let added :=
        (normalize encoding,
         build_metadata face_id person_name (ntotal (index st)) extra) in
      (st', dk', if ok then hist ++ [added] else hist)
  | OpClear io =>
      let '(st', dk') := clear_index st dk io in (st', dk', [])
  end.

Definition run (w : FAISSManager * disk * history) (ops : list op)
    : FAISSManager * disk * history :=
  foldl step w ops.

(** The record store that holds the records [rs] under the keys
    [str i], [str (i+1)], ... *)
Fixpoint metadata_from (i : Z) (rs : list record) : gmap string record :=
  match rs with
  | [] => ∅
  | r :: rs' => <[ str i := r ]> (metadata_from (i + 1) rs')
  end.

Definition paired (st : FAISSManager) (hist : history) : Prop :=
  xb (index st) = hist.*1 ∧ metadata st = metadata_from 0 (hist.*2).

(** The snapshot on disk, when both files can be read, was written from a
    paired state with history [hist]; otherwise there is nothing to load. *)
Definition disk_holds (dk : disk) (hist : history) : Prop :=
  match index_file dk, metadata_file dk with
  | Stored idx, Stored m => xb idx = hist.*1 ∧ m = metadata_from 0 (hist.*2)
  | _, _ => hist = []
  end.

(** The unit vector along the first axis, and the zero vector. *)
Definition e1 : vec := reals (1%R :: replicate 127 0%R).
Definition zero_vec : vec := reals (replicate 128 0%R).

(** The dictionaries for a list of hits that are all appended, numbered from
    enumeration index [i]. *)
Fixpoint ranked (st : FAISSManager) (i : Z) (l : list hit) : list match_result :=
  match l with
  | [] => []
  | h :: t => result_of st i h :: ranked st (i + 1) t
  end.


(** A manager created on an empty disk, and the same after one face was
    added to it. *)
Definition fresh : FAISSManager := FAISSManager_init empty_disk.

Definition one_face : FAISSManager :=
  (add_face_encoding fresh empty_disk io_ok e1 "alice_0" "alice" None).1.2.


(** Python's [bool] is a subclass of [int]: [True == 1], [False == 0]. *)
Definition as_int (b : bool) : Z := Z.b2z b.

(** Two registrations on an empty disk; the second save writes the index
    file and fails on the metadata file.  [torn_disk] is what is left. *)
Definition torn_ops : list op :=
  [ OpAdd io_ok e1 "alice_0" "alice" None;
    OpAdd (mkIo IoOk IoErr) e1 "alice_1" "alice" None ].

Definition torn_disk : disk := (run (fresh, empty_disk, []) torn_ops).1.2.

(** *** Sample inputs *)

(** Resampling by nearest neighbour and the fixed-point luma of 8-bit
    images: one possible pair of pixel functions, used in the examples. *)
Definition interp_nearest (region : image) (i j : nat) : rgb :=
  nth (j * shape1 region / 128) (nth (i * shape0 region / 128) region []) (0, 0, 0).

Definition luma_fixed (p : rgb) : Z :=
  let '(r, g, b) := p in (r * 4899 + g * 9617 + b * 1868 + 8192) / 16384.

(** An image of one black pixel, a box on it, and a box far off it. *)
Definition black_image : image := [[(0, 0, 0)]].
Definition box_inside : bounding_box := mkBox 0 0 1 1.
Definition box_outside : bounding_box := mkBox 100 0 (-99) 1.

Definition sample_faces : list detection :=
  [ mkDetection box_outside (9 / 10)%R 0; mkDetection box_inside (8 / 10)%R 1 ].

(** A report of MediaPipe on [black_image] from which [detect_faces] makes
    [sample_faces]: one box that starts 100 image widths to the right, and
    one box that covers the image. *)
Definition sample_detections : list mp_detection :=
  [ mkRaw 100 0 1 1 (9 / 10)%R; mkRaw 0 0 1 1 (8 / 10)%R ].

(* ===================================================================== *)
(** ** The rest of [faiss_manager.py] and [face_processor.py] *)

(** [get_stats]. *)
Record index_stats : Type := mkStats {
  total_faces : Z;
  stats_dimension : nat;
  stats_threshold : R;
  index_type : string
}.

Definition get_stats (st : FAISSManager) : index_stats :=
  mkStats (ntotal (index st)) dimension (threshold st) "IndexFlatL2".

(** *** [_assess_image_quality] *)

(** [cv2.Laplacian(img, cv2.CV_64F)]: aperture 1, the kernel
    [[0 1 0] [1 -4 1] [0 1 0]], with the default border. *)
Definition Laplacian_at (g : gray_image) (i j : Z) : R :=
  (pixel_at g (i - 1) j + pixel_at g (i + 1) j
   + pixel_at g i (j - 1) + pixel_at g i (j + 1) - 4 * pixel_at g i j)%R.

Definition cv2_Laplacian (g : gray_image) : list (list R) :=
  tabulate_like g (Laplacian_at g).

Definition Rsum (l : list R) : R := foldr Rplus 0%R l.

(** [a.mean()] and [a.var()] over all entries of an array. *)
Definition np_mean (l : list R) : R := (Rsum l / INR (length l))%R.

Definition np_var (l : list R) : R :=
  np_mean (map (λ x, ((x - np_mean l) * (x - np_mean l))%R) l).

Section Quality.

Variable luma : rgb → Z.

(** [cv2.cvtColor] refuses an empty array; the [except] clause then
    answers ['medium']. *)
Definition _assess_image_quality (img : image) (face_bbox : bounding_box)
    : string :=
  let x := box_x face_bbox in
  let y := box_y face_bbox in
  let w := box_width face_bbox in
  let h := box_height face_bbox in
  let face_region := slice2 y (y + h) x (x + w) img in
  if decide (array_size 3 face_region = 0%nat) then "medium"
  else
    let face_gray := cv2_cvtColor_RGB2GRAY luma face_region in
    let laplacian_var := np_var (concat (cv2_Laplacian face_gray)) in
    let brightness := np_mean (IZR <$> concat face_gray) in
    if bool_decide (laplacian_var > 500)%R
       && bool_decide (50 < brightness)%R && bool_decide (brightness < 200)%R
       && bool_decide (100 < w) && bool_decide (100 < h)
    then "high"
    else if bool_decide (laplacian_var > 200)%R
            && bool_decide (30 < brightness)%R && bool_decide (brightness < 220)%R
            && bool_decide (50 < w) && bool_decide (50 < h)
    then "medium"
    else "low".

End Quality.

(** *** [process_image_for_registration] *)

(** The dictionary returned on success; [L] is the type of one entry of
    the list returned by [extract_face_landmarks]. *)
Record registration_success (L : Type) : Type := mkRegistered {
  reg_encoding : vec;
  reg_confidence : R;
  reg_landmarks : option L;           (* [landmarks[0] if landmarks else {}] *)
  reg_image_quality : string;
  reg_bounding_box : bounding_box;
  reg_face_id : string;
  reg_faiss_indexed : bool
}.
Arguments mkRegistered {L}.
Arguments reg_encoding {L}.
Arguments reg_confidence {L}.
Arguments reg_landmarks {L}.
Arguments reg_image_quality {L}.
Arguments reg_bounding_box {L}.
Arguments reg_face_id {L}.
Arguments reg_faiss_indexed {L}.

(** The two shapes of the returned dictionary. *)
Inductive registration_result (L : Type) : Type :=
  | Registered (r : registration_success L)     (* 'success': True *)
  | Registration_failed (error : string).        (* 'success': False *)
Arguments Registered {L}.
Arguments Registration_failed {L}.

(** The [additional_metadata] of a registration. *)
Definition registration_metadata (confidence : R) (quality : string)
    (face_bbox : bounding_box) : record :=
  {[ "confidence" := VFloat (Fin confidence);
     "image_quality" := VStr quality;
     "bounding_box" :=
       VDict [ ("x", VInt (box_x face_bbox)); ("y", VInt (box_y face_bbox));
               ("width", VInt (box_width face_bbox));
               ("height", VInt (box_height face_bbox)) ] ]}.

Section Registration.

Variable interp : image → nat → nat → rgb.
Variable luma : rgb → Z.
Variable preprocess_image : list Byte.byte → option image.
Variable face_detection_process : image → option (list mp_detection).
(** [extract_face_landmarks] (MediaPipe face mesh) returns a list and never
    raises; its entries are only passed on. *)
Variable L : Type.
Variable extract_face_landmarks : image → list L.
(** The text [str(e)] of the exception raised by [preprocess_image], and by
    [detect_faces], when they fail. *)
Variable preprocess_error : list Byte.byte → string.
Variable detection_error : image → string.

Definition process_image_for_registration (st : FAISSManager) (dk : disk)
    (io : io_env) (image_data : list Byte.byte) (name : string)
    : registration_result L * FAISSManager * disk :=
  match preprocess_image image_data with
  | None => (Registration_failed (preprocess_error image_data), st, dk)
  | Some img =>
      match detect_faces face_detection_process img with
      | None => (Registration_failed (detection_error img), st, dk)
      | Some [] =>
          (Registration_failed "No face detected in the image", st, dk)
      | Some (_ :: _ :: _) =>
          (Registration_failed
             "Multiple faces detected. Please use an image with only one face.",
           st, dk)
      | Some [face] =>
          let landmarks := extract_face_landmarks img in
          match generate_face_encoding interp luma img (det_bounding_box face) with
          | None =>
              (Registration_failed
                 "Face encoding generation failed: Invalid face region", st, dk)
          | Some encoding =>
              let quality := _assess_image_quality luma img (det_bounding_box face) in
              let face_id :=
                name +:+ "_" +:+ str (Z.of_nat (size (metadata st))) in
              let '(faiss_success, st', dk') :=
                add_face_encoding st dk io encoding face_id name
                  (Some (registration_metadata (det_confidence face) quality
                           (det_bounding_box face))) in
              (Registered
                 (mkRegistered encoding (det_confidence face) (head landmarks)
                    quality (det_bounding_box face) face_id faiss_success),
               st', dk')
          end
      end
  end.

(** [clear_faiss_index]: [clear_index] swallows its own exceptions, so the
    [except] clause of the wrapper is never entered. *)
Definition clear_faiss_index (st : FAISSManager) (dk : disk) (io : io_env)
    : bool * FAISSManager * disk :=
  let '(st', dk') := clear_index st dk io in (true, st', dk').

Definition get_faiss_stats (st : FAISSManager) : index_stats := get_stats st.

End Registration.


(** *** Vocabulary of the further properties *)

(** The entry that [detect_faces] makes of the MediaPipe detection [det]
    when it is the [id]-th of the list. *)
Definition detection_of (img : image) (id : Z) (det : mp_detection) : detection :=
  let h := Z.of_nat (shape0 img) in
  let w := Z.of_nat (shape1 img) in
  let x := Z.max 0 (py_int (rel_xmin det * IZR w)) in
  let y := Z.max 0 (py_int (rel_ymin det * IZR h)) in
  mkDetection
    (mkBox x y (Z.min (py_int (rel_width det * IZR w)) (w - x))
               (Z.min (py_int (rel_height det * IZR h)) (h - y)))
    (score det) id.

(** An array all of whose rows are as long as the first. *)
Definition rectangular {A} (a : list (list A)) : Prop :=
  Forall (λ row, length row = shape1 a) a.

(** The rows and columns of the padded crop of [generate_face_encoding]. *)
Definition crop_rows (img : image) (face_bbox : bounding_box) : Z :=
  Z.min (Z.of_nat (shape0 img)) (box_y face_bbox + box_height face_bbox + padding)
  - Z.max 0 (box_y face_bbox - padding).

Definition crop_cols (img : image) (face_bbox : bounding_box) : Z :=
  Z.min (Z.of_nat (shape1 img)) (box_x face_bbox + box_width face_bbox + padding)
  - Z.max 0 (box_x face_bbox - padding).


(** A MediaPipe report with one detection that covers [black_image], and
    the entry [detect_faces] makes of it. *)
Definition one_detection : list mp_detection := [ mkRaw 0 0 1 1 (8 / 10)%R ].

Definition one_detected_face : detection := mkDetection box_inside (8 / 10)%R 0.


(** A snapshot written by an installation whose vectors have 64 numbers:
    an empty index of dimension 64 with its empty metadata. *)
Definition foreign_disk : disk := mkDisk (Stored (new_IndexFlatL2 64)) (Stored ∅).


(** The registration of "alice" from [black_image] with the detection of
    [one_detection]: the result, and the manager afterwards, on a new
    installation; the result on an installation that loaded
    [foreign_disk]. *)
Definition alice_quality : string :=
  _assess_image_quality luma_fixed black_image box_inside.

Definition alice_result (indexed : bool) : registration_success unit :=
  mkRegistered (replicate 128 NaN) (8 / 10)%R None alice_quality box_inside
    "alice_0" indexed.

Definition alice_state : FAISSManager :=
  mkManager (mkIndex dimension [replicate 128 NaN])
    {[ "0" := build_metadata "alice_0" "alice" 0
                (Some (registration_metadata (8 / 10)%R alice_quality box_inside)) ]}
    (6 / 10)%R.


(* ===================================================================== *)
(** ** [app.py]: the endpoints *)

(** A FastAPI [UploadFile]: its [content_type], which the client may leave
    out, and the bytes that [await image.read()] returns. *)
Record UploadFile : Type := mkUpload {
  content_type : option string;
  file_content : list Byte.byte
}.

(** What the client gets: the returned dictionary (status 200) or the
    [HTTPException] that leaves the handler. *)
Inductive http_response (A : Type) : Type :=
  | Http_ok (body : A)
  | Http_error (status_code : Z) (detail : string).
Arguments Http_ok {A}.
Arguments Http_error {A}.

(** [10 * 1024 * 1024]. *)
Definition max_upload : Z := 10 * 1024 * 1024.

(** The dictionary of [/register]; it has no ['face_id'] and no
    ['faiss_indexed']. *)
Record register_body (L : Type) : Type := mkRegisterBody {
  rb_message : string;
  rb_encoding : vec;
  rb_confidence : R;
  rb_landmarks : option L;
  rb_image_quality : string;
  rb_bounding_box : bounding_box
}.
Arguments mkRegisterBody {L}.
Arguments rb_message {L}.
Arguments rb_encoding {L}.
Arguments rb_confidence {L}.
Arguments rb_landmarks {L}.
Arguments rb_image_quality {L}.
Arguments rb_bounding_box {L}.

(** The dictionary of [/recognize]. *)
Record recognize_body : Type := mkRecognizeBody {
  rc_faces : list processed_face;
  rc_total_detected : nat;
  rc_total_processed : nat;
  rc_message : string
}.

(** The dictionary of [/detect]. *)
Record detect_body : Type := mkDetectBody {
  dt_faces : list detection;
  dt_total_detected : nat
}.

Module app.

Section Endpoints.

Variable interp : image → nat → nat → rgb.
Variable luma : rgb → Z.
Variable preprocess_image : list Byte.byte → option image.
Variable face_detection_process : image → option (list mp_detection).
Variable L : Type.
Variable extract_face_landmarks : image → list L.
Variable preprocess_error : list Byte.byte → string.
Variable detection_error : image → string.
(** [str.strip]. *)
Variable py_strip : string → string.
(** The ['error'] of a recognition that failed: the text of the exception
    of [preprocess_image] or [detect_faces]. *)
Variable recognition_error : list Byte.byte → string.
(** [str(e)] of the [HTTPException] that [clear_faiss_index] raises inside
    its own [try]. *)
Variable clear_error : string.

(** [POST /register].  A missing content type makes [startswith] raise an
    AttributeError, which the last [except] clause turns into a 500. *)
Definition register_face (st : FAISSManager) (dk : disk) (io : io_env)
    (image : UploadFile) (name : string)
    : http_response (register_body L) * FAISSManager * disk :=
  if decide (name = "" ∨ py_strip name = "") then
    (Http_error 400 "Name is required", st, dk)
  else
    match content_type image with
    | None =>
        (Http_error 500 "Internal server error during face registration",
         st, dk)
    | Some ct =>
        if negb (String.prefix "image/" ct) then
          (Http_error 400 "File must be an image", st, dk)
        else
          let image_data := file_content image in
          if decide (length image_data = 0%nat) then
            (Http_error 400 "Empty image file", st, dk)
          else if decide (max_upload < Z.of_nat (length image_data)) then
            (Http_error 400 "Image file too large (max 10MB)", st, dk)
          else
            match process_image_for_registration interp luma preprocess_image
                    face_detection_process L extract_face_landmarks
                    preprocess_error detection_error
                    st dk io image_data (py_strip name) with
            | (Registration_failed error, st', dk') =>
                (Http_error 400 error, st', dk')
            | (Registered r, st', dk') =>
                (Http_ok
                   (mkRegisterBody
                      ("Face registered successfully for " +:+ name)
                      (reg_encoding r) (reg_confidence r) (reg_landmarks r)
                      (reg_image_quality r) (reg_bounding_box r)),
                 st', dk')
            end
    end.

(** [POST /recognize]: the response and the log of the processor. *)
Definition recognize_faces (st : FAISSManager) (image : UploadFile)
    : http_response recognize_body * list log_record :=
  match content_type image with
  | None =>
      (Http_error 500 "Internal server error during face recognition", [])
  | Some ct =>
      if negb (String.prefix "image/" ct) then
        (Http_error 400 "File must be an image", [])
      else
        let image_data := file_content image in
        if decide (length image_data = 0%nat) then
          (Http_error 400 "Empty image file", [])
        else if decide (max_upload < Z.of_nat (length image_data)) then
          (Http_error 400 "Image file too large (max 10MB)", [])
        else
          match process_image_for_recognition interp luma preprocess_image
                  face_detection_process st image_data with
          | (Failed, log) =>
              (Http_error 400 (recognition_error image_data), log)
          | (No_faces, log) =>
              (Http_ok (mkRecognizeBody [] 0 0 "No faces detected in the image"),
               log)
          | (Processed faces total_detected total_processed, log) =>
              (Http_ok (mkRecognizeBody faces total_detected total_processed
                          "Face recognition completed"),
               log)
          end
  end.

(** [POST /detect].  The handler has no [except HTTPException: raise]: the
    exceptions of its own validation are caught by [except Exception] like
    every other. *)
Definition detect_faces (image : UploadFile) : http_response detect_body :=
  let internal_error :=
    Http_error 500 "Internal server error during face detection" in
  match content_type image with
  | None => internal_error
  | Some ct =>
      if negb (String.prefix "image/" ct) then internal_error
      else
        let image_data := file_content image in
        if decide (length image_data = 0%nat) then internal_error
        else
          match preprocess_image image_data with
          | None => internal_error
          | Some image_np =>
              match detect_faces face_detection_process image_np with
              | None => internal_error
              | Some detected_faces =>
                  Http_ok (mkDetectBody detected_faces (length detected_faces))
              end
          end
  end.

(** [POST /faiss/clear]. *)
Definition clear_faiss_index (st : FAISSManager) (dk : disk) (io : io_env)
    : http_response string * FAISSManager * disk :=
  let '(success, st', dk') := clear_faiss_index st dk io in
  if success : bool then (Http_ok "FAISS index cleared successfully", st', dk')
  else (Http_error 500 clear_error, st', dk').

End Endpoints.

End app.

(** An upload that is not an image, and one that is: the one byte of a
    file that [preprocess_image] is taken to decode into [black_image]. *)
Definition text_upload : UploadFile :=
  mkUpload (Some "text/plain") [Byte.x00].

Definition image_upload : UploadFile :=
  mkUpload (Some "image/png") [Byte.x00].


(** An image of one row, a black pixel followed by fifteen white ones; the
    report of MediaPipe with one detection that covers it, and the entry
    [detect_faces] makes of it.  Resampled to 128 x 128 the image is black
    in its first 8 columns and white in the others. *)
Definition edge_image : image := [ (0, 0, 0) :: replicate 15 (255, 255, 255) ].

Definition edge_box : bounding_box := mkBox 0 0 16 1.

Definition edge_detection : list mp_detection := [ mkRaw 0 0 1 1 (9 / 10)%R ].

Definition edge_face : detection := mkDetection edge_box (9 / 10)%R 0.

Definition edge_gray : gray_image :=
  replicate 128 (replicate 8 0 ++ replicate 120 255).


(** The vectors that [add_face_encoding] appends: 128 numbers divided by
    their norm.  An index holds such vectors only when it was filled by
    this program. *)
Definition stored_by_add (idx : IndexFlatL2) : Prop :=
  Forall (λ x, ∃ v, length v = dimension ∧ x = normalize v) (xb idx).

(** The index file, when there is one, holds such vectors only. *)
Definition disk_stored_by_add (dk : disk) : Prop :=
  match index_file dk with
  | Stored idx => stored_by_add idx
  | _ => True
  end.

(* ===================================================================== *)
(** * Properties *)

(** ** Arithmetic of vectors *)

Lemma Rsum_squares_nonneg rs : (0 <= Rsum_squares rs)%R.
Proof.
  induction rs as [|r rs IH]; simpl; [lra|].
  pose proof (Rle_0_sqr r) as Hr. unfold Rsqr in Hr. lra.
Qed.

Lemma sum_squares_reals rs : sum_squares (reals rs) = Fin (Rsum_squares rs).
Proof.
  unfold sum_squares, reals.
  induction rs as [|r rs IH]; simpl; [reflexivity|].
  rewrite IH. reflexivity.
Qed.

(** A finite sum of squares comes from finite components only. *)
Lemma sum_squares_Fin_inv v s :
  sum_squares v = Fin s → ∃ rs, v = reals rs ∧ s = Rsum_squares rs.
Proof.
  revert s. induction v as [|x v IH]; simpl; intros s Hs.
  - exists []. split; [reflexivity|]. injection Hs as <-. reflexivity.
  - destruct x as [|r]; [discriminate|].
    destruct (sum_squares v) as [|s'] eqn:Hv; [discriminate|].
    destruct (IH s' eq_refl) as (rs & -> & ->).
    exists (r :: rs). split; [reflexivity|].
    simpl in Hs. injection Hs as <-. reflexivity.
Qed.

Lemma Rsum_squares_zero rs :
  Rsum_squares rs = 0%R → Forall (λ r, r = 0%R) rs.
Proof.
  induction rs as [|r rs IH]; simpl; intros H; [constructor|].
  pose proof (Rsum_squares_nonneg rs) as Hrs.
  pose proof (Rle_0_sqr r) as Hr. unfold Rsqr in Hr.
  assert (r * r = 0)%R as Hrr by lra.
  constructor; [|apply IH; lra].
  destruct (Rmult_integral _ _ Hrr); assumption.
Qed.

(** A zero norm forces every component to be zero: the only division by
    zero that [normalize] performs is [0.0 / 0.0]. *)
Lemma norm_zero_all_zero v :
  linalg_norm v = Fin 0 → Forall (λ x, x = f0) v.
Proof.
  unfold linalg_norm. intros H.
  destruct (sum_squares v) as [|s] eqn:Hs; [discriminate|].
  simpl in H. injection H as H.
  destruct (sum_squares_Fin_inv _ _ Hs) as (rs & -> & ->).
  assert (Rsum_squares rs = 0%R) as H0.
  { apply sqrt_eq_0; [apply Rsum_squares_nonneg | exact H]. }
  apply Rsum_squares_zero in H0.
  unfold reals. apply Forall_fmap. eapply Forall_impl; [exact H0|].
  intros r ->. reflexivity.
Qed.

Lemma Rsum_squares_scale (rs : list R) (c : R) :
  Rsum_squares (map (λ r, (r / c)%R) rs) = (Rsum_squares rs / (c * c))%R.
Proof.
  destruct (Req_dec_T c 0%R) as [->|Hc].
  - induction rs as [|r rs IH]; simpl.
    + unfold Rdiv. rewrite Rmult_0_l. reflexivity.
    + rewrite IH. unfold Rdiv. rewrite Rmult_0_l, Rinv_0. ring.
  - induction rs as [|r rs IH]; simpl.
    + unfold Rdiv. rewrite Rmult_0_l. reflexivity.
    + rewrite IH. field. exact Hc.
Qed.

(** Normalising a finite vector of non-zero norm: every component is divided
    by the norm, and the result has norm one. *)
Lemma normalize_reals (rs : list R) :
  Rsum_squares rs ≠ 0%R →
  normalize (reals rs) = reals (map (λ r, (r / sqrt (Rsum_squares rs))%R) rs)
  ∧ linalg_norm (normalize (reals rs)) = Fin 1.
Proof.
  intros Hs.
  pose proof (Rsum_squares_nonneg rs) as Hnn.
  assert (sqrt (Rsum_squares rs) ≠ 0%R) as Hn.
  { intros H0. apply Hs. apply sqrt_eq_0; assumption. }
  assert (normalize (reals rs)
          = reals (map (λ r, (r / sqrt (Rsum_squares rs))%R) rs)) as Heq.
  { unfold normalize, linalg_norm. rewrite sum_squares_reals. simpl.
    unfold reals. rewrite <- !list_fmap_compose.
    apply list_fmap_ext. intros _ r _. simpl.
    destruct (Req_dec_T _ _) as [E|_]; [contradiction|reflexivity]. }
  split; [exact Heq|].
  rewrite Heq. unfold linalg_norm. rewrite sum_squares_reals. simpl.
  rewrite Rsum_squares_scale, sqrt_sqrt by exact Hnn.
  f_equal. unfold Rdiv. rewrite Rinv_r by exact Hs. apply sqrt_1.
Qed.

(** Normalising a vector of zero norm, or one that holds a nan, gives nan
    in every position. *)
Lemma normalize_degenerate v :
  linalg_norm v = Fin 0 ∨ linalg_norm v = NaN →
  normalize v = map (λ _, NaN) v.
Proof.
  intros H. unfold normalize. apply list_fmap_ext. intros _ x _.
  destruct H as [-> | ->]; destruct x as [|r]; simpl; try reflexivity.
  destruct (Req_dec_T _ _) as [_|E]; [reflexivity|]. exfalso. apply E. reflexivity.
Qed.

Lemma length_normalize v : length (normalize v) = length v.
Proof. unfold normalize. apply length_map. Qed.

(** ** The flat index: order of the answer *)

Lemma insert_hit_elem c l x : x ∈ insert_hit c l ↔ x = c ∨ x ∈ l.
Proof.
  induction l as [|c' l IH]; simpl.
  - rewrite list_elem_of_singleton, elem_of_nil. tauto.
  - destruct (decide _).
    + rewrite elem_of_cons. tauto.
    + rewrite !elem_of_cons, IH. tauto.
Qed.

Lemma sort_hits_elem l x : x ∈ sort_hits l ↔ x ∈ l.
Proof.
  induction l as [|c l IH]; simpl; [tauto|].
  rewrite insert_hit_elem, elem_of_cons, IH. tauto.
Qed.

Lemma length_insert_hit c l : length (insert_hit c l) = S (length l).
Proof.
  induction l as [|c' l IH]; simpl; [reflexivity|].
  destruct (decide _); simpl; [reflexivity|]. rewrite IH. reflexivity.
Qed.

Lemma length_sort_hits l : length (sort_hits l) = length l.
Proof.
  induction l as [|c l IH]; simpl; [reflexivity|].
  rewrite length_insert_hit, IH. reflexivity.
Qed.

Lemma insert_hit_sorted c s :
  StronglySorted hit_lt s → Forall (label_lt c) s →
  StronglySorted hit_lt (insert_hit c s).
Proof.
  induction s as [|c' s IH]; simpl; intros Hs Hc.
  - repeat constructor.
  - apply StronglySorted_inv in Hs as [Hs Hc'].
    apply Forall_cons in Hc as [Hcc' Hc].
    destruct (decide (c.1 <= c'.1)%R) as [Hle|Hgt].
    + constructor; [constructor; assumption|].
      constructor.
      * destruct (Rle_lt_or_eq_dec _ _ Hle) as [Hlt|Heq];
          [left; exact Hlt | right; split; [exact Heq | exact Hcc']].
      * rewrite Forall_forall in Hc', Hc |- *. intros x Hx.
        specialize (Hc' x Hx). specialize (Hc x Hx).
        unfold hit_lt, label_lt in *.
        destruct Hc' as [Hlt|[Heq _]].
        -- left. lra.
        -- destruct (Rle_lt_or_eq_dec _ _ Hle) as [Hlt|Heq'];
             [left; lra | right; split; [congruence | exact Hc]].
    + constructor; [apply IH; assumption|].
      rewrite Forall_forall in Hc' |- *. intros x Hx.
      apply insert_hit_elem in Hx as [->|Hx]; [|apply Hc'; exact Hx].
      left. lra.
Qed.

Lemma sort_hits_sorted l :
  StronglySorted label_lt l → StronglySorted hit_lt (sort_hits l).
Proof.
  induction l as [|c l IH]; simpl; intros Hl; [constructor|].
  apply StronglySorted_inv in Hl as [Hl Hc].
  apply insert_hit_sorted; [apply IH; exact Hl|].
  rewrite Forall_forall in Hc |- *. intros x Hx.
  apply Hc, sort_hits_elem, Hx.
Qed.

(** What a scanned hit stands for: the stored vector at its label and its
    distance to the query. *)
Lemma scan_elem q i xs dis j :
  (dis, j) ∈ scan q i xs →
  i ≤ j < i + Z.of_nat (length xs) ∧
  ∃ x, xs !! Z.to_nat (j - i) = Some x ∧ fvec_L2sqr q x = Fin dis.
Proof.
  revert i. induction xs as [|x xs IH]; simpl; intros i H.
  - apply elem_of_nil in H. contradiction.
  - assert ((dis, j) ∈ scan q (i + 1) xs →
            i ≤ j < i + Z.of_nat (S (length xs)) ∧
            ∃ x0, (x :: xs) !! Z.to_nat (j - i) = Some x0
                  ∧ fvec_L2sqr q x0 = Fin dis) as Htail.
    { intros Hin. destruct (IH _ Hin) as [Hr (x0 & Hx0 & Hd)].
      split; [lia|]. exists x0. split; [|exact Hd].
      replace (Z.to_nat (j - i)) with (S (Z.to_nat (j - (i + 1)))) by lia.
      exact Hx0. }
    destruct (fvec_L2sqr q x) as [|dx] eqn:Hdx; [exact (Htail H)|].
    apply elem_of_cons in H as [Heq|H]; [|exact (Htail H)].
    injection Heq as -> ->. split; [lia|].
    exists x. rewrite Z.sub_diag. split; [reflexivity|exact Hdx].
Qed.

Lemma scan_label_sorted q i xs : StronglySorted label_lt (scan q i xs).
Proof.
  revert i. induction xs as [|x xs IH]; simpl; intros i; [constructor|].
  destruct (fvec_L2sqr q x) as [|dx]; [apply IH|].
  constructor; [apply IH|].
  rewrite Forall_forall. intros [dis j] Hin.
  apply scan_elem in Hin as [Hr _]. unfold label_lt. simpl. lia.
Qed.

Lemma length_scan q i xs : (length (scan q i xs) ≤ length xs)%nat.
Proof.
  revert i. induction xs as [|x xs IH]; simpl; intros i; [lia|].
  destruct (fvec_L2sqr q x); simpl; specialize (IH (i + 1)); lia.
Qed.

Lemma StronglySorted_take {A} (Rel : relation A) n l :
  StronglySorted Rel l → StronglySorted Rel (take n l).
Proof.
  intros H. rewrite <- (take_drop n l) in H.
  eapply StronglySorted_app_1_l. exact H.
Qed.

Lemma best_hits_sorted idx q k : StronglySorted hit_lt (best_hits idx q k).
Proof.
  apply StronglySorted_take, sort_hits_sorted, scan_label_sorted.
Qed.

Lemma best_hits_elem idx q k dis j :
  (dis, j) ∈ best_hits idx q k →
  0 ≤ j < ntotal idx ∧
  ∃ x, xb idx !! Z.to_nat j = Some x ∧ fvec_L2sqr q x = Fin dis.
Proof.
  intros H. apply elem_of_take in H as (i & H & _).
  apply list_elem_of_lookup_2, sort_hits_elem, scan_elem in H.
  rewrite Z.sub_0_r in H. exact H.
Qed.

Lemma length_best_hits idx q k :
  (length (best_hits idx q k) ≤ Nat.min k (length (xb idx)))%nat.
Proof.
  unfold best_hits. rewrite length_take, length_sort_hits.
  pose proof (length_scan q 0 (xb idx)). lia.
Qed.

Lemma IndexFlatL2_search_Some idx q k hits :
  IndexFlatL2_search idx q k = Some hits →
  hits = best_hits idx q k ++ replicate (k - length (best_hits idx q k)) unfilled.
Proof.
  unfold IndexFlatL2_search. destruct (decide _); [|discriminate].
  intros H. injection H as <-. reflexivity.
Qed.

(** ** The loop of [search_similar_faces] *)

Lemma similarity_of_antitone d1 d2 :
  (d1 <= d2)%R → (similarity_of d2 <= similarity_of d1)%R.
Proof.
  intros H. unfold similarity_of.
  apply Rmax_case_strong; intros H2;
    apply Rmax_case_strong; intros H1; lra.
Qed.

Lemma similarity_of_nonneg dis : (0 <= similarity_of dis)%R.
Proof. unfold similarity_of. apply Rmax_l. Qed.

Lemma accepted_true thr dis :
  accepted thr dis = true ↔ (similarity_of dis >= 1 - thr)%R.
Proof. unfold accepted. apply bool_decide_eq_true. Qed.

Lemma accepted_antitone thr d1 d2 :
  (d1 <= d2)%R → accepted thr d2 = true → accepted thr d1 = true.
Proof.
  rewrite !accepted_true. intros Hd H.
  pose proof (similarity_of_antitone _ _ Hd). lra.
Qed.

Lemma accepted_monotone t1 t2 dis :
  (t1 <= t2)%R → accepted t1 dis = true → accepted t2 dis = true.
Proof. rewrite !accepted_true. intros Ht H. lra. Qed.

Lemma collect_results_cons st i dis idx rest :
  collect_results st i ((dis, idx) :: rest) =
  if decide (idx = -1) then collect_results st (i + 1) rest
  else if accepted (threshold st) dis
       then result_of st i (dis, idx) :: collect_results st (i + 1) rest
       else collect_results st (i + 1) rest.
Proof. reflexivity. Qed.

Lemma collect_results_unfilled st i n :
  collect_results st i (replicate n unfilled) = [].
Proof.
  revert i. induction n as [|n IH]; intros i; [reflexivity|].
  simpl replicate. unfold unfilled at 1. rewrite collect_results_cons.
  destruct (decide (-1 = -1)) as [_|E]; [apply IH | contradiction].
Qed.

Lemma collect_results_app st i l1 l2 :
  collect_results st i (l1 ++ l2) =
  collect_results st i l1 ++ collect_results st (i + Z.of_nat (length l1)) l2.
Proof.
  revert i. induction l1 as [|[dis idx] l1 IH]; intros i.
  - simpl. rewrite Z.add_0_r. reflexivity.
  - rewrite <- app_comm_cons, !collect_results_cons, IH.
    replace (i + 1 + Z.of_nat (length l1))
      with (i + Z.of_nat (length ((dis, idx) :: l1))) by (simpl; lia).
    destruct (decide _); [reflexivity|].
    destruct (accepted _ _); reflexivity.
Qed.

Lemma collect_results_rejected st i l :
  Forall (λ h : hit, accepted (threshold st) h.1 = false) l →
  collect_results st i l = [].
Proof.
  revert i. induction l as [|[dis idx] l IH]; intros i H; [reflexivity|].
  apply Forall_cons in H as [Hh H]. simpl in Hh.
  rewrite collect_results_cons, Hh, IH by exact H.
  destruct (decide _); reflexivity.
Qed.

(** On an answer in ascending distance the accepted hits are a prefix. *)
Lemma collect_results_prefix st i l :
  StronglySorted hit_lt l → Forall (λ h : hit, h.2 ≠ -1) l →
  ∃ m, (m ≤ length l)%nat
     ∧ collect_results st i l = ranked st i (take m l)
     ∧ Forall (λ h : hit, accepted (threshold st) h.1 = true) (take m l)
     ∧ Forall (λ h : hit, accepted (threshold st) h.1 = false) (drop m l).
Proof.
  revert i. induction l as [|[dis idx] l IH]; intros i Hs Hv.
  - exists 0%nat. repeat split; try constructor. 
  - apply StronglySorted_inv in Hs as [Hs Hh].
    apply Forall_cons in Hv as [Hidx Hv]. simpl in Hidx.
    rewrite collect_results_cons.
    destruct (decide (idx = -1)) as [E|_]; [contradiction|].
    destruct (accepted (threshold st) dis) eqn:Hacc.
    + destruct (IH (i + 1) Hs Hv) as (m & Hm & Heq & Hyes & Hno).
      exists (S m). simpl. rewrite Heq.
      repeat split; [lia | | exact Hno].
      constructor; [exact Hacc | exact Hyes].
    + assert (Forall (λ h : hit, accepted (threshold st) h.1 = false) l) as Hrej.
      { rewrite Forall_forall in Hh |- *. intros h Hin.
        destruct (accepted (threshold st) h.1) eqn:Hah; [|reflexivity].
        rewrite <- Hacc. symmetry.
        eapply accepted_antitone; [|exact Hah].
        destruct (Hh h Hin) as [Hlt|[Heq _]]; simpl in *; lra. }
      exists 0%nat. simpl. rewrite collect_results_rejected by exact Hrej.
      repeat split; [lia | constructor | ].
      constructor; [exact Hacc | exact Hrej].
Qed.

Lemma ranked_hits st i l : result_hit <$> ranked st i l = l.
Proof.
  revert i. induction l as [|[dis idx] l IH]; intros i; [reflexivity|].
  simpl. rewrite IH. reflexivity.
Qed.

Lemma ranked_ranks st i l :
  r_rank <$> ranked st i l = (λ n, i + 1 + Z.of_nat n) <$> seq 0 (length l).
Proof.
  revert i. induction l as [|h l IH]; intros i; [reflexivity|].
  simpl. rewrite IH, Z.add_0_r. f_equal.
  rewrite <- fmap_S_seq, <- list_fmap_compose.
  apply list_fmap_ext. intros _ n _. simpl. lia.
Qed.

Lemma length_ranked st i l : length (ranked st i l) = length l.
Proof.
  revert i. induction l as [|h l IH]; intros i; [reflexivity|].
  simpl. rewrite IH. reflexivity.
Qed.

Lemma length_collect_results st i l :
  (length (collect_results st i l) ≤ length l)%nat.
Proof.
  revert i. induction l as [|[dis idx] l IH]; intros i; [reflexivity|].
  rewrite collect_results_cons. specialize (IH (i + 1)).
  destruct (decide _); [simpl; lia|].
  destruct (accepted _ _); simpl; lia.
Qed.

(** Raising the threshold keeps every accepted hit. *)
Lemma collect_results_threshold st t1 t2 i l :
  (t1 <= t2)%R →
  (length (collect_results (with_threshold st t1) i l)
   ≤ length (collect_results (with_threshold st t2) i l))%nat.
Proof.
  intros Ht. revert i. induction l as [|[dis idx] l IH]; intros i; [reflexivity|].
  rewrite !collect_results_cons. specialize (IH (i + 1)).
  destruct (decide _); [exact IH|]. simpl threshold.
  destruct (accepted t1 dis) eqn:H1.
  - rewrite (accepted_monotone t1 t2 dis Ht H1). simpl. lia.
  - destruct (accepted t2 dis); simpl; lia.
Qed.

(** ** [search_similar_faces] as a whole *)

Lemma search_similar_faces_unfold st q k :
  search_similar_faces st q k =
  if decide (ntotal (index st) = 0) then []
  else collect_results st 0 (faiss_answer st q k).
Proof.
  unfold search_similar_faces, faiss_answer.
  destruct (decide _); [reflexivity|].
  destruct (reshape q dimension); [|reflexivity].
  destruct (IndexFlatL2_search _ _ _); reflexivity.
Qed.

Lemma best_hits_valid idx q k : Forall (λ h : hit, h.2 ≠ -1) (best_hits idx q k).
Proof.
  rewrite Forall_forall. intros [dis j] Hin.
  apply best_hits_elem in Hin as [Hr _]. simpl. lia.
Qed.

Lemma filter_valid_answer (best : list hit) n :
  Forall (λ h : hit, h.2 ≠ -1) best →
  filter (λ h : hit, h.2 ≠ -1) (best ++ replicate n unfilled) = best.
Proof.
  intros Hv. rewrite filter_app.
  replace (filter (λ h : hit, h.2 ≠ -1) (replicate n unfilled)) with (@nil hit).
  - rewrite app_nil_r. induction Hv as [|h l Hh Hv IH]; [reflexivity|].
    rewrite filter_cons_True by exact Hh. rewrite IH. reflexivity.
  - induction n as [|n IH]; [reflexivity|].
    simpl replicate. rewrite filter_cons_False; [exact IH|].
    intros H. apply H. reflexivity.
Qed.

(** The answer is the candidates followed by unfilled slots. *)
Lemma faiss_answer_candidates st q k :
  ∃ n, faiss_answer st q k = candidates st q k ++ replicate n unfilled.
Proof.
  unfold candidates, faiss_answer.
  destruct (reshape q dimension) as [q'|]; [|exists 0%nat; reflexivity].
  destruct (IndexFlatL2_search _ _ _) as [hits|] eqn:Hs;
    [|exists 0%nat; reflexivity].
  apply IndexFlatL2_search_Some in Hs. simpl. subst hits.
  eexists. rewrite filter_valid_answer by apply best_hits_valid. reflexivity.
Qed.

Lemma candidates_cases st q k :
  candidates st q k = [] ∨
  ∃ q', reshape q dimension = Some q' ∧
        candidates st q k =
        best_hits (index st) (normalize q')
          (Nat.min k (Z.to_nat (ntotal (index st)))).
Proof.
  unfold candidates, faiss_answer.
  destruct (reshape q dimension) as [q'|]; [|left; reflexivity].
  destruct (IndexFlatL2_search _ _ _) as [hits|] eqn:Hs; [|left; reflexivity].
  right. exists q'. split; [reflexivity|].
  apply IndexFlatL2_search_Some in Hs. simpl. subst hits.
  apply filter_valid_answer, best_hits_valid.
Qed.

Lemma candidates_sorted st q k : StronglySorted hit_lt (candidates st q k).
Proof.
  destruct (candidates_cases st q k) as [-> | (q' & _ & ->)];
    [constructor | apply best_hits_sorted].
Qed.

Lemma candidates_valid st q k :
  Forall (λ h : hit, h.2 ≠ -1) (candidates st q k).
Proof.
  destruct (candidates_cases st q k) as [-> | (q' & _ & ->)];
    [constructor | apply best_hits_valid].
Qed.

Lemma length_candidates st q k :
  (length (candidates st q k) ≤ Nat.min k (length (xb (index st))))%nat.
Proof.
  destruct (candidates_cases st q k) as [-> | (q' & _ & ->)]; [simpl; lia|].
  pose proof (length_best_hits (index st) (normalize q')
                (Nat.min k (Z.to_nat (ntotal (index st))))). lia.
Qed.

Lemma candidates_empty_index st q k :
  ntotal (index st) = 0 → candidates st q k = [].
Proof.
  intros H. pose proof (length_candidates st q k) as Hl.
  unfold ntotal in H. destruct (candidates st q k); [reflexivity|simpl in Hl; lia].
Qed.

(** The whole result: the accepted prefix of the candidates, numbered from 1. *)
Lemma search_shape st q k :
  ∃ m, (m ≤ length (candidates st q k))%nat
     ∧ search_similar_faces st q k = ranked st 0 (take m (candidates st q k))
     ∧ Forall (λ h : hit, accepted (threshold st) h.1 = true)
              (take m (candidates st q k))
     ∧ Forall (λ h : hit, accepted (threshold st) h.1 = false)
              (drop m (candidates st q k)).
Proof.
  rewrite search_similar_faces_unfold.
  destruct (decide (ntotal (index st) = 0)) as [H0|_].
  - exists 0%nat. rewrite (candidates_empty_index _ _ _ H0).
    repeat split; constructor.
  - destruct (faiss_answer_candidates st q k) as [n ->].
    rewrite collect_results_app, collect_results_unfilled, app_nil_r.
    apply collect_results_prefix; [apply candidates_sorted | apply candidates_valid].
Qed.

Lemma StronglySorted_fmap_inv {A B} (f : A → B) (Rel : relation B) l :
  StronglySorted Rel (f <$> l) → StronglySorted (λ a b, Rel (f a) (f b)) l.
Proof.
  induction l as [|a l IH]; simpl; intros H; [constructor|].
  apply StronglySorted_inv in H as [H Ha].
  constructor; [apply IH; exact H|].
  rewrite Forall_fmap in Ha. exact Ha.
Qed.

Lemma ranked_lookup st i l n h :
  l !! n = Some h → ranked st i l !! n = Some (result_of st (i + Z.of_nat n) h).
Proof.
  revert i n. induction l as [|h' l IH]; intros i n H; [discriminate|].
  destruct n as [|n]; simpl in *.
  - injection H as ->. rewrite Z.add_0_r. reflexivity.
  - rewrite (IH (i + 1) n H). do 2 f_equal. lia.
Qed.

Lemma ranked_elem st i l r :
  r ∈ ranked st i l ↔ ∃ n h, l !! n = Some h ∧ r = result_of st (i + Z.of_nat n) h.
Proof.
  split.
  - intros Hin. apply list_elem_of_lookup in Hin as [n Hn].
    assert (n < length l)%nat as Hlt.
    { rewrite <- (length_ranked st i l). eapply lookup_lt_Some, Hn. }
    destruct (lookup_lt_is_Some_2 l n Hlt) as [h Hh].
    exists n, h. split; [exact Hh|].
    rewrite (ranked_lookup st i l n h Hh) in Hn. congruence.
  - intros (n & h & Hh & ->).
    eapply list_elem_of_lookup_2, ranked_lookup, Hh.
Qed.

(* ===================================================================== *)
(** * The claims about search *)

(** C2. On an empty index a search returns the empty list, whatever the
    query and [k] (the index may have any dimension and the record store
    any content).  On every index the result has at most [min(k, ntotal)]
    entries and is ordered by ascending distance, the lower position first
    among equal distances. *)
Theorem search_similar_faces_bounded_sorted
    (st : FAISSManager) (query_encoding : vec) (k : nat) :
  (∀ dim m thr,
     search_similar_faces (mkManager (new_IndexFlatL2 dim) m thr)
       query_encoding k = [])
  ∧ (length (search_similar_faces st query_encoding k)
     ≤ Nat.min k (length (xb (index st))))%nat
  ∧ StronglySorted result_lt (search_similar_faces st query_encoding k).
Proof.
  split; [intros dim m thr; reflexivity|].
  destruct (search_shape st query_encoding k) as (m & Hm & -> & _ & _).
  pose proof (length_candidates st query_encoding k) as Hlen.
  split.
  - rewrite length_ranked, length_take. lia.
  - apply (StronglySorted_fmap_inv result_hit hit_lt). rewrite ranked_hits.
    apply StronglySorted_take, candidates_sorted.
Qed.

(** C8. For a fixed query, [k] and index, a search under a threshold that
    is at least as high returns at least as many matches. *)
Theorem threshold_monotone
    (st : FAISSManager) (query_encoding : vec) (k : nat) (t1 t2 : R) :
  (t1 <= t2)%R →
  (length (search_similar_faces (with_threshold st t1) query_encoding k)
   ≤ length (search_similar_faces (with_threshold st t2) query_encoding k))%nat.
Proof.
  intros Ht. rewrite !search_similar_faces_unfold. simpl index.
  destruct (decide _); [reflexivity|].
  replace (faiss_answer (with_threshold st t2) query_encoding k)
    with (faiss_answer (with_threshold st t1) query_encoding k) by reflexivity.
  apply (collect_results_threshold st t1 t2 0 _ Ht).
Qed.

(** C10. The candidates of a search are in ascending distance, and the
    ones that pass the threshold test are a prefix of them: the first [m]
    pass, the others fail.  The result holds one dictionary per candidate
    of that prefix, in the same order, and their [rank] fields are
    1, 2, ..., m. *)
Theorem accepted_prefix_consecutive_ranks
    (st : FAISSManager) (query_encoding : vec) (k : nat) :
  StronglySorted hit_lt (candidates st query_encoding k)
  ∧ ∃ m, (m ≤ length (candidates st query_encoding k))%nat
       ∧ Forall (λ h : hit, accepted (threshold st) h.1 = true)
           (take m (candidates st query_encoding k))
       ∧ Forall (λ h : hit, accepted (threshold st) h.1 = false)
           (drop m (candidates st query_encoding k))
       ∧ result_hit <$> search_similar_faces st query_encoding k
         = take m (candidates st query_encoding k)
       ∧ r_rank <$> search_similar_faces st query_encoding k
         = Z.of_nat <$> seq 1 m.
Proof.
  split; [apply candidates_sorted|].
  destruct (search_shape st query_encoding k) as (m & Hm & Heq & Hyes & Hno).
  exists m. rewrite Heq, ranked_hits, ranked_ranks, length_take.
  repeat split; try assumption.
  replace (m `min` length (candidates st query_encoding k))%nat with m by lia.
  rewrite <- fmap_S_seq, <- list_fmap_compose.
  apply list_fmap_ext. intros _ n _. simpl. lia.
Qed.

Lemma threshold_monotone_witness :
  (5 / 10 <= 6 / 10)%R
  ∧ (length (search_similar_faces (with_threshold one_face (5 / 10)) e1 1)
     ≤ length (search_similar_faces (with_threshold one_face (6 / 10)) e1 1))%nat.
Proof.
  split; [lra|]. apply (threshold_monotone one_face e1 1 (5 / 10) (6 / 10)). lra.
Defined.

(** ** Concrete vectors *)

Lemma Rsum_squares_zeros n : Rsum_squares (replicate n 0%R) = 0%R.
Proof. induction n as [|n IH]; simpl; [reflexivity|]. rewrite IH. ring. Qed.

Lemma length_e1 : length e1 = dimension.
Proof. reflexivity. Qed.

Lemma length_zero_vec : length zero_vec = dimension.
Proof. reflexivity. Qed.

Lemma normalize_e1 : normalize e1 = e1.
Proof.
  unfold e1.
  assert (Rsum_squares (1%R :: replicate 127 0%R) = 1%R) as Hs.
  { change (Rsum_squares (1%R :: replicate 127 0%R))
      with (1 * 1 + Rsum_squares (replicate 127 0%R))%R.
    rewrite Rsum_squares_zeros. ring. }
  destruct (normalize_reals (1%R :: replicate 127 0%R)) as [-> _].
  { rewrite Hs. lra. }
  rewrite Hs, sqrt_1. f_equal.
  rewrite <- (list_fmap_id (1%R :: replicate 127 0%R)) at 2.
  apply list_fmap_ext. intros _ r _. simpl. field.
Qed.

Lemma normalize_zero_vec : normalize zero_vec = replicate 128 NaN.
Proof.
  rewrite normalize_degenerate.
  - unfold zero_vec, reals. rewrite <- list_fmap_compose, fmap_replicate.
    reflexivity.
  - left. unfold linalg_norm, zero_vec.
    rewrite sum_squares_reals, Rsum_squares_zeros. simpl. rewrite sqrt_0.
    reflexivity.
Qed.

Lemma fvec_L2sqr_self rs : fvec_L2sqr (reals rs) (reals rs) = Fin 0.
Proof.
  unfold reals. induction rs as [|r rs IH]; [reflexivity|].
  cbn [map fvec_L2sqr]. rewrite IH. simpl. f_equal. ring.
Qed.

Lemma one_face_eq :
  one_face =
  mkManager (mkIndex dimension [e1])
    {[ str 0 := build_metadata "alice_0" "alice" 0 None ]} (6 / 10)%R.
Proof.
  unfold one_face, add_face_encoding, reshape.
  destruct (decide (length e1 = dimension)) as [_|E]; [|contradiction].
  rewrite normalize_e1. unfold IndexFlatL2_add.
  destruct (decide (length e1 = d (index fresh))) as [_|E]; [|contradiction].
  reflexivity.
Qed.

(** A registered face is found again: distance 0, similarity 1, rank 1. *)
Example search_registered_face :
  search_similar_faces one_face e1 1 =
  [ mkResult (VStr "alice_0") (VStr "alice") (Rmax 0 (1 - 0)) 0 0 1 ].
Proof.
  rewrite one_face_eq.
  unfold search_similar_faces, reshape. simpl index.
  destruct (decide (ntotal (mkIndex dimension [e1]) = 0)) as [E|_];
    [discriminate|].
  destruct (decide (length e1 = dimension)) as [_|E]; [|contradiction].
  rewrite normalize_e1. unfold IndexFlatL2_search.
  destruct (decide _) as [_|E]; [|exfalso; apply E; split; [reflexivity|]; simpl; lia].
  simpl xb. unfold scan.
  pose proof (fvec_L2sqr_self (1%R :: replicate 127 0%R)) as He.
  fold e1 in He. rewrite He.
  change (collect_results
            (mkManager (mkIndex dimension [e1])
               {[ str 0 := build_metadata "alice_0" "alice" 0 None ]} (6 / 10)%R)
            0 [(0%R, 0)] = 
          [ mkResult (VStr "alice_0") (VStr "alice") (Rmax 0 (1 - 0)) 0 0 1 ]).
  rewrite collect_results_cons.
  destruct (decide (0 = -1)) as [E|_]; [discriminate|].
  cbn [threshold].
  assert (accepted (6 / 10)%R 0%R = true) as ->.
  { apply accepted_true. unfold similarity_of.
    apply Rmax_case_strong; intros; lra. }
  reflexivity.
Qed.

(** ** The record store as a function of the history *)

Lemma str_inj i j : str i = str j → i = j.
Proof. unfold str. apply (inj pretty). Qed.

Lemma metadata_from_lookup i rs key r :
  metadata_from i rs !! key = Some r ↔
  ∃ n, key = str (i + Z.of_nat n) ∧ rs !! n = Some r.
Proof.
  revert i. induction rs as [|r0 rs IH]; intros i; simpl.
  - rewrite lookup_empty. split; [discriminate|]. intros (n & _ & H). discriminate.
  - rewrite lookup_insert_Some, IH. split.
    + intros [[<- <-] | [Hne (n & -> & Hn)]].
      * exists 0%nat. rewrite Z.add_0_r. auto.
      * exists (S n). split; [f_equal; lia | exact Hn].
    + intros ([|n] & -> & Hn); simpl in Hn.
      * left. rewrite Z.add_0_r. split; congruence.
      * right. split.
        -- intros E. apply str_inj in E. lia.
        -- exists n. split; [f_equal; lia | exact Hn].
Qed.

Lemma metadata_from_lookup_str i rs n :
  metadata_from i rs !! str (i + Z.of_nat n) = rs !! n.
Proof.
  destruct (rs !! n) as [r|] eqn:Hn.
  - apply metadata_from_lookup. exists n. auto.
  - destruct (metadata_from i rs !! str (i + Z.of_nat n)) as [r|] eqn:Hl;
      [|reflexivity].
    apply metadata_from_lookup in Hl as (n' & E & Hn').
    apply str_inj in E. assert (n' = n) as -> by lia. congruence.
Qed.

Lemma metadata_from_fresh_key i rs j :
  j < i ∨ i + Z.of_nat (length rs) ≤ j → metadata_from i rs !! str j = None.
Proof.
  intros Hj.
  destruct (metadata_from i rs !! str j) as [r|] eqn:Hl; [|reflexivity].
  apply metadata_from_lookup in Hl as (n & E & Hn).
  apply str_inj in E. apply lookup_lt_Some in Hn. lia.
Qed.

Lemma size_metadata_from i rs : size (metadata_from i rs) = length rs.
Proof.
  revert i. induction rs as [|r rs IH]; intros i; simpl.
  - apply map_size_empty.
  - rewrite map_size_insert_None, IH; [reflexivity|].
    apply metadata_from_fresh_key. lia.
Qed.

Lemma metadata_from_snoc i rs r :
  metadata_from i (rs ++ [r]) =
  <[ str (i + Z.of_nat (length rs)) := r ]> (metadata_from i rs).
Proof.
  revert i. induction rs as [|r0 rs IH]; intros i; simpl.
  - rewrite Z.add_0_r. reflexivity.
  - rewrite IH, insert_insert_ne.
    + do 2 f_equal. lia.
    + intros E. apply str_inj in E. lia.
Qed.

(** What [paired] says, position by position. *)
Lemma paired_spec st hist :
  paired st hist →
  ntotal (index st) = Z.of_nat (size (metadata st))
  ∧ length hist = size (metadata st)
  ∧ ∀ i v r, hist !! i = Some (v, r) →
      xb (index st) !! i = Some v
      ∧ metadata st !! str (Z.of_nat i) = Some r.
Proof.
  intros [Hx Hm]. unfold ntotal.
  rewrite Hx, Hm, size_metadata_from, !length_fmap.
  repeat split; try reflexivity.
  - rewrite list_lookup_fmap, H. reflexivity.
  - rewrite <- (Z.add_0_l (Z.of_nat i)), metadata_from_lookup_str.
    rewrite list_lookup_fmap, H. reflexivity.
Qed.

(** ** The mutating operations *)

Lemma ntotal_after_add idx x :
  ntotal (mkIndex (d idx) (xb idx ++ [x])) - 1 = ntotal idx.
Proof. unfold ntotal. simpl. rewrite length_app. simpl. lia. Qed.

(** [add_face_encoding] either leaves everything as it is and returns
    [False], or appends the normalised vector, stores the record under the
    key of the old count, saves, and returns [True]. *)
Lemma add_face_encoding_cases st dk io encoding face_id person_name extra :
  let out := add_face_encoding st dk io encoding face_id person_name extra in
  let st' :=
    mkManager (mkIndex (d (index st)) (xb (index st) ++ [normalize encoding]))
      (<[ str (ntotal (index st)) :=
            build_metadata face_id person_name (ntotal (index st)) extra ]>
         (metadata st))
      (threshold st) in
  ((length encoding ≠ dimension ∨ d (index st) ≠ dimension)
   ∧ out = (false, st, dk))
  ∨ (length encoding = dimension ∧ d (index st) = dimension
     ∧ out = (true, st', _save_index st' dk io)).
Proof.
  intros out st'. subst out st'. unfold add_face_encoding, reshape.
  destruct (decide (length encoding = dimension)) as [Hl|Hl];
    [|left; split; [left; exact Hl | reflexivity]].
  unfold IndexFlatL2_add. rewrite length_normalize.
  destruct (decide (length encoding = d (index st))) as [Hd|Hd].
  - right. split; [exact Hl|]. split; [congruence|].
    rewrite ntotal_after_add. reflexivity.
  - left. split; [right; congruence | reflexivity].
Qed.

Lemma paired_fresh dim thr : paired (mkManager (new_IndexFlatL2 dim) ∅ thr) [].
Proof. split; reflexivity. Qed.

Lemma paired_add st hist v r :
  paired st hist →
  paired (mkManager (mkIndex (d (index st)) (xb (index st) ++ [v]))
            (<[ str (ntotal (index st)) := r ]> (metadata st)) (threshold st))
         (hist ++ [(v, r)]).
Proof.
  intros [Hx Hm]. split; simpl.
  - rewrite Hx, fmap_app. reflexivity.
  - rewrite fmap_app. simpl. rewrite metadata_from_snoc, Z.add_0_l.
    unfold ntotal. rewrite Hx, Hm, !length_fmap. reflexivity.
Qed.

Lemma init_paired dk hist : disk_holds dk hist → paired (FAISSManager_init dk) hist.
Proof.
  unfold disk_holds, FAISSManager_init, _initialize_index.
  destruct (index_file dk) as [| |idx], (metadata_file dk) as [| |m]; simpl;
    try (intros ->; apply paired_fresh).
  intros [Hx Hm]. split; assumption.
Qed.

Lemma save_ok_disk_holds st dk hist :
  paired st hist → disk_holds (_save_index st dk io_ok) hist.
Proof. intros [Hx Hm]. split; assumption. Qed.

Lemma step_paired st dk hist o :
  paired st hist →
  paired (step (st, dk, hist) o).1.1 (step (st, dk, hist) o).2.
Proof.
  intros Hp. destruct o as [io e fid pn extra | io]; simpl.
  - destruct (add_face_encoding_cases st dk io e fid pn extra)
      as [[_ ->] | (_ & _ & ->)]; simpl; [exact Hp|].
    apply paired_add, Hp.
  - apply paired_fresh.
Qed.

Lemma step_disk_holds st dk hist o :
  op_io o = io_ok → paired st hist → disk_holds dk hist →
  disk_holds (step (st, dk, hist) o).1.2 (step (st, dk, hist) o).2.
Proof.
  intros Hio Hp Hd. destruct o as [io e fid pn extra | io]; simpl in *; subst io.
  - destruct (add_face_encoding_cases st dk io_ok e fid pn extra)
      as [[_ ->] | (_ & _ & ->)]; simpl; [exact Hd|].
    apply save_ok_disk_holds, paired_add, Hp.
  - apply save_ok_disk_holds, paired_fresh.
Qed.

Lemma run_cons w o ops : run w (o :: ops) = run (step w o) ops.
Proof. reflexivity. Qed.

Lemma run_paired ops st dk hist :
  paired st hist →
  paired (run (st, dk, hist) ops).1.1 (run (st, dk, hist) ops).2
  ∧ (Forall (λ o, op_io o = io_ok) ops → disk_holds dk hist →
     disk_holds (run (st, dk, hist) ops).1.2 (run (st, dk, hist) ops).2).
Proof.
  revert st dk hist. induction ops as [|o ops IH]; intros st dk hist Hp.
  - simpl. split; [exact Hp | intros _ Hd; exact Hd].
  - pose proof (step_paired st dk hist o Hp) as Hp'.
    rewrite run_cons.
    destruct (step (st, dk, hist) o) as [[st' dk'] hist'] eqn:Hstep.
    simpl in Hp'. destruct (IH st' dk' hist' Hp') as [IHp IHd].
    split; [exact IHp|].
    intros Hio Hd. apply Forall_cons in Hio as [Ho Hio].
    apply IHd; [exact Hio|].
    pose proof (step_disk_holds st dk hist o Ho Hp Hd) as Hd'.
    rewrite Hstep in Hd'. exact Hd'.
Qed.

Lemma add_face_encoding_ok st dk io encoding face_id person_name extra :
  length encoding = dimension → d (index st) = dimension →
  add_face_encoding st dk io encoding face_id person_name extra =
  let st' :=
    mkManager (mkIndex (d (index st)) (xb (index st) ++ [normalize encoding]))
      (<[ str (ntotal (index st)) :=
            build_metadata face_id person_name (ntotal (index st)) extra ]>
         (metadata st))
      (threshold st) in
  (true, st', _save_index st' dk io).
Proof.
  intros Hl Hd.
  destruct (add_face_encoding_cases st dk io encoding face_id person_name extra)
    as [[[H|H] _] | (_ & _ & ->)]; [contradiction | contradiction | reflexivity].
Qed.

(* ===================================================================== *)
(** * The claims about the stored state *)

(** C1 (as amended).  Start from a disk whose two files, when both can be
    read, were written from one paired state (otherwise a new index is
    created).  After the initial load or creation and after every further
    add and clear, whatever the outcome of the writes: the number of stored
    vectors equals the number of stored records, and position [i] holds the
    vector, and key [str(i)] the record, of the [i]-th successful add since
    the index was last empty.  When every write succeeded the disk again
    holds such a snapshot. *)
Theorem pairing_invariant (dk0 : disk) (hist0 : history) (ops : list op) :
  disk_holds dk0 hist0 →
  let '(st, dk, hist) := run (FAISSManager_init dk0, dk0, hist0) ops in
  ntotal (index st) = Z.of_nat (size (metadata st))
  ∧ length hist = size (metadata st)
  ∧ (∀ i v r, hist !! i = Some (v, r) →
       xb (index st) !! i = Some v
       ∧ metadata st !! str (Z.of_nat i) = Some r)
  ∧ (Forall (λ o, op_io o = io_ok) ops → disk_holds dk hist).
Proof.
  intros Hd.
  destruct (run_paired ops (FAISSManager_init dk0) dk0 hist0 (init_paired _ _ Hd))
    as [Hp Hdisk].
  destruct (run (FAISSManager_init dk0, dk0, hist0) ops) as [[st dk] hist].
  simpl in Hp, Hdisk.
  destruct (paired_spec st hist Hp) as (H1 & H2 & H3).
  split; [exact H1|]. split; [exact H2|]. split; [exact H3|].
  intros Hio. apply Hdisk; [exact Hio | exact Hd].
Qed.

Lemma pairing_invariant_witness :
  disk_holds empty_disk []
  ∧ let '(st, dk, hist) :=
      run (FAISSManager_init empty_disk, empty_disk, [])
          [ OpAdd io_ok e1 "alice_0" "alice" None ] in
    ntotal (index st) = Z.of_nat (size (metadata st))
    ∧ length hist = size (metadata st)
    ∧ (∀ i v r, hist !! i = Some (v, r) →
         xb (index st) !! i = Some v
         ∧ metadata st !! str (Z.of_nat i) = Some r)
    ∧ (Forall (λ o, op_io o = io_ok) [ OpAdd io_ok e1 "alice_0" "alice" None ]
       → disk_holds dk hist).
Proof.
  split; [reflexivity|].
  apply (pairing_invariant empty_disk []
           [ OpAdd io_ok e1 "alice_0" "alice" None ]).
  reflexivity.
Defined.

Lemma torn_disk_eq :
  ∃ m, torn_disk = mkDisk (Stored (mkIndex dimension [e1; e1])) (Stored m)
       ∧ size m = 1%nat.
Proof.
  unfold torn_disk, torn_ops. rewrite !run_cons.
  unfold step at 2.
  rewrite (add_face_encoding_ok fresh empty_disk io_ok e1 "alice_0" "alice" None)
    by reflexivity.
  cbv zeta. rewrite normalize_e1.
  unfold step at 1.
  rewrite add_face_encoding_ok by reflexivity.
  cbv zeta. rewrite normalize_e1.
  eexists. split; [reflexivity|].
  simpl. rewrite map_size_insert_None by apply lookup_empty.
  rewrite map_size_empty. reflexivity.
Qed.

(** C1 (as stated) fails at the initial load: the disk left by [torn_ops]
    has both files, the load takes them as they are, and the manager
    starts with two vectors and one record. *)
Lemma load_of_torn_snapshot_unpaired :
  ntotal (index (FAISSManager_init torn_disk)) = 2
  ∧ size (metadata (FAISSManager_init torn_disk)) = 1%nat
  ∧ ntotal (index (FAISSManager_init torn_disk))
    ≠ Z.of_nat (size (metadata (FAISSManager_init torn_disk))).
Proof.
  destruct torn_disk_eq as (m & -> & Hm).
  unfold FAISSManager_init, _initialize_index. simpl.
  rewrite Hm. repeat split. discriminate.
Qed.

(** C4 (as amended).  A vector whose length is not 128 is rejected: the
    call returns [False] (the error is logged, not raised) and neither the
    manager nor the disk changes.  A finite 128-vector of non-zero norm,
    added to an index of dimension 128, is divided by its norm, which makes
    its norm 1, and is appended after the vectors already stored. *)
Theorem add_rejects_or_normalizes
    (st : FAISSManager) (dk : disk) (io : io_env) (encoding : vec)
    (face_id person_name : string) (extra : option record) :
  (length encoding ≠ dimension →
     add_face_encoding st dk io encoding face_id person_name extra
     = (false, st, dk))
  ∧ (∀ rs, encoding = reals rs → length rs = dimension →
           Rsum_squares rs ≠ 0%R → d (index st) = dimension →
       ∃ st' dk',
         add_face_encoding st dk io encoding face_id person_name extra
         = (true, st', dk')
         ∧ xb (index st') = xb (index st) ++ [normalize encoding]
         ∧ normalize encoding
           = reals (map (λ r, (r / sqrt (Rsum_squares rs))%R) rs)
         ∧ linalg_norm (normalize encoding) = Fin 1).
Proof.
  split.
  - intros Hl.
    destruct (add_face_encoding_cases st dk io encoding face_id person_name extra)
      as [[_ H] | (H & _)]; [exact H | contradiction].
  - intros rs -> Hl Hs Hd.
    rewrite add_face_encoding_ok;
      [|unfold reals; rewrite length_map; exact Hl | exact Hd].
    destruct (normalize_reals rs Hs) as [Hn H1].
    eexists _, _. split; [reflexivity|]. simpl. auto.
Qed.

Lemma add_rejects_or_normalizes_witness :
  (add_face_encoding fresh empty_disk io_ok [Fin 1; Fin 2] "bob_0" "bob" None
   = (false, fresh, empty_disk))
  ∧ ∃ st' dk',
      add_face_encoding fresh empty_disk io_ok e1 "alice_0" "alice" None
      = (true, st', dk')
      ∧ xb (index st') = xb (index fresh) ++ [normalize e1]
      ∧ normalize e1
        = reals (map (λ r, (r / sqrt (Rsum_squares (1%R :: replicate 127 0%R)))%R)
                   (1%R :: replicate 127 0%R))
      ∧ linalg_norm (normalize e1) = Fin 1.
Proof.
  split.
  - apply (add_rejects_or_normalizes fresh empty_disk io_ok
             [Fin 1; Fin 2] "bob_0" "bob" None).
    simpl. unfold dimension. lia.
  - apply (add_rejects_or_normalizes fresh empty_disk io_ok
             e1 "alice_0" "alice" None).
    + reflexivity.
    + reflexivity.
    + change (Rsum_squares (1%R :: replicate 127 0%R))
        with (1 * 1 + Rsum_squares (replicate 127 0%R))%R.
      rewrite Rsum_squares_zeros. lra.
    + reflexivity.
Defined.

(** C4 (as stated) fails for the zero vector: it has 128 components, the
    call returns [True], and what is appended is 128 times [nan], whose
    norm is not 1. *)
Lemma add_zero_vector_stores_nan :
  let '(ret, st', _) :=
    add_face_encoding fresh empty_disk io_ok zero_vec "zero_0" "zero" None in
  length zero_vec = 128%nat
  ∧ ret = true
  ∧ xb (index st') = [replicate 128 NaN]
  ∧ linalg_norm (replicate 128 NaN) = NaN
  ∧ linalg_norm (replicate 128 NaN) ≠ Fin 1.
Proof.
  rewrite add_face_encoding_ok by reflexivity.
  cbv zeta. rewrite normalize_zero_vec.
  repeat split. discriminate.
Qed.

(** C5 (as amended).  A successful add returns [True].  The vector is then
    stored at the position equal to the number of vectors before the call,
    the count has grown by one, the record is stored under the key
    [str(position)], and its [index_position] field is that position unless
    [additional_metadata] brings an [index_position] of its own. *)
Theorem add_position_is_old_count
    (st : FAISSManager) (dk : disk) (io : io_env) (encoding : vec)
    (face_id person_name : string) (extra : option record)
    (st' : FAISSManager) (dk' : disk) :
  add_face_encoding st dk io encoding face_id person_name extra
  = (true, st', dk') →
  let position := ntotal (index st) in
  ntotal (index st') = position + 1
  ∧ xb (index st') !! Z.to_nat position = Some (normalize encoding)
  ∧ metadata st' !! str position
    = Some (build_metadata face_id person_name position extra)
  ∧ ((∀ m, extra = Some m → m !! "index_position" = None) →
     build_metadata face_id person_name position extra !! "index_position"
     = Some (VInt position)).
Proof.
  intros Hadd position.
  destruct (add_face_encoding_cases st dk io encoding face_id person_name extra)
    as [[_ H] | (_ & _ & H)]; rewrite H in Hadd; [discriminate|].
  injection Hadd as <- _. subst position. unfold ntotal. simpl.
  split; [rewrite length_app; simpl; lia|].
  split; [rewrite Nat2Z.id; apply list_lookup_middle; reflexivity|].
  split; [apply lookup_insert_eq|].
  intros Hextra. unfold build_metadata.
  assert (({[ "face_id" := VStr face_id; "person_name" := VStr person_name;
              "index_position" := VInt (Z.of_nat (length (xb (index st)))) ]}
           : record) !! "index_position"
          = Some (VInt (Z.of_nat (length (xb (index st)))))) as Hbase.
  { rewrite lookup_insert_ne by discriminate.
    rewrite lookup_insert_ne by discriminate.
    apply lookup_insert_eq. }
  destruct extra as [m|]; [|exact Hbase].
  destruct (decide (m = ∅)); [exact Hbase|].
  rewrite lookup_union_r by (apply Hextra; reflexivity). exact Hbase.
Qed.

Lemma add_position_is_old_count_witness :
  ∃ st' dk',
    add_face_encoding fresh empty_disk io_ok e1 "alice_0" "alice" None
    = (true, st', dk')
    ∧ ntotal (index st') = ntotal (index fresh) + 1
    ∧ xb (index st') !! Z.to_nat (ntotal (index fresh)) = Some (normalize e1)
    ∧ metadata st' !! str (ntotal (index fresh))
      = Some (build_metadata "alice_0" "alice" (ntotal (index fresh)) None)
    ∧ ((∀ m, (None : option record) = Some m → m !! "index_position" = None) →
       build_metadata "alice_0" "alice" (ntotal (index fresh)) None
         !! "index_position"
       = Some (VInt (ntotal (index fresh)))).
Proof.
  eexists _, _. split.
  - apply (add_face_encoding_ok fresh empty_disk io_ok e1 "alice_0" "alice" None);
      reflexivity.
  - eapply (add_position_is_old_count fresh empty_disk io_ok e1
              "alice_0" "alice" None).
    apply (add_face_encoding_ok fresh empty_disk io_ok e1 "alice_0" "alice" None);
      reflexivity.
Defined.

(** C5 (as stated) fails on the first add to an empty index: the call
    returns the boolean [True], which as an integer is 1, while the new
    vector sits at position 0, the count before the insertion. *)
Lemma add_returns_true_not_position :
  let '(ret, st', _) :=
    add_face_encoding fresh empty_disk io_ok e1 "alice_0" "alice" None in
  ret = true
  ∧ ntotal (index fresh) = 0
  ∧ xb (index st') !! 0%nat = Some e1
  ∧ as_int ret ≠ ntotal (index fresh).
Proof.
  rewrite add_face_encoding_ok by reflexivity.
  cbv zeta. rewrite normalize_e1.
  repeat split. discriminate.
Qed.

Lemma load_after_save st dk :
  _initialize_index (_save_index st dk io_ok) = (index st, metadata st).
Proof. reflexivity. Qed.

Lemma step_disk_mirrors st dk hist o :
  op_io o = io_ok →
  _initialize_index dk = (index st, metadata st) →
  let '(st', dk', _) := step (st, dk, hist) o in
  _initialize_index dk' = (index st', metadata st').
Proof.
  intros Hio Hm. destruct o as [io e fid pn extra | io]; simpl in Hio; subst io.
  - unfold step.
    destruct (add_face_encoding_cases st dk io_ok e fid pn extra)
      as [[_ ->] | (_ & _ & ->)]; [exact Hm | apply load_after_save].
  - unfold step, clear_index. apply load_after_save.
Qed.

Lemma run_disk_mirrors ops st dk hist :
  Forall (λ o, op_io o = io_ok) ops →
  _initialize_index dk = (index st, metadata st) →
  let '(st', dk', _) := run (st, dk, hist) ops in
  _initialize_index dk' = (index st', metadata st').
Proof.
  revert st dk hist. induction ops as [|o ops IH]; intros st dk hist Hio Hm.
  - exact Hm.
  - apply Forall_cons in Hio as [Ho Hio]. rewrite run_cons.
    pose proof (step_disk_mirrors st dk hist o Ho Hm) as Hstep.
    destruct (step (st, dk, hist) o) as [[st1 dk1] hist1].
    apply IH; assumption.
Qed.

(** C6.  Loading what a successful save wrote gives back the same index
    (same vectors at the same positions) and the same record store (same
    records under the same keys), whatever was on the disk before.  As
    every add and clear saves, the disk keeps mirroring the manager along
    any run whose writes succeed: a restart at any point reloads exactly
    the state in memory. *)
Theorem save_load_roundtrip (st : FAISSManager) (dk : disk) :
  _initialize_index (_save_index st dk io_ok) = (index st, metadata st)
  ∧ index (FAISSManager_init (_save_index st dk io_ok)) = index st
  ∧ metadata (FAISSManager_init (_save_index st dk io_ok)) = metadata st
  ∧ (∀ i, xb (index (FAISSManager_init (_save_index st dk io_ok))) !! i
          = xb (index st) !! i)
  ∧ (∀ i, metadata (FAISSManager_init (_save_index st dk io_ok)) !! str i
          = metadata st !! str i)
  ∧ (∀ hist ops,
       Forall (λ o, op_io o = io_ok) ops →
       let '(st', dk', _) :=
         run (st, _save_index st dk io_ok, hist) ops in
       _initialize_index dk' = (index st', metadata st')).
Proof.
  repeat (split; [reflexivity|]).
  intros hist ops Hio. apply run_disk_mirrors; [exact Hio | apply load_after_save].
Qed.

Lemma save_load_roundtrip_witness :
  Forall (λ o, op_io o = io_ok) [ OpAdd io_ok e1 "alice_0" "alice" None ]
  ∧ let '(st', dk', _) :=
      run (fresh, _save_index fresh empty_disk io_ok, [])
          [ OpAdd io_ok e1 "alice_0" "alice" None ] in
    _initialize_index dk' = (index st', metadata st').
Proof.
  assert (Forall (λ o, op_io o = io_ok)
            [ OpAdd io_ok e1 "alice_0" "alice" None ]) as Hio
    by (repeat constructor).
  split; [exact Hio|].
  destruct (save_load_roundtrip fresh empty_disk) as (_ & _ & _ & _ & _ & Hrun).
  apply (Hrun [] [ OpAdd io_ok e1 "alice_0" "alice" None ] Hio).
Defined.

(* ===================================================================== *)
(** * The claims about the encoder *)

Lemma length_fit_128 features : length (fit_128 features) = 128%nat.
Proof.
  unfold fit_128.
  destruct (decide (128 < length features)%nat) as [Hgt|Hle].
  - rewrite length_take. lia.
  - destruct (decide (length features < 128)%nat) as [Hlt|Hge].
    + rewrite length_app, length_replicate. lia.
    + lia.
Qed.

Lemma length_compute_hog_features g : length (_compute_hog_features g) = 128%nat.
Proof.
  unfold _compute_hog_features, reals. rewrite length_map. apply length_fit_128.
Qed.

Lemma fmap_const_replicate {A B} (c : B) (l : list A) :
  (λ _, c) <$> l = replicate (length l) c.
Proof. induction l as [|x l IH]; simpl; [reflexivity|]. f_equal. exact IH. Qed.

Lemma normalize_zero_sum rs :
  Rsum_squares rs = 0%R → normalize (reals rs) = replicate (length rs) NaN.
Proof.
  intros Hs. rewrite normalize_degenerate.
  - etransitivity; [exact (fmap_const_replicate NaN (reals rs))|].
    unfold reals. rewrite length_map. reflexivity.
  - left. unfold linalg_norm. rewrite sum_squares_reals, Hs. simpl.
    rewrite sqrt_0. reflexivity.
Qed.

Lemma length_concat_fmap_const {A B} (f : A → list B) (c : nat) (l : list A) :
  (∀ x, length (f x) = c) → length (concat (map f l)) = (length l * c)%nat.
Proof.
  intros Hf. induction l as [|x l IH]; simpl; [reflexivity|].
  rewrite length_app, Hf, IH. reflexivity.
Qed.

Lemma length_np_histogram a weights : length (np_histogram a weights) = 9%nat.
Proof. unfold np_histogram. rewrite length_map. reflexivity. Qed.

(** Nine numbers per cell, for every whole cell of the image. *)
Lemma length_cell_features g :
  length (cell_features g)
  = (shape0 g / cell_size * (shape1 g / cell_size * 9))%nat.
Proof.
  unfold cell_features.
  rewrite (length_concat_fmap_const _ (shape1 g / cell_size * 9)), length_seq;
    [reflexivity|].
  intros i. rewrite (length_concat_fmap_const _ 9), length_seq; [reflexivity|].
  intros j. apply length_np_histogram.
Qed.

Lemma compute_hog_features_cases (g : gray_image) :
  _compute_hog_features g
  = reals (if decide (128 ≤ length (cell_features g))%nat
           then take 128 (cell_features g)
           else cell_features g
                ++ replicate (128 - length (cell_features g)) 0%R).
Proof.
  unfold _compute_hog_features, fit_128. f_equal.
  destruct (decide (128 < _)%nat) as [Hgt|Hle].
  - destruct (decide (128 ≤ _)%nat) as [_|E]; [reflexivity | lia].
  - destruct (decide (_ < 128)%nat) as [Hlt|Hge].
    + destruct (decide (128 ≤ _)%nat) as [E|_]; [lia | reflexivity].
    + destruct (decide (128 ≤ _)%nat) as [_|E]; [|lia].
      rewrite take_ge by lia. reflexivity.
Qed.

Section EncoderProperties.

Variable interp : image → nat → nat → rgb.
Variable luma : rgb → Z.

(** The canonical face is 128 x 128: 64 cells, 576 numbers, so it is always
    the truncation that brings the features to 128. *)
Lemma length_canonical_features region :
  length (cell_features (cv2_cvtColor_RGB2GRAY luma (cv2_resize interp region)))
  = 576%nat.
Proof. rewrite length_cell_features. reflexivity. Qed.

(** C3 (as amended).  For a face region that is not empty the encoder
    returns an encoding of exactly 128 elements: the concatenated cell
    histograms brought to 128 numbers (on the 128 x 128 canonical face
    there are 576, so they are truncated; [fit_128] pads a shorter list
    with zeros), each divided by the norm of the 128.  Its norm is 1 when
    the 128 numbers are not all zero; when they are all zero the encoding
    is 128 times [nan]. *)
Theorem generate_face_encoding_128_unit
    (img : image) (face_bbox : bounding_box) :
  array_size 3 (face_region_of img face_bbox) ≠ 0%nat →
  let features := features_of interp luma img face_bbox in
  length features = 128%nat
  ∧ features
    = take 128 (cell_features
                  (cv2_cvtColor_RGB2GRAY luma
                     (cv2_resize interp (face_region_of img face_bbox))))
  ∧ generate_face_encoding interp luma img face_bbox
    = Some (normalize (reals features))
  ∧ length (normalize (reals features)) = 128%nat
  ∧ (Rsum_squares features ≠ 0%R →
     normalize (reals features)
     = reals (map (λ r, (r / sqrt (Rsum_squares features))%R) features)
     ∧ linalg_norm (normalize (reals features)) = Fin 1)
  ∧ (Rsum_squares features = 0%R →
     normalize (reals features) = replicate 128 NaN)
  ∧ (∀ g : gray_image,
       _compute_hog_features g
       = reals (if decide (128 ≤ length (cell_features g))%nat
                then take 128 (cell_features g)
                else cell_features g
                     ++ replicate (128 - length (cell_features g)) 0%R)).
Proof.
  intros Hsize features.
  assert (length features = 128%nat) as Hlen by apply length_fit_128.
  split; [exact Hlen|].
  split; [|split; [|split; [|split; [|split; [|apply compute_hog_features_cases]]]]].
  - subst features. unfold features_of, fit_128.
    rewrite length_canonical_features.
    destruct (decide (128 < 576)%nat) as [_|E]; [reflexivity | lia].
  - unfold generate_face_encoding.
    destruct (decide _) as [E|_]; [contradiction|]. reflexivity.
  - rewrite length_normalize. unfold reals. rewrite length_map. exact Hlen.
  - intros Hs. apply normalize_reals, Hs.
  - intros Hs. rewrite normalize_zero_sum by exact Hs. rewrite Hlen. reflexivity.
Qed.

Lemma generate_face_encoding_empty_region img face_bbox :
  array_size 3 (face_region_of img face_bbox) = 0%nat →
  generate_face_encoding interp luma img face_bbox = None.
Proof.
  intros H. unfold generate_face_encoding.
  destruct (decide _) as [_|E]; [reflexivity | contradiction].
Qed.

End EncoderProperties.

(** ** A face region of one colour

    On a grey image that is zero everywhere the gradients, the magnitudes
    and with them every weighted histogram are zero. *)

Lemma nth_Forall {A} (P : A → Prop) (l : list A) (n : nat) (dflt : A) :
  Forall P l → P dflt → P (nth n l dflt).
Proof.
  intros Hl Hd. revert n. induction Hl as [|x l Hx Hl IH]; intros [|n]; simpl; auto.
Qed.

Lemma pixel_at_zero (g : gray_image) i j :
  Forall (Forall (λ z : Z, z = 0)) g → pixel_at g i j = 0%R.
Proof.
  intros Hg. unfold pixel_at. f_equal.
  apply (nth_Forall (λ z : Z, z = 0)); [|reflexivity].
  apply (nth_Forall (Forall (λ z : Z, z = 0))); [exact Hg | constructor].
Qed.

Lemma Forall2d_tabulate_like {A B} (P : B → Prop) (g : list (list A)) f :
  (∀ i j, P (f i j)) → Forall (Forall P) (tabulate_like g f).
Proof.
  intros Hf. unfold tabulate_like.
  apply Forall_lookup. intros i row Hrow.
  rewrite list_lookup_imap in Hrow.
  destruct (g !! i) as [r|]; [|discriminate]. injection Hrow as <-.
  apply Forall_lookup. intros j x Hx.
  rewrite list_lookup_imap in Hx.
  destruct (r !! j); [|discriminate]. injection Hx as <-. apply Hf.
Qed.

Lemma cv2_Sobel_zero (g : gray_image) dx dy :
  Forall (Forall (λ z : Z, z = 0)) g →
  Forall (Forall (λ r : R, r = 0%R)) (cv2_Sobel g dx dy).
Proof.
  intros Hg.
  assert (∀ i j, Sobel_dx g i j = 0%R) as Hx.
  { intros i j. unfold Sobel_dx. rewrite !pixel_at_zero by exact Hg. ring. }
  assert (∀ i j, Sobel_dy g i j = 0%R) as Hy.
  { intros i j. unfold Sobel_dy. rewrite !pixel_at_zero by exact Hg. ring. }
  unfold cv2_Sobel.
  destruct dx as [|[|dx]]; try (apply Forall2d_tabulate_like; exact Hy).
  destruct dy; apply Forall2d_tabulate_like; assumption.
Qed.

Lemma Forall_zip_with {A B C} (P : A → Prop) (Q : B → Prop) (S : C → Prop)
    (f : A → B → C) (a : list A) (b : list B) :
  (∀ x y, P x → Q y → S (f x y)) →
  Forall P a → Forall Q b → Forall S (zip_with f a b).
Proof.
  intros Hf Ha. revert b. induction Ha as [|x a Hx Ha IH]; intros b Hb;
    [constructor|].
  destruct Hb as [|y b Hy Hb]; simpl; [constructor|].
  constructor; [apply Hf; assumption | apply IH; exact Hb].
Qed.

Lemma Forall_py_slice {A} (P : A → Prop) start stop (l : list A) :
  Forall P l → Forall P (py_slice start stop l).
Proof. intros H. unfold py_slice. apply Forall_take, Forall_drop, H. Qed.

Lemma Forall2d_slice2 {A} (P : A → Prop) r0 r1 c0 c1 (a : list (list A)) :
  Forall (Forall P) a → Forall (Forall P) (slice2 r0 r1 c0 c1 a).
Proof.
  intros H. unfold slice2. apply Forall_fmap.
  eapply Forall_impl; [apply Forall_py_slice, H|].
  intros row Hrow. simpl. apply Forall_py_slice, Hrow.
Qed.

Lemma Forall_concat_2d {A} (P : A → Prop) (a : list (list A)) :
  Forall (Forall P) a → Forall P (concat a).
Proof.
  induction 1 as [|row a Hrow Ha IH]; simpl; [constructor|].
  apply Forall_app. split; assumption.
Qed.

Lemma weighted_count_zero b (a weights : list R) :
  Forall (λ r : R, r = 0%R) weights → weighted_count b (zip a weights) = 0%R.
Proof.
  intros Hw. revert a. induction Hw as [|w0 weights Hw0 Hw IH]; intros a.
  - destruct a; reflexivity.
  - destruct a as [|a0 a]; [reflexivity|].
    change (zip (a0 :: a) (w0 :: weights)) with ((a0, w0) :: zip a weights).
    unfold weighted_count in *. cbn [foldr]. rewrite IH, Hw0. simpl.
    destruct (in_bin b a0); ring.
Qed.

Lemma np_histogram_zero (a weights : list R) :
  Forall (λ r : R, r = 0%R) weights →
  Forall (λ r : R, r = 0%R) (np_histogram a weights).
Proof.
  intros Hw. unfold np_histogram. apply Forall_fmap, Forall_forall.
  intros b _. simpl. apply weighted_count_zero, Hw.
Qed.

Lemma cell_features_zero (g : gray_image) :
  Forall (Forall (λ z : Z, z = 0)) g →
  Forall (λ r : R, r = 0%R) (cell_features g).
Proof.
  intros Hg. unfold cell_features.
  apply Forall_concat_2d, Forall_fmap, Forall_forall. intros i _. simpl.
  apply Forall_concat_2d, Forall_fmap, Forall_forall. intros j _. simpl.
  unfold cell_histogram. apply np_histogram_zero.
  apply Forall_concat_2d, Forall2d_slice2.
  unfold map2_2d.
  apply (Forall_zip_with (Forall (λ r : R, r = 0%R)) (Forall (λ r : R, r = 0%R)));
    [|exact (cv2_Sobel_zero g 1 0 Hg) | exact (cv2_Sobel_zero g 0 1 Hg)].
  intros rx ry Hrx Hry.
  apply (Forall_zip_with (λ r : R, r = 0%R) (λ r : R, r = 0%R));
    [|exact Hrx | exact Hry].
  intros x y -> ->. rewrite Rmult_0_l, Rplus_0_l. apply sqrt_0.
Qed.

Lemma Forall_eq_replicate {A} (c : A) (l : list A) :
  Forall (λ x, x = c) l → l = replicate (length l) c.
Proof. induction 1 as [|x l -> _ IH]; simpl; [reflexivity|]. f_equal. exact IH. Qed.

Lemma fit_128_zero (features : list R) :
  Forall (λ r : R, r = 0%R) features → fit_128 features = replicate 128 0%R.
Proof.
  intros H.
  assert (Forall (λ r : R, r = 0%R) (fit_128 features)) as H'.
  { unfold fit_128. destruct (decide _); [apply Forall_take, H|].
    destruct (decide _); [|exact H].
    apply Forall_app. split; [exact H|]. apply Forall_replicate. reflexivity. }
  apply Forall_eq_replicate in H'. rewrite length_fit_128 in H'. exact H'.
Qed.

Lemma compute_hog_features_zero (g : gray_image) :
  Forall (Forall (λ z : Z, z = 0)) g → _compute_hog_features g = zero_vec.
Proof.
  intros Hg. unfold _compute_hog_features, zero_vec.
  rewrite fit_128_zero by (apply cell_features_zero, Hg). reflexivity.
Qed.

Lemma black_face_gray :
  cv2_cvtColor_RGB2GRAY luma_fixed
    (cv2_resize interp_nearest (face_region_of black_image box_inside))
  = replicate 128 (replicate 128 0).
Proof. vm_compute. reflexivity. Qed.

Lemma black_region_not_empty :
  array_size 3 (face_region_of black_image box_inside) ≠ 0%nat.
Proof. vm_compute. discriminate. Qed.

Lemma black_region_encoding :
  generate_face_encoding interp_nearest luma_fixed black_image box_inside
  = Some (replicate 128 NaN).
Proof.
  unfold generate_face_encoding.
  destruct (decide _) as [E|_]; [exfalso; exact (black_region_not_empty E)|].
  rewrite black_face_gray, compute_hog_features_zero, normalize_zero_vec;
    [reflexivity|].
  apply Forall_replicate, Forall_replicate. reflexivity.
Qed.

(** C3 (as stated) fails on a face region of one colour.  The black image
    with a box on it is a valid input (the region is not empty); the
    encoder returns an encoding of 128 elements, all [nan], and its norm is
    not 1. *)
Lemma encoding_of_flat_region_is_nan :
  array_size 3 (face_region_of black_image box_inside) ≠ 0%nat
  ∧ generate_face_encoding interp_nearest luma_fixed black_image box_inside
    = Some (replicate 128 NaN)
  ∧ linalg_norm (replicate 128 NaN) = NaN
  ∧ linalg_norm (replicate 128 NaN) ≠ Fin 1.
Proof.
  split; [exact black_region_not_empty|].
  split; [exact black_region_encoding|].
  split; [reflexivity | discriminate].
Qed.

Lemma generate_face_encoding_128_unit_witness :
  array_size 3 (face_region_of black_image box_inside) ≠ 0%nat
  ∧ let features := features_of interp_nearest luma_fixed black_image box_inside in
    length features = 128%nat
    ∧ features
      = take 128 (cell_features
                    (cv2_cvtColor_RGB2GRAY luma_fixed
                       (cv2_resize interp_nearest
                          (face_region_of black_image box_inside))))
    ∧ generate_face_encoding interp_nearest luma_fixed black_image box_inside
      = Some (normalize (reals features))
    ∧ length (normalize (reals features)) = 128%nat
    ∧ (Rsum_squares features ≠ 0%R →
       normalize (reals features)
       = reals (map (λ r, (r / sqrt (Rsum_squares features))%R) features)
       ∧ linalg_norm (normalize (reals features)) = Fin 1)
    ∧ (Rsum_squares features = 0%R →
       normalize (reals features) = replicate 128 NaN)
    ∧ (∀ g : gray_image,
         _compute_hog_features g
         = reals (if decide (128 ≤ length (cell_features g))%nat
                  then take 128 (cell_features g)
                  else cell_features g
                       ++ replicate (128 - length (cell_features g)) 0%R)).
Proof.
  split; [exact black_region_not_empty|].
  apply (generate_face_encoding_128_unit interp_nearest luma_fixed
           black_image box_inside black_region_not_empty).
Defined.

(* ===================================================================== *)
(** * The claim about recognition *)

Lemma omap_cons_option_list {A B} (f : A → option B) x l :
  omap f (x :: l) = option_list (f x) ++ omap f l.
Proof. cbn [omap list_omap]. destruct (f x); reflexivity. Qed.

Section RecognitionProperties.

Variable interp : image → nat → nat → rgb.
Variable luma : rgb → Z.
Variable preprocess_image : list Byte.byte → option image.
Variable face_detection_process : image → option (list mp_detection).

(** The detection ids are the positions in the list. *)
Lemma detect_step_ids img detections acc :
  det_detection_id <$> acc = Z.of_nat <$> seq 0 (length acc) →
  det_detection_id <$> foldl (detect_step img) acc detections
  = Z.of_nat <$> seq 0 (length acc + length detections).
Proof.
  revert acc. induction detections as [|det detections IH]; intros acc Hacc.
  - simpl. rewrite Nat.add_0_r. exact Hacc.
  - assert (length (detect_step img acc det) = S (length acc)) as Hlen.
    { unfold detect_step. rewrite length_app. simpl. lia. }
    cbn [foldl]. rewrite IH.
    + rewrite Hlen.
      replace (S (length acc) + length detections)%nat
        with (length acc + length (det :: detections))%nat by (simpl; lia).
      reflexivity.
    + rewrite Hlen. unfold detect_step. rewrite fmap_app, Hacc.
      replace (S (length acc)) with (length acc + 1)%nat by lia.
      rewrite seq_app, fmap_app. reflexivity.
Qed.

Lemma detect_faces_ids img detected_faces i face :
  detect_faces face_detection_process img = Some detected_faces →
  detected_faces !! i = Some face → det_detection_id face = Z.of_nat i.
Proof.
  unfold detect_faces.
  destruct (face_detection_process img) as [detections|]; [|discriminate].
  intros H Hi. injection H as <-.
  pose proof (detect_step_ids img detections [] eq_refl) as Hids.
  assert ((det_detection_id <$> foldl (detect_step img) [] detections) !! i
          = Some (det_detection_id face)) as Hl
    by (rewrite list_lookup_fmap, Hi; reflexivity).
  rewrite Hids in Hl.
  apply list_lookup_fmap_Some in Hl as (n & Heq & Hn).
  apply lookup_seq in Hn as [-> _]. exact Heq.
Qed.

Lemma recognize_step_eq st img processed log face :
  recognize_step interp luma st img (processed, log) face
  = (processed ++ option_list (face_outcome interp luma st img face),
     log ++ option_list (face_warning interp luma img face)).
Proof.
  unfold recognize_step, face_outcome, face_warning.
  destruct (generate_face_encoding interp luma img (det_bounding_box face));
    simpl; rewrite ?app_nil_r; reflexivity.
Qed.

Lemma recognize_loop_from st img faces processed log :
  foldl (recognize_step interp luma st img) (processed, log) faces
  = (processed ++ omap (face_outcome interp luma st img) faces,
     log ++ omap (face_warning interp luma img) faces).
Proof.
  revert processed log. induction faces as [|face faces IH]; intros processed log.
  - simpl. rewrite !app_nil_r. reflexivity.
  - cbn [foldl]. rewrite recognize_step_eq, IH, !omap_cons_option_list.
    rewrite <- !app_assoc. reflexivity.
Qed.

Lemma recognize_loop_eq st img faces :
  recognize_loop interp luma st img faces
  = (omap (face_outcome interp luma st img) faces,
     omap (face_warning interp luma img) faces).
Proof. unfold recognize_loop. rewrite recognize_loop_from. reflexivity. Qed.

Lemma face_outcome_Some st img face pf :
  face_outcome interp luma st img face = Some pf →
  pf_detection_id pf = det_detection_id face
  ∧ is_Some (generate_face_encoding interp luma img (det_bounding_box face)).
Proof.
  unfold face_outcome.
  destruct (generate_face_encoding interp luma img (det_bounding_box face))
    as [encoding|]; [|discriminate].
  intros H. injection H as <-. split; [|eexists; reflexivity].
  unfold recognized_face. destruct (get_best_match st encoding); reflexivity.
Qed.

(** C9.  The loop over the detections gives each detection its own
    outcome: the returned faces are the outcomes of the detections whose
    encoding succeeds, in detection order, each computed from that
    detection alone.  A detection whose encoding fails is left out of the
    faces and recorded by one warning that carries its detection id, and
    the detections before and after it are processed as if it were not
    there.  Whenever the image could be read and faces were detected the
    request succeeds and reports how many faces were detected and how many
    processed; the faces carry their detection ids, so the response has a
    face with id [i] exactly when the [i]-th detection could be encoded. *)
Theorem recognition_isolates_face_failures
    (st : FAISSManager) (img : image) (detected_faces : list detection) :
  recognize_loop interp luma st img detected_faces
  = (omap (face_outcome interp luma st img) detected_faces,
     omap (face_warning interp luma img) detected_faces)
  ∧ (∀ before bad after,
       detected_faces = before ++ bad :: after →
       generate_face_encoding interp luma img (det_bounding_box bad) = None →
       recognize_loop interp luma st img detected_faces
       = ((recognize_loop interp luma st img before).1
            ++ (recognize_loop interp luma st img after).1,
          (recognize_loop interp luma st img before).2
            ++ Warning_failed_face (det_detection_id bad)
            :: (recognize_loop interp luma st img after).2))
  ∧ (∀ image_data,
       preprocess_image image_data = Some img →
       detect_faces face_detection_process img = Some detected_faces →
       detected_faces ≠ [] →
       process_image_for_recognition interp luma preprocess_image
         face_detection_process st image_data
       = (Processed (recognize_loop interp luma st img detected_faces).1
            (length detected_faces)
            (length (recognize_loop interp luma st img detected_faces).1),
          (recognize_loop interp luma st img detected_faces).2)
       ∧ ∀ i : nat,
           (∃ pf, pf ∈ (recognize_loop interp luma st img detected_faces).1
                  ∧ pf_detection_id pf = Z.of_nat i)
           ↔ (∃ face, detected_faces !! i = Some face
                      ∧ is_Some (generate_face_encoding interp luma img
                                   (det_bounding_box face)))).
Proof.
  split; [apply recognize_loop_eq|]. split.
  - intros before bad after -> Hbad.
    assert (face_outcome interp luma st img bad = None) as Hout
      by (unfold face_outcome; rewrite Hbad; reflexivity).
    assert (face_warning interp luma img bad
            = Some (Warning_failed_face (det_detection_id bad))) as Hwarn
      by (unfold face_warning; rewrite Hbad; reflexivity).
    rewrite !recognize_loop_eq. cbn [fst snd].
    rewrite !omap_app, !omap_cons_option_list, Hout, Hwarn. reflexivity.
  - intros image_data Hpre Hdet Hne. split.
    + unfold process_image_for_recognition. rewrite Hpre, Hdet.
      destruct detected_faces as [|face faces]; [contradiction|].
      destruct (recognize_loop interp luma st img (face :: faces)). reflexivity.
    + intros i. rewrite recognize_loop_eq. cbn [fst]. split.
      * intros (pf & Hin & Hid).
        apply list_elem_of_omap in Hin as (face & Hface & Hout).
        apply face_outcome_Some in Hout as [Hpf Hsome].
        apply list_elem_of_lookup in Hface as [j Hj].
        pose proof (detect_faces_ids img detected_faces j face Hdet Hj) as Hidj.
        assert (j = i) as -> by lia.
        exists face. split; assumption.
      * intros (face & Hi & [encoding Henc]).
        exists (recognized_face st face encoding). split.
        -- apply list_elem_of_omap. exists face.
           split; [eapply list_elem_of_lookup_2, Hi|].
           unfold face_outcome. rewrite Henc. reflexivity.
        -- rewrite <- (detect_faces_ids img detected_faces i face Hdet Hi).
           unfold recognized_face.
           destruct (get_best_match st encoding); reflexivity.
Qed.

End RecognitionProperties.

(** ** A request with one face that cannot be encoded *)

Lemma py_int_IZR z : py_int (IZR z) = z.
Proof.
  assert (∀ y, Int_part (IZR y) = y) as Hint.
  { intros y. symmetry. apply Int_part_spec. lra. }
  unfold py_int. destruct (decide _); [apply Hint|].
  rewrite <- opp_IZR, Hint. lia.
Qed.

Lemma detect_sample_faces :
  detect_faces (λ _, Some sample_detections) black_image = Some sample_faces.
Proof.
  unfold detect_faces, sample_detections, sample_faces. cbn [foldl].
  unfold detect_step. cbn [rel_xmin rel_ymin rel_width rel_height score].
  change (Z.of_nat (shape0 black_image)) with 1.
  change (Z.of_nat (shape1 black_image)) with 1.
  rewrite !Rmult_1_r, !py_int_IZR. reflexivity.
Qed.

Lemma box_outside_fails :
  generate_face_encoding interp_nearest luma_fixed black_image box_outside = None.
Proof. apply generate_face_encoding_empty_region. vm_compute. reflexivity. Qed.

Lemma search_nan_query k :
  search_similar_faces one_face (replicate 128 NaN) k = [].
Proof.
  rewrite search_similar_faces_unfold.
  destruct (decide _); [reflexivity|].
  destruct (faiss_answer_candidates one_face (replicate 128 NaN) k) as [m ->].
  rewrite collect_results_app, collect_results_unfilled, app_nil_r.
  destruct (candidates_cases one_face (replicate 128 NaN) k)
    as [-> | (q & Hq & ->)]; [reflexivity|].
  assert (q = replicate 128 NaN) as ->.
  { unfold reshape in Hq. destruct (decide _); [congruence | discriminate]. }
  assert (normalize (replicate 128 NaN) = replicate 128 NaN) as ->.
  { rewrite normalize_degenerate by (right; reflexivity).
    apply fmap_replicate. }
  unfold best_hits. rewrite one_face_eq. cbn [xb index].
  assert (scan (replicate 128 NaN) 0 [e1] = []) as -> by reflexivity.
  cbn [sort_hits foldr]. rewrite take_nil. reflexivity.
Qed.

(** The response for [sample_detections]: the face off the image is
    reported by a warning, the other face is processed (and not recognised,
    its region being flat), and the request succeeds with 2 detected,
    1 processed. *)
Example recognition_of_sample_faces :
  process_image_for_recognition interp_nearest luma_fixed
    (λ _, Some black_image) (λ _, Some sample_detections) one_face []
  = (Processed
       [ mkFace (replicate 128 NaN) (8 / 10)%R box_inside 1
                (VStr "Unknown") 0%R false [] ]
       2 1,
     [ Warning_failed_face 0 ]).
Proof.
  unfold process_image_for_recognition.
  rewrite detect_sample_faces. unfold sample_faces.
  rewrite recognize_loop_eq. rewrite !omap_cons_option_list.
  unfold face_outcome, face_warning. cbn [det_bounding_box det_detection_id].
  rewrite box_outside_fails, black_region_encoding. cbn [omap list_omap].
  simpl. unfold recognized_face, get_best_match.
  rewrite !search_nan_query. reflexivity.
Qed.

Lemma recognition_isolates_face_failures_witness :
  generate_face_encoding interp_nearest luma_fixed black_image box_outside = None
  ∧ recognize_loop interp_nearest luma_fixed one_face black_image sample_faces
    = ((recognize_loop interp_nearest luma_fixed one_face black_image []).1
         ++ (recognize_loop interp_nearest luma_fixed one_face black_image
               [ mkDetection box_inside (8 / 10)%R 1 ]).1,
       (recognize_loop interp_nearest luma_fixed one_face black_image []).2
         ++ Warning_failed_face 0
         :: (recognize_loop interp_nearest luma_fixed one_face black_image
               [ mkDetection box_inside (8 / 10)%R 1 ]).2)
  ∧ process_image_for_recognition interp_nearest luma_fixed
      (λ _, Some black_image) (λ _, Some sample_detections) one_face []
    = (Processed
         (recognize_loop interp_nearest luma_fixed one_face black_image
            sample_faces).1
         (length sample_faces)
         (length (recognize_loop interp_nearest luma_fixed one_face black_image
                    sample_faces).1),
       (recognize_loop interp_nearest luma_fixed one_face black_image
          sample_faces).2).
Proof.
  destruct (recognition_isolates_face_failures interp_nearest luma_fixed
              (λ _, Some black_image) (λ _, Some sample_detections)
              one_face black_image sample_faces) as (_ & Hiso & Hreq).
  split; [exact box_outside_fails|]. split.
  - apply (Hiso [] (mkDetection box_outside (9 / 10)%R 0)
                [ mkDetection box_inside (8 / 10)%R 1 ]);
      [reflexivity | exact box_outside_fails].
  - apply (Hreq []); [reflexivity | exact detect_sample_faces | discriminate].
Defined.

(* ===================================================================== *)
(** * The similarity rule *)

(** ** Vectors stored by [add_face_encoding] *)

Lemma stored_by_add_new dim : stored_by_add (new_IndexFlatL2 dim).
Proof. constructor. Qed.

Lemma init_stored_by_add dk :
  disk_stored_by_add dk → stored_by_add (index (FAISSManager_init dk)).
Proof.
  unfold disk_stored_by_add, FAISSManager_init, _initialize_index.
  destruct (index_file dk) as [| |idx], (metadata_file dk) as [| |m]; simpl;
    intros H; try apply stored_by_add_new.
  exact H.
Qed.

Lemma save_stored_by_add st dk io :
  stored_by_add (index st) → disk_stored_by_add dk →
  disk_stored_by_add (_save_index st dk io).
Proof.
  intros Hst Hdk. unfold _save_index, disk_stored_by_add.
  destruct (write_index io); [|exact Hdk].
  destruct (write_metadata io); exact Hst.
Qed.

Lemma step_stored_by_add st dk hist o :
  stored_by_add (index st) → disk_stored_by_add dk →
  stored_by_add (index (step (st, dk, hist) o).1.1)
  ∧ disk_stored_by_add (step (st, dk, hist) o).1.2.
Proof.
  intros Hst Hdk. destruct o as [io e fid pn extra | io]; simpl.
  - destruct (add_face_encoding_cases st dk io e fid pn extra)
      as [[_ ->] | (Hl & _ & ->)]; simpl; [split; assumption|].
    assert (stored_by_add (mkIndex (d (index st)) (xb (index st) ++ [normalize e])))
      as Hnew.
    { unfold stored_by_add. simpl. apply Forall_app. split; [exact Hst|].
      constructor; [|constructor]. exists e. split; [exact Hl | reflexivity]. }
    split; [exact Hnew|]. apply save_stored_by_add; assumption.
  - split; [apply stored_by_add_new|].
    apply save_stored_by_add; [apply stored_by_add_new | exact Hdk].
Qed.

Lemma run_stored_by_add ops st dk hist :
  stored_by_add (index st) → disk_stored_by_add dk →
  stored_by_add (index (run (st, dk, hist) ops).1.1)
  ∧ disk_stored_by_add (run (st, dk, hist) ops).1.2.
Proof.
  revert st dk hist. induction ops as [|o ops IH]; intros st dk hist Hst Hdk.
  - split; assumption.
  - rewrite run_cons.
    destruct (step_stored_by_add st dk hist o Hst Hdk) as [Hst' Hdk'].
    destruct (step (st, dk, hist) o) as [[st1 dk1] hist1].
    apply IH; assumption.
Qed.

(** ** Finite distances come from finite vectors *)

Lemma fvec_L2sqr_finite (a b : vec) (dis : R) :
  fvec_L2sqr a b = Fin dis → length a = length b →
  ∃ ra rb, a = reals ra ∧ b = reals rb.
Proof.
  revert b dis. induction a as [|x a IH]; intros [|y b] dis H Hlen;
    try discriminate Hlen.
  - exists [], []. split; reflexivity.
  - cbn [fvec_L2sqr] in H.
    destruct x as [|rx]; [discriminate|]. destruct y as [|ry]; [discriminate|].
    destruct (fvec_L2sqr a b) as [|dis'] eqn:Hab; [discriminate|].
    simpl in Hlen. injection Hlen as Hlen.
    destruct (IH b dis' Hab Hlen) as (ra & rb & -> & ->).
    exists (rx :: ra), (ry :: rb). split; reflexivity.
Qed.

(** A normalised vector that is finite is a finite vector of non-zero
    norm divided by that norm: it has length 1. *)
Lemma normalize_finite (v : vec) (rs' : list R) :
  normalize v = reals rs' → v ≠ [] →
  ∃ rs, v = reals rs ∧ Rsum_squares rs ≠ 0%R
        ∧ normalize v = reals (map (λ r, (r / sqrt (Rsum_squares rs))%R) rs)
        ∧ linalg_norm (normalize v) = Fin 1.
Proof.
  intros Hfin Hne.
  assert (¬ (linalg_norm v = Fin 0 ∨ linalg_norm v = NaN)) as Hdeg.
  { intros Hd. rewrite (normalize_degenerate v Hd) in Hfin.
    destruct v as [|x v]; [contradiction|].
    destruct rs'; discriminate Hfin. }
  unfold linalg_norm in Hdeg.
  destruct (sum_squares v) as [|s] eqn:Hs; [exfalso; apply Hdeg; right; reflexivity|].
  destruct (sum_squares_Fin_inv _ _ Hs) as (rs & -> & ->).
  assert (Rsum_squares rs ≠ 0%R) as Hnz.
  { intros H0. apply Hdeg. left. simpl. rewrite H0, sqrt_0. reflexivity. }
  exists rs. split; [reflexivity|]. split; [exact Hnz|].
  exact (normalize_reals rs Hnz).
Qed.

Lemma candidates_unit_vectors st query_encoding k :
  stored_by_add (index st) →
  Forall (λ h : hit,
    ∃ rs x,
      query_encoding = reals rs ∧ length rs = dimension
      ∧ Rsum_squares rs ≠ 0%R
      ∧ normalize query_encoding
        = reals (map (λ r, (r / sqrt (Rsum_squares rs))%R) rs)
      ∧ linalg_norm (normalize query_encoding) = Fin 1
      ∧ xb (index st) !! Z.to_nat h.2 = Some x
      ∧ linalg_norm x = Fin 1
      ∧ fvec_L2sqr (normalize query_encoding) x = Fin h.1)
    (candidates st query_encoding k).
Proof.
  intros Hst.
  destruct (candidates_cases st query_encoding k) as [-> | (q & Hq & ->)];
    [constructor|].
  unfold reshape in Hq.
  destruct (decide (length query_encoding = dimension)) as [Hlen|];
    [|discriminate]. injection Hq as <-.
  rewrite Forall_forall. intros [dis j] Hin.
  apply best_hits_elem in Hin as [_ (x & Hx & Hd)].
  destruct (proj1 (Forall_forall _ _) Hst x (list_elem_of_lookup_2 _ _ _ Hx))
    as (v & Hv & ->).
  destruct (fvec_L2sqr_finite _ _ _ Hd) as (ra & rb & Ha & Hb).
  { rewrite !length_normalize. congruence. }
  destruct (normalize_finite query_encoding ra Ha) as (rs & -> & Hnz & Hform & Hunit).
  { intros ->. discriminate Hlen. }
  destruct (normalize_finite v rb Hb) as (_ & _ & _ & _ & Hunit').
  { intros ->. discriminate Hv. }
  exists rs, (normalize v).
  split; [reflexivity|].
  split; [unfold reals in Hlen; rewrite length_map in Hlen; exact Hlen|].
  split; [exact Hnz|]. split; [exact Hform|]. split; [exact Hunit|].
  split; [exact Hx|]. split; [exact Hunit' | exact Hd].
Qed.

(** C7. The threshold of a manager is 0.6 after construction.  Every
    candidate of a search is a stored position with the squared L2 distance
    between the normalised query and the vector stored there.  A dictionary
    is in the result exactly when it is the one built for a candidate whose
    similarity [max(0, 1 - distance)] is at least [1 - threshold]; its
    [similarity] field is that value and its [distance] field the
    candidate's distance.  On an index filled by [add_face_encoding] both
    vectors of every candidate have length 1: the query is finite, of
    non-zero norm, and is compared as [q / |q|], and the stored vector has
    norm 1.  An index is filled that way after creation or load and any
    adds and clears, whatever the outcome of the writes, when the disk at
    the start held no index or one filled that way; an empty disk does. *)
Theorem similarity_threshold_rule
    (st : FAISSManager) (query_encoding : vec) (k : nat) :
  (∀ dk, threshold (FAISSManager_init dk) = (6 / 10)%R)
  ∧ Forall (λ h : hit,
       0 ≤ h.2 < ntotal (index st) ∧
       ∃ q x, reshape query_encoding dimension = Some q
            ∧ xb (index st) !! Z.to_nat h.2 = Some x
            ∧ fvec_L2sqr (normalize q) x = Fin h.1)
     (candidates st query_encoding k)
  ∧ (∀ r, r ∈ search_similar_faces st query_encoding k ↔
          ∃ i h, candidates st query_encoding k !! i = Some h
               ∧ (Rmax 0 (1 - h.1) >= 1 - threshold st)%R
               ∧ r = result_of st (Z.of_nat i) h)
  ∧ Forall (λ r, r_similarity r = Rmax 0 (1 - r_distance r))
      (search_similar_faces st query_encoding k)
  ∧ (stored_by_add (index st) →
     Forall (λ h : hit,
       ∃ rs x,
         query_encoding = reals rs ∧ length rs = dimension
         ∧ Rsum_squares rs ≠ 0%R
         ∧ normalize query_encoding
           = reals (map (λ r, (r / sqrt (Rsum_squares rs))%R) rs)
         ∧ linalg_norm (normalize query_encoding) = Fin 1
         ∧ xb (index st) !! Z.to_nat h.2 = Some x
         ∧ linalg_norm x = Fin 1
         ∧ fvec_L2sqr (normalize query_encoding) x = Fin h.1)
       (candidates st query_encoding k))
  ∧ (∀ dk ops,
       disk_stored_by_add dk →
       stored_by_add (index (run (FAISSManager_init dk, dk, []) ops).1.1)
       ∧ disk_stored_by_add (run (FAISSManager_init dk, dk, []) ops).1.2)
  ∧ disk_stored_by_add empty_disk.
Proof.
  split; [|split; [|split; [|split; [|split; [|split]]]]].
  - intros dk. unfold FAISSManager_init.
    destruct (_initialize_index dk). reflexivity.
  - destruct (candidates_cases st query_encoding k) as [-> | (q & Hq & ->)];
      [constructor|].
    rewrite Forall_forall. intros [dis j] Hin.
    apply best_hits_elem in Hin as [Hr (x & Hx & Hd)].
    split; [exact Hr|]. exists q, x. auto.
  - destruct (search_shape st query_encoding k) as (m & Hm & -> & Hyes & Hno).
    intros r. rewrite ranked_elem. split.
    + intros (n & h & Hh & ->). exists n, h.
      assert (h ∈ take m (candidates st query_encoding k)) as Hin
        by (eapply list_elem_of_lookup_2, Hh).
      rewrite Forall_forall in Hyes. apply Hyes, accepted_true in Hin.
      apply lookup_take_Some in Hh as [Hh _].
      rewrite Z.add_0_l. auto.
    + intros (n & h & Hh & Hacc & ->). exists n, h.
      rewrite Z.add_0_l. split; [|reflexivity].
      destruct (decide (n < m)%nat) as [Hlt|Hge].
      * rewrite lookup_take_lt by exact Hlt. exact Hh.
      * exfalso. rewrite Forall_forall in Hno.
        assert (h ∈ drop m (candidates st query_encoding k)) as Hin.
        { apply list_elem_of_lookup. exists (n - m)%nat.
          rewrite lookup_drop. replace (m + (n - m))%nat with n by lia.
          exact Hh. }
        apply Hno in Hin. apply accepted_true in Hacc. congruence.
  - destruct (search_shape st query_encoding k) as (m & _ & -> & _ & _).
    rewrite Forall_forall. intros r Hin.
    apply ranked_elem in Hin as (n & h & _ & ->). reflexivity.
  - apply candidates_unit_vectors.
  - intros dk ops Hdk. apply run_stored_by_add; [|exact Hdk].
    apply init_stored_by_add, Hdk.
  - exact I.
Qed.

Lemma one_face_stored_by_add : stored_by_add (index one_face).
Proof.
  rewrite one_face_eq. unfold stored_by_add. simpl.
  constructor; [|constructor].
  exists e1. split; [reflexivity | symmetry; exact normalize_e1].
Qed.

Lemma candidates_registered_face : candidates one_face e1 1 = [(0%R, 0)].
Proof.
  rewrite one_face_eq. unfold candidates, faiss_answer, reshape. simpl index.
  destruct (decide (length e1 = dimension)) as [_|E]; [|contradiction].
  rewrite normalize_e1. unfold IndexFlatL2_search.
  destruct (decide _) as [_|E];
    [|exfalso; apply E; split; [reflexivity | simpl; lia]].
  simpl xb. unfold scan.
  pose proof (fvec_L2sqr_self (1%R :: replicate 127 0%R)) as He.
  fold e1 in He. rewrite He. simpl.
  destruct (decide (0 ≠ -1)) as [_|E]; [reflexivity|].
  exfalso. apply E. discriminate.
Qed.

Lemma similarity_threshold_rule_witness :
  stored_by_add (index one_face)
  ∧ candidates one_face e1 1 = [(0%R, 0)]
  ∧ Forall (λ h : hit,
      ∃ rs x,
        e1 = reals rs ∧ length rs = dimension
        ∧ Rsum_squares rs ≠ 0%R
        ∧ normalize e1 = reals (map (λ r, (r / sqrt (Rsum_squares rs))%R) rs)
        ∧ linalg_norm (normalize e1) = Fin 1
        ∧ xb (index one_face) !! Z.to_nat h.2 = Some x
        ∧ linalg_norm x = Fin 1
        ∧ fvec_L2sqr (normalize e1) x = Fin h.1)
      (candidates one_face e1 1).
Proof.
  split; [exact one_face_stored_by_add|].
  split; [exact candidates_registered_face|].
  destruct (similarity_threshold_rule one_face e1 1) as (_ & _ & _ & _ & Hunit & _).
  exact (Hunit one_face_stored_by_add).
Defined.

(* ===================================================================== *)
(** * Further properties of the manager *)

Lemma fvec_L2sqr_nonneg x y dis : fvec_L2sqr x y = Fin dis → (0 <= dis)%R.
Proof.
  revert y dis. induction x as [|a x IH]; intros y dis H.
  - simpl in H. injection H as <-. lra.
  - destruct y as [|b y]; [simpl in H; injection H as <-; lra|].
    cbn [fvec_L2sqr] in H.
    destruct a as [|ra], b as [|rb]; try discriminate.
    destruct (fvec_L2sqr x y) as [|rest] eqn:Hrest; [discriminate|].
    simpl in H. injection H as <-.
    pose proof (IH y rest Hrest) as Hnn.
    pose proof (Rle_0_sqr (ra - rb)) as Hsq. unfold Rsqr in Hsq. lra.
Qed.

Lemma candidates_nonneg st q k :
  Forall (λ h : hit, (0 <= h.1)%R) (candidates st q k).
Proof.
  destruct (candidates_cases st q k) as [-> | (q' & _ & ->)]; [constructor|].
  rewrite Forall_forall. intros [dis j] Hin.
  apply best_hits_elem in Hin as (_ & x & _ & Hd).
  eapply fvec_L2sqr_nonneg, Hd.
Qed.

(** Below a threshold of 1 the acceptance test is a bound on the distance;
    from 1 on it accepts everything. *)
Lemma accepted_by_distance thr dis :
  (0 <= dis)%R →
  accepted thr dis = true ↔ (1 <= thr)%R ∨ (dis <= thr)%R.
Proof.
  intros Hd. rewrite accepted_true. unfold similarity_of.
  apply Rmax_case_strong; intros Hmax; split; intros H.
  - left. lra.
  - destruct H; lra.
  - right. lra.
  - destruct H; lra.
Qed.

(** X1.  Every dictionary returned by a search has a distance that is not
    negative and a similarity between 0 and 1; when the threshold is below
    1 its distance is at most the threshold.  A candidate is accepted
    exactly when the threshold is at least 1 or its distance is at most
    the threshold. *)
Theorem search_results_in_range
    (st : FAISSManager) (query_encoding : vec) (k : nat) :
  Forall (λ r, (0 <= r_distance r)%R
               ∧ (0 <= r_similarity r <= 1)%R
               ∧ (1 - threshold st <= r_similarity r)%R
               ∧ ((threshold st < 1)%R → (r_distance r <= threshold st)%R))
    (search_similar_faces st query_encoding k)
  ∧ Forall (λ h : hit,
       accepted (threshold st) h.1 = true
       ↔ (1 <= threshold st)%R ∨ (h.1 <= threshold st)%R)
      (candidates st query_encoding k).
Proof.
  pose proof (candidates_nonneg st query_encoding k) as Hnn.
  split.
  - destruct (search_shape st query_encoding k) as (m & _ & -> & Hyes & _).
    rewrite Forall_forall. intros r Hin.
    apply ranked_elem in Hin as (n & h & Hh & ->).
    assert (h ∈ take m (candidates st query_encoding k)) as Hin
      by (eapply list_elem_of_lookup_2, Hh).
    rewrite Forall_forall in Hyes. pose proof (Hyes h Hin) as Hacc.
    assert (0 <= h.1)%R as Hd.
    { rewrite Forall_forall in Hnn. apply Hnn.
      apply lookup_take_Some in Hh as [Hh _].
      eapply list_elem_of_lookup_2, Hh. }
    pose proof (proj1 (accepted_by_distance _ _ Hd) Hacc) as Hthr.
    apply accepted_true in Hacc. cbn [result_of r_distance r_similarity].
    unfold similarity_of in *.
    repeat split.
    + exact Hd.
    + apply Rmax_l.
    + apply Rmax_lub; lra.
    + lra.
    + intros Hlt. destruct Hthr; lra.
  - eapply Forall_impl; [exact Hnn|]. intros h Hd. simpl.
    apply accepted_by_distance, Hd.
Qed.

(** ** The best match *)

Lemma head_collect_results st (l : list hit) n :
  StronglySorted hit_lt l → Forall (λ h : hit, h.2 ≠ -1) l →
  head (collect_results st 0 (l ++ replicate n unfilled))
  = h ← head l; if accepted (threshold st) h.1 then Some (result_of st 0 h) else None.
Proof.
  intros Hs Hv.
  rewrite collect_results_app, collect_results_unfilled, app_nil_r.
  destruct l as [|[dis idx] l]; [reflexivity|].
  apply Forall_cons in Hv as [Hidx Hv]. simpl in Hidx.
  rewrite collect_results_cons.
  destruct (decide (idx = -1)) as [E|_]; [contradiction|]. simpl.
  destruct (accepted (threshold st) dis) eqn:Hacc; [reflexivity|].
  rewrite collect_results_rejected; [reflexivity|].
  apply StronglySorted_inv in Hs as [_ Hh].
  rewrite Forall_forall in Hh |- *. intros h Hin.
  destruct (accepted (threshold st) h.1) eqn:Hah; [|reflexivity].
  rewrite <- Hacc. symmetry. eapply accepted_antitone; [|exact Hah].
  destruct (Hh h Hin) as [Hlt|[Heq _]]; simpl in *; lra.
Qed.

Lemma head_take_pos {A} (l : list A) n : (0 < n)%nat → head (take n l) = head l.
Proof. intros Hn. destruct n; [lia|]. destruct l; reflexivity. Qed.

(** The first dictionary of a search for at least one neighbour: the
    nearest comparable stored vector, when it passes the threshold test. *)
Lemma head_search_similar_faces st q k :
  (0 < k)%nat →
  head (search_similar_faces st q k)
  = match reshape q dimension with
    | None => None
    | Some q' =>
        if decide (length (normalize q') = d (index st)) then
          h ← head (sort_hits (scan (normalize q') 0 (xb (index st))));
          if accepted (threshold st) h.1 then Some (result_of st 0 h) else None
        else None
    end.
Proof.
  intros Hk. unfold search_similar_faces.
  destruct (decide (ntotal (index st) = 0)) as [H0|Hn0].
  - assert (xb (index st) = []) as Hxb.
    { unfold ntotal in H0. destruct (xb (index st)); [reflexivity|].
      simpl in H0. lia. }
    destruct (reshape q dimension); [|reflexivity].
    rewrite Hxb. destruct (decide _); reflexivity.
  - destruct (reshape q dimension) as [q'|]; [|reflexivity].
    unfold IndexFlatL2_search.
    assert (0 < Nat.min k (Z.to_nat (ntotal (index st))))%nat as Hk'.
    { unfold ntotal in *. lia. }
    destruct (decide (length (normalize q') = d (index st))) as [Hd|Hd].
    + destruct (decide _) as [_|E]; [|exfalso; apply E; split; assumption].
      rewrite head_collect_results.
      * rewrite head_take_pos by exact Hk'. reflexivity.
      * apply StronglySorted_take, sort_hits_sorted, scan_label_sorted.
      * apply (best_hits_valid (index st) (normalize q')).
    + destruct (decide _) as [[E _]|_]; [contradiction | reflexivity].
Qed.

Lemma get_best_match_head st q k :
  (0 < k)%nat → get_best_match st q = head (search_similar_faces st q k).
Proof.
  intros Hk. unfold get_best_match.
  rewrite (head_search_similar_faces st q 1) by lia.
  rewrite (head_search_similar_faces st q k) by exact Hk.
  reflexivity.
Qed.

(** X2.  The best match is the first dictionary of a search for any
    positive number of neighbours: [get_best_match] (a search for one)
    returns [None] exactly when such a search returns nothing, and
    otherwise its first entry, with rank 1. *)
Theorem best_match_is_first_result
    (st : FAISSManager) (query_encoding : vec) (k : nat) :
  (0 < k)%nat →
  get_best_match st query_encoding
  = head (search_similar_faces st query_encoding k)
  ∧ (get_best_match st query_encoding = None
     ↔ search_similar_faces st query_encoding k = [])
  ∧ (∀ r, get_best_match st query_encoding = Some r → r_rank r = 1).
Proof.
  intros Hk.
  pose proof (get_best_match_head st query_encoding k Hk) as Heq.
  split; [exact Heq|]. split.
  - rewrite Heq. destruct (search_similar_faces st query_encoding k);
      simpl; split; intros H; congruence.
  - intros r Hr. unfold get_best_match in Hr.
    destruct (search_shape st query_encoding 1) as (m & _ & Hs & _ & _).
    rewrite Hs in Hr.
    destruct (take m (candidates st query_encoding 1)) as [|h t];
      [discriminate|].
    simpl in Hr. injection Hr as <-. reflexivity.
Qed.

Lemma best_match_is_first_result_witness :
  (0 < 3)%nat
  ∧ get_best_match one_face e1 = head (search_similar_faces one_face e1 3)
  ∧ (get_best_match one_face e1 = None
     ↔ search_similar_faces one_face e1 3 = [])
  ∧ (∀ r, get_best_match one_face e1 = Some r → r_rank r = 1).
Proof.
  split; [lia|]. apply (best_match_is_first_result one_face e1 3). lia.
Defined.

(** ** Normalising twice *)

Lemma normalize_all_nan (l : vec) : Forall (λ x, x = NaN) l → normalize l = l.
Proof.
  intros H. unfold normalize. generalize (linalg_norm l). intros n.
  induction H as [|x l -> _ IH]; simpl; [reflexivity|]. rewrite IH. reflexivity.
Qed.

Lemma normalize_idem v : normalize (normalize v) = normalize v.
Proof.
  assert (∀ w, linalg_norm w = Fin 0 ∨ linalg_norm w = NaN →
               normalize (normalize w) = normalize w) as Hdeg.
  { intros w Hw. rewrite (normalize_degenerate w Hw).
    apply normalize_all_nan, Forall_fmap, Forall_forall. intros x _. reflexivity. }
  destruct (linalg_norm v) as [|n] eqn:Hn; [apply Hdeg; right; exact Hn|].
  destruct (Req_dec_T n 0%R) as [->|Hn0]; [apply Hdeg; left; exact Hn|].
  unfold linalg_norm in Hn.
  destruct (sum_squares v) as [|s] eqn:Hs; [discriminate|].
  simpl in Hn. injection Hn as Hn.
  destruct (sum_squares_Fin_inv _ _ Hs) as (rs & -> & ->).
  assert (Rsum_squares rs ≠ 0%R) as Hne.
  { intros E. apply Hn0. rewrite <- Hn, E. apply sqrt_0. }
  destruct (normalize_reals rs Hne) as [Hnorm Hunit].
  unfold normalize at 1. rewrite Hunit, Hnorm. unfold reals.
  rewrite <- list_fmap_compose. apply list_fmap_ext. intros _ r _. simpl.
  destruct (Req_dec_T 1 0) as [E|_]; [lra|]. f_equal. field.
Qed.

(** What the encoder returns is normalised and has 128 components. *)
Lemma generate_face_encoding_normalized interp luma img face_bbox v :
  generate_face_encoding interp luma img face_bbox = Some v →
  normalize v = v ∧ length v = dimension.
Proof.
  unfold generate_face_encoding. destruct (decide _) as [|_]; [discriminate|].
  cbv zeta.
  pose proof (length_compute_hog_features
                (cv2_cvtColor_RGB2GRAY luma
                   (cv2_resize interp (face_region_of img face_bbox)))) as Hlen.
  revert Hlen.
  generalize (_compute_hog_features
                (cv2_cvtColor_RGB2GRAY luma
                   (cv2_resize interp (face_region_of img face_bbox)))).
  intros w Hlen H. injection H as <-.
  split; [apply normalize_idem | rewrite length_normalize; exact Hlen].
Qed.

(** X3.  Normalising is idempotent.  So the normalisation that
    [add_face_encoding] applies to an encoder output changes nothing: the
    vector stored is the encoding itself, and a search gives the same
    result for a query and for the query already normalised. *)
Theorem normalisation_is_idempotent (v : vec) :
  normalize (normalize v) = normalize v
  ∧ (∀ st k, search_similar_faces st (normalize v) k
             = search_similar_faces st v k)
  ∧ (∀ interp luma img face_bbox st dk io face_id person_name extra,
       generate_face_encoding interp luma img face_bbox = Some v →
       d (index st) = dimension →
       ∃ st' dk',
         add_face_encoding st dk io v face_id person_name extra
         = (true, st', dk')
         ∧ xb (index st') = xb (index st) ++ [v]).
Proof.
  split; [apply normalize_idem|]. split.
  - intros st k. unfold search_similar_faces, reshape.
    rewrite length_normalize.
    destruct (decide _); [reflexivity|].
    destruct (decide (length v = dimension)); [|reflexivity].
    rewrite normalize_idem. reflexivity.
  - intros interp luma img face_bbox st dk io face_id person_name extra Henc Hd.
    destruct (generate_face_encoding_normalized _ _ _ _ _ Henc) as [Hnorm Hlen].
    rewrite add_face_encoding_ok by assumption. cbv zeta.
    eexists _, _. split; [reflexivity|]. cbn [index xb]. rewrite Hnorm.
    reflexivity.
Qed.

Lemma normalisation_is_idempotent_witness :
  ∃ st' dk',
    add_face_encoding fresh empty_disk io_ok (replicate 128 NaN) "flat_0" "flat" None
    = (true, st', dk')
    ∧ xb (index st') = xb (index fresh) ++ [replicate 128 NaN].
Proof.
  destruct (normalisation_is_idempotent (replicate 128 NaN)) as (_ & _ & Hadd).
  apply (Hadd interp_nearest luma_fixed black_image box_inside fresh empty_disk
              io_ok "flat_0" "flat" None black_region_encoding).
  reflexivity.
Defined.

(** ** A face that was just added is found *)

Lemma scan_app q i xs ys :
  scan q i (xs ++ ys) = scan q i xs ++ scan q (i + Z.of_nat (length xs)) ys.
Proof.
  revert i. induction xs as [|x xs IH]; intros i; simpl.
  - rewrite Z.add_0_r. reflexivity.
  - rewrite IH.
    replace (i + 1 + Z.of_nat (length xs)) with (i + Z.pos (Pos.of_succ_nat (length xs)))
      by lia.
    destruct (fvec_L2sqr q x); reflexivity.
Qed.

Lemma scan_nonneg q i xs : Forall (λ h : hit, (0 <= h.1)%R) (scan q i xs).
Proof.
  rewrite Forall_forall. intros [dis j] Hin.
  apply scan_elem in Hin as (_ & x & _ & Hd). eapply fvec_L2sqr_nonneg, Hd.
Qed.

(** The head of a sorted answer is at most as far as any hit in it. *)
Lemma head_sort_hits_min (l : list hit) (c : hit) :
  StronglySorted label_lt l → c ∈ l →
  ∃ h, head (sort_hits l) = Some h ∧ (h.1 <= c.1)%R ∧ h ∈ l
       ∧ (h.1 = c.1 → h.2 ≤ c.2).
Proof.
  intros Hl Hc.
  pose proof (sort_hits_sorted l Hl) as Hs.
  assert (c ∈ sort_hits l) as Hc' by (apply sort_hits_elem, Hc).
  destruct (sort_hits l) as [|h t] eqn:Hsort; [apply elem_of_nil in Hc'; contradiction|].
  exists h. split; [reflexivity|].
  assert (h ∈ l) as Hh by (apply sort_hits_elem; rewrite Hsort; left).
  apply StronglySorted_inv in Hs as [_ Hall].
  apply elem_of_cons in Hc' as [->|Hin].
  - repeat split; [lra | exact Hh | lia].
  - rewrite Forall_forall in Hall. destruct (Hall c Hin) as [Hlt|[Heq Hlab]].
    + repeat split; [lra | exact Hh | lra].
    + repeat split; [lra | exact Hh | lia].
Qed.

Lemma similarity_of_zero : similarity_of 0 = 1%R.
Proof. unfold similarity_of. rewrite Rminus_0_r. apply Rmax_right. lra. Qed.

Lemma build_metadata_field fid pn pos extra key :
  key = "face_id" ∨ key = "person_name" →
  build_metadata fid pn pos extra !! key
  = Some (default (if decide (key = "face_id") then VStr fid else VStr pn)
            (e ← extra; e !! key)).
Proof.
  intros Hkey.
  assert (({[ "face_id" := VStr fid; "person_name" := VStr pn;
              "index_position" := VInt pos ]} : record) !! key
          = Some (if decide (key = "face_id") then VStr fid else VStr pn)) as Hbase.
  { destruct Hkey as [-> | ->]; reflexivity. }
  unfold build_metadata. destruct extra as [e|]; simpl; [|exact Hbase].
  destruct (decide (e = ∅)) as [->|_].
  - rewrite lookup_empty. exact Hbase.
  - destruct (e !! key) as [v|] eqn:He; simpl.
    + apply lookup_union_Some_l, He.
    + rewrite lookup_union_r by exact He. exact Hbase.
Qed.

(** A query whose normalisation is the vector stored last, at distance 0
    from itself, has a best match at distance 0. *)
Lemma best_match_of_last_vector (st : FAISSManager) (xs : list vec) (nv q : vec) :
  xb (index st) = xs ++ [nv] → d (index st) = dimension →
  length q = dimension → normalize q = nv →
  fvec_L2sqr nv nv = Fin 0 → (0 <= threshold st)%R →
  ∃ h : hit,
    get_best_match st q = Some (result_of st 0 h)
    ∧ h.1 = 0%R ∧ 0 ≤ h.2 ≤ Z.of_nat (length xs).
Proof.
  intros Hxb Hd Hq Hnv Hself Hthr.
  assert ((0%R, Z.of_nat (length xs)) ∈ scan nv 0 (xs ++ [nv])) as Hin.
  { rewrite scan_app. apply elem_of_app. right. simpl. rewrite Hself.
    rewrite Z.add_0_l. left. }
  destruct (head_sort_hits_min _ _ (scan_label_sorted nv 0 (xs ++ [nv])) Hin)
    as (h & Hhead & Hle & Hh & Htie).
  assert (0 <= h.1)%R as Hnn.
  { pose proof (scan_nonneg nv 0 (xs ++ [nv])) as Hall.
    rewrite Forall_forall in Hall. apply Hall, Hh. }
  simpl in Hle. assert (h.1 = 0%R) as Hzero by lra.
  exists h. split; [|split; [exact Hzero|]].
  - unfold get_best_match. rewrite head_search_similar_faces by lia.
    unfold reshape. destruct (decide _) as [_|E]; [|contradiction].
    rewrite Hnv.
    destruct (decide (length nv = d (index st))) as [_|E];
      [|exfalso; apply E; rewrite <- Hnv, length_normalize; congruence].
    rewrite Hxb, Hhead. simpl.
    assert (accepted (threshold st) h.1 = true) as ->; [|reflexivity].
    apply accepted_true. rewrite Hzero, similarity_of_zero. lra.
  - destruct h as [dis j]. simpl in Hzero. subst dis.
    apply scan_elem in Hh as [Hrange _]. simpl in Htie.
    specialize (Htie eq_refl). simpl. lia.
Qed.

(** X4.  After a finite vector of 128 components and non-zero norm was
    added, and with a threshold that is not negative, the best match for
    that same vector exists and has distance 0, similarity 1 and rank 1, at
    a position not after the new one.  When the index was empty before,
    the best match is the new face: position 0, with the [face_id] and
    [person_name] of the call (or those of [additional_metadata], where it
    has such keys). *)
Theorem added_face_is_best_match
    (st : FAISSManager) (dk : disk) (io : io_env) (rs : list R)
    (face_id person_name : string) (extra : option record) :
  length rs = dimension → Rsum_squares rs ≠ 0%R →
  d (index st) = dimension → (0 <= threshold st)%R →
  ∃ st' dk' r,
    add_face_encoding st dk io (reals rs) face_id person_name extra
    = (true, st', dk')
    ∧ get_best_match st' (reals rs) = Some r
    ∧ r_distance r = 0%R ∧ r_similarity r = 1%R ∧ r_rank r = 1
    ∧ 0 ≤ r_index_position r ≤ ntotal (index st)
    ∧ (xb (index st) = [] →
       r_index_position r = 0
       ∧ r_face_id r = default (VStr face_id) (e ← extra; e !! "face_id")
       ∧ r_person_name r
         = default (VStr person_name) (e ← extra; e !! "person_name")).
Proof.
  intros Hl Hs Hd Hthr.
  assert (length (reals rs) = dimension) as Hlv
    by (unfold reals; rewrite length_map; exact Hl).
  rewrite add_face_encoding_ok by assumption. cbv zeta.
  set (md := build_metadata face_id person_name (ntotal (index st)) extra).
  set (nv := normalize (reals rs)).
  set (st' := mkManager (mkIndex (d (index st)) (xb (index st) ++ [nv]))
                (<[ str (ntotal (index st)) := md ]> (metadata st)) (threshold st)).
  assert (fvec_L2sqr nv nv = Fin 0) as Hself.
  { subst nv. destruct (normalize_reals rs Hs) as [-> _]. apply fvec_L2sqr_self. }
  destruct (best_match_of_last_vector st' (xb (index st)) nv (reals rs)
              eq_refl Hd Hlv eq_refl Hself Hthr)
    as (h & Hbest & Hzero & Hrange).
  exists st', (_save_index st' dk io), (result_of st' 0 h).
  split; [reflexivity|]. split; [exact Hbest|].
  destruct h as [dis j]. simpl in Hzero. subst dis. simpl in Hrange.
  cbn [result_of r_distance r_similarity r_rank r_index_position r_face_id
       r_person_name fst snd].
  rewrite similarity_of_zero.
  split; [reflexivity|]. split; [reflexivity|]. split; [reflexivity|].
  split; [exact Hrange|].
  intros Hempty.
  assert (j = 0) as ->.
  { rewrite Hempty in Hrange. simpl in Hrange. lia. }
  split; [reflexivity|].
  assert (dict_get (metadata st') (str 0) ∅ = md) as Hmd.
  { unfold dict_get. subst st'. simpl metadata.
    unfold ntotal. rewrite Hempty. simpl. rewrite lookup_insert_eq. reflexivity. }
  rewrite Hmd. unfold dict_get. subst md.
  rewrite !build_metadata_field by auto. simpl. split; reflexivity.
Qed.

Lemma added_face_is_best_match_witness :
  ∃ st' dk' r,
    add_face_encoding fresh empty_disk io_ok e1 "alice_0" "alice" None
    = (true, st', dk')
    ∧ get_best_match st' e1 = Some r
    ∧ r_distance r = 0%R ∧ r_similarity r = 1%R ∧ r_rank r = 1
    ∧ 0 ≤ r_index_position r ≤ ntotal (index fresh)
    ∧ (xb (index fresh) = [] →
       r_index_position r = 0
       ∧ r_face_id r = default (VStr "alice_0") (e ← (None : option record); e !! "face_id")
       ∧ r_person_name r
         = default (VStr "alice") (e ← (None : option record); e !! "person_name")).
Proof.
  apply (added_face_is_best_match fresh empty_disk io_ok
           (1%R :: replicate 127 0%R) "alice_0" "alice" None).
  - reflexivity.
  - change (Rsum_squares (1%R :: replicate 127 0%R))
      with (1 * 1 + Rsum_squares (replicate 127 0%R))%R.
    rewrite Rsum_squares_zeros. lra.
  - reflexivity.
  - simpl. lra.
Defined.

(** ** What a search returns after a run *)

Lemma run_records ops st dk hist :
  Forall (λ p : vec * record, ∃ fid pn pos extra,
            p.2 = build_metadata fid pn pos extra) hist →
  Forall (λ p : vec * record, ∃ fid pn pos extra,
            p.2 = build_metadata fid pn pos extra) (run (st, dk, hist) ops).2.
Proof.
  revert st dk hist. induction ops as [|o ops IH]; intros st dk hist Hh;
    [exact Hh|].
  rewrite run_cons.
  destruct (step (st, dk, hist) o) as [[st1 dk1] hist1] eqn:Hstep.
  apply IH. destruct o as [io e fid pn extra | io]; simpl in Hstep.
  - destruct (add_face_encoding st dk io e fid pn extra) as [[ok st2] dk2].
    injection Hstep as _ _ <-. destruct ok; [|exact Hh].
    apply Forall_app. split; [exact Hh|]. constructor; [|constructor].
    simpl. eauto.
  - injection Hstep as _ _ <-. constructor.
Qed.

(** X5.  After any run of adds and clears on a manager created on an empty
    disk, whatever the outcome of the writes, every dictionary returned by
    a search points at a stored position and carries the [face_id] and
    [person_name] of the record that was added with the vector at that
    position; the ['unknown'] default is never used for lack of a record. *)
Theorem search_results_carry_their_records
    (ops : list op) (query_encoding : vec) (k : nat) :
  let '(st, _, hist) := run (fresh, empty_disk, []) ops in
  Forall (λ r,
    0 ≤ r_index_position r < ntotal (index st)
    ∧ ∃ v rec,
        hist !! Z.to_nat (r_index_position r) = Some (v, rec)
        ∧ xb (index st) !! Z.to_nat (r_index_position r) = Some v
        ∧ metadata st !! str (r_index_position r) = Some rec
        ∧ rec !! "face_id" = Some (r_face_id r)
        ∧ rec !! "person_name" = Some (r_person_name r))
    (search_similar_faces st query_encoding k).
Proof.
  destruct (run_paired ops fresh empty_disk [] (paired_fresh _ _)) as [Hp _].
  pose proof (run_records ops fresh empty_disk [] (Forall_nil_2 _)) as Hrec.
  destruct (run (fresh, empty_disk, []) ops) as [[st dk] hist].
  simpl in Hp, Hrec.
  destruct (paired_spec st hist Hp) as (Hcount & Hlen & Hlook).
  destruct (search_shape st query_encoding k) as (m & _ & -> & _ & _).
  rewrite Forall_forall. intros r Hin.
  apply ranked_elem in Hin as (n & [dis j] & Hh & ->).
  cbn [result_of r_index_position r_face_id r_person_name fst snd].
  assert ((dis, j) ∈ candidates st query_encoding k) as Hcand.
  { apply lookup_take_Some in Hh as [Hh _]. eapply list_elem_of_lookup_2, Hh. }
  assert (0 ≤ j < ntotal (index st)) as Hrange.
  { destruct (candidates_cases st query_encoding k) as [E | (q & _ & E)];
      rewrite E in Hcand; [apply elem_of_nil in Hcand; contradiction|].
    apply best_hits_elem in Hcand as [Hr _]. exact Hr. }
  split; [exact Hrange|].
  assert (Z.to_nat j < length hist)%nat as Hlt by (unfold ntotal in *; lia).
  destruct (lookup_lt_is_Some_2 hist (Z.to_nat j) Hlt) as [[v rec] Hhist].
  destruct (Hlook _ _ _ Hhist) as [Hv Hm]. rewrite Z2Nat.id in Hm by lia.
  exists v, rec. split; [exact Hhist|]. split; [exact Hv|]. split; [exact Hm|].
  rewrite Forall_forall in Hrec.
  destruct (Hrec (v, rec)) as (fid & pn & pos & extra & Hbuild);
    [eapply list_elem_of_lookup_2, Hhist|].
  simpl in Hbuild. unfold dict_get. rewrite Hm. simpl. subst rec.
  rewrite !build_metadata_field by auto. simpl. split; reflexivity.
Qed.

(** ** Clearing, and saves that fail *)

(** X6.  [clear_index] empties the manager whatever the outcome of the
    save: afterwards every search returns nothing, there is no best match,
    the statistics count 0 faces, and the threshold is what it was.  When
    both writes succeed a restart loads an empty index; when the write of
    the index file fails the disk is left as it was, so a restart brings
    back whatever snapshot it held. *)
Theorem clear_index_empties
    (st : FAISSManager) (dk : disk) (io : io_env) :
  let '(st', dk') := clear_index st dk io in
  (∀ q k, search_similar_faces st' q k = [])
  ∧ (∀ q, get_best_match st' q = None)
  ∧ total_faces (get_stats st') = 0
  ∧ metadata st' = ∅
  ∧ threshold st' = threshold st
  ∧ (io = io_ok →
     index (FAISSManager_init dk') = new_IndexFlatL2 dimension
     ∧ metadata (FAISSManager_init dk') = ∅)
  ∧ (write_index io = IoErr → dk' = dk).
Proof.
  unfold clear_index.
  split; [intros q k; reflexivity|]. split; [intros q; reflexivity|].
  split; [reflexivity|]. split; [reflexivity|]. split; [reflexivity|]. split.
  - intros ->. split; reflexivity.
  - intros H. unfold _save_index. rewrite H. reflexivity.
Qed.

Lemma clear_index_empties_witness :
  let '(st', dk') := clear_index one_face empty_disk io_ok in
  io_ok = io_ok
  ∧ index (FAISSManager_init dk') = new_IndexFlatL2 dimension
  ∧ metadata (FAISSManager_init dk') = ∅.
Proof.
  pose proof (clear_index_empties one_face empty_disk io_ok) as H.
  destruct (clear_index one_face empty_disk io_ok) as [st' dk'].
  destruct H as (_ & _ & _ & _ & _ & Hok & _).
  split; [reflexivity|]. apply Hok. reflexivity.
Defined.

(** X7.  A save that fails is silent.  When the write of the index file
    fails, a successful add still returns [True] and the new vector is in
    memory, but the disk is untouched: if it mirrored the manager before
    the call, a restart loads the manager as it was before the add, without
    the new face. *)
Theorem failed_save_loses_the_add
    (st : FAISSManager) (dk : disk) (io : io_env) (encoding : vec)
    (face_id person_name : string) (extra : option record) :
  write_index io = IoErr →
  length encoding = dimension → d (index st) = dimension →
  _initialize_index dk = (index st, metadata st) →
  ∃ st' dk',
    add_face_encoding st dk io encoding face_id person_name extra
    = (true, st', dk')
    ∧ ntotal (index st') = ntotal (index st) + 1
    ∧ dk' = dk
    ∧ index (FAISSManager_init dk') = index st
    ∧ metadata (FAISSManager_init dk') = metadata st.
Proof.
  intros Hio Hl Hd Hdisk.
  rewrite add_face_encoding_ok by assumption. cbv zeta.
  eexists _, _. split; [reflexivity|].
  assert (∀ s, _save_index s dk io = dk) as Hsave
    by (intros s; unfold _save_index; rewrite Hio; reflexivity).
  rewrite Hsave. unfold FAISSManager_init. rewrite Hdisk. simpl.
  unfold ntotal. simpl. rewrite length_app. simpl.
  repeat split. lia.
Qed.

Lemma failed_save_loses_the_add_witness :
  ∃ st' dk',
    add_face_encoding fresh empty_disk (mkIo IoErr IoOk) e1 "alice_0" "alice" None
    = (true, st', dk')
    ∧ ntotal (index st') = ntotal (index fresh) + 1
    ∧ dk' = empty_disk
    ∧ index (FAISSManager_init dk') = index fresh
    ∧ metadata (FAISSManager_init dk') = metadata fresh.
Proof.
  apply (failed_save_loses_the_add fresh empty_disk (mkIo IoErr IoOk) e1
           "alice_0" "alice" None); reflexivity.
Defined.

(* ===================================================================== *)
(** * Further properties of the processor *)

(** ** [detect_faces] *)

Lemma detect_faces_foldl img detections acc :
  foldl (detect_step img) acc detections
  = acc ++ imap (λ i det, detection_of img (Z.of_nat (length acc + i)) det)
             detections.
Proof.
  revert acc. induction detections as [|det detections IH]; intros acc.
  - simpl. rewrite app_nil_r. reflexivity.
  - assert (detect_step img acc det
            = acc ++ [detection_of img (Z.of_nat (length acc)) det]) as Hstep
      by reflexivity.
    cbn [foldl]. rewrite IH, Hstep, <- app_assoc. f_equal.
    cbn [imap app]. rewrite Nat.add_0_r. f_equal.
    apply imap_ext. intros i det' _. simpl.
    rewrite length_app. simpl. do 2 f_equal. lia.
Qed.

Section DetectionProperties.

Variable face_detection_process : image → option (list mp_detection).

(** X8.  [detect_faces] returns one entry per MediaPipe detection, in the
    same order, numbered 0, 1, 2, ... by [detection_id] and carrying the
    detection's score.  Every box starts inside the non-negative quadrant
    and is cut at the right and bottom edge of the image:
    [0 <= x], [0 <= y], [x + width <= W], [y + height <= H]. *)
Theorem detect_faces_numbers_and_clamps
    (img : image) (detected_faces : list detection) :
  detect_faces face_detection_process img = Some detected_faces →
  ∃ detections,
    face_detection_process img = Some detections
    ∧ length detected_faces = length detections
    ∧ ∀ i face, detected_faces !! i = Some face →
        det_detection_id face = Z.of_nat i
        ∧ (∃ det, detections !! i = Some det ∧ det_confidence face = score det)
        ∧ 0 ≤ box_x (det_bounding_box face)
        ∧ 0 ≤ box_y (det_bounding_box face)
        ∧ box_x (det_bounding_box face) + box_width (det_bounding_box face)
          ≤ Z.of_nat (shape1 img)
        ∧ box_y (det_bounding_box face) + box_height (det_bounding_box face)
          ≤ Z.of_nat (shape0 img).
Proof.
  unfold detect_faces.
  destruct (face_detection_process img) as [detections|]; [|discriminate].
  intros H. injection H as <-. exists detections.
  rewrite detect_faces_foldl. simpl.
  split; [reflexivity|]. split; [apply length_imap|].
  intros i face Hi. rewrite list_lookup_imap in Hi.
  destruct (detections !! i) as [det|] eqn:Hdet; [|discriminate].
  injection Hi as <-. unfold detection_of. simpl.
  split; [reflexivity|]. split; [exists det; auto|]. lia.
Qed.

End DetectionProperties.

Lemma detect_faces_numbers_and_clamps_witness :
  ∃ detections,
    (λ _ : image, Some sample_detections) black_image = Some detections
    ∧ length sample_faces = length detections
    ∧ ∀ i face, sample_faces !! i = Some face →
        det_detection_id face = Z.of_nat i
        ∧ (∃ det, detections !! i = Some det ∧ det_confidence face = score det)
        ∧ 0 ≤ box_x (det_bounding_box face)
        ∧ 0 ≤ box_y (det_bounding_box face)
        ∧ box_x (det_bounding_box face) + box_width (det_bounding_box face)
          ≤ Z.of_nat (shape1 black_image)
        ∧ box_y (det_bounding_box face) + box_height (det_bounding_box face)
          ≤ Z.of_nat (shape0 black_image).
Proof.
  apply (detect_faces_numbers_and_clamps (λ _, Some sample_detections)
           black_image sample_faces).
  exact detect_sample_faces.
Defined.

(** ** The padded crop *)

Lemma length_py_slice {A} (start stop : Z) (l : list A) :
  0 ≤ start → 0 ≤ stop ≤ Z.of_nat (length l) →
  length (py_slice start stop l) = Z.to_nat (stop - start).
Proof.
  intros Hs Hstop. unfold py_slice.
  rewrite length_take, length_drop.
  destruct (Z.ltb_spec start 0), (Z.ltb_spec stop 0); lia.
Qed.

Lemma length_concat_rows {A} (rows : list (list A)) (c : nat) :
  Forall (λ row, length row = c) rows →
  length (concat rows) = (length rows * c)%nat.
Proof.
  induction 1 as [|row rows Hrow _ IH]; simpl; [reflexivity|].
  rewrite length_app, Hrow, IH. reflexivity.
Qed.

Lemma array_size_face_region (img : image) (face_bbox : bounding_box) :
  rectangular img →
  0 ≤ box_x face_bbox + box_width face_bbox + padding →
  0 ≤ box_y face_bbox + box_height face_bbox + padding →
  array_size 3 (face_region_of img face_bbox)
  = (Z.to_nat (crop_rows img face_bbox) * Z.to_nat (crop_cols img face_bbox) * 3)%nat.
Proof.
  intros Hrect Hx Hy. unfold array_size, face_region_of, slice2. f_equal.
  rewrite (length_concat_rows _ (Z.to_nat (crop_cols img face_bbox))).
  - rewrite length_map, length_py_slice; [reflexivity | lia |].
    unfold shape0. lia.
  - apply Forall_fmap.
    eapply Forall_impl; [apply Forall_py_slice, Hrect|].
    intros row Hrow. simpl. rewrite length_py_slice; [reflexivity | lia |].
    rewrite Hrow. lia.
Qed.

Section CropProperties.

Variable interp : image → nat → nat → rgb.
Variable luma : rgb → Z.

(** X9.  On a rectangular image, for a box whose right and bottom edge are
    not more than 20 pixels before the origin, the crop of
    [generate_face_encoding] is the box grown by 20 pixels on every side
    and cut to the image.  The encoding fails exactly when that crop has no
    row or no column; in particular a box that starts inside the image and
    has a width and a height that are not negative is always encoded, into
    128 numbers. *)
Theorem encoding_fails_only_on_empty_crop
    (img : image) (face_bbox : bounding_box) :
  rectangular img →
  0 ≤ box_x face_bbox + box_width face_bbox + padding →
  0 ≤ box_y face_bbox + box_height face_bbox + padding →
  array_size 3 (face_region_of img face_bbox)
  = (Z.to_nat (crop_rows img face_bbox) * Z.to_nat (crop_cols img face_bbox) * 3)%nat
  ∧ (generate_face_encoding interp luma img face_bbox = None
     ↔ crop_rows img face_bbox ≤ 0 ∨ crop_cols img face_bbox ≤ 0)
  ∧ (0 ≤ box_x face_bbox < Z.of_nat (shape1 img) →
     0 ≤ box_y face_bbox < Z.of_nat (shape0 img) →
     0 ≤ box_width face_bbox → 0 ≤ box_height face_bbox →
     ∃ encoding,
       generate_face_encoding interp luma img face_bbox = Some encoding
       ∧ length encoding = 128%nat).
Proof.
  intros Hrect Hx Hy.
  pose proof (array_size_face_region img face_bbox Hrect Hx Hy) as Hsize.
  split; [exact Hsize|].
  assert (generate_face_encoding interp luma img face_bbox = None
          ↔ crop_rows img face_bbox ≤ 0 ∨ crop_cols img face_bbox ≤ 0) as Hiff.
  { unfold generate_face_encoding. rewrite Hsize.
    destruct (decide _) as [E|E]; split; intros H; try reflexivity;
      try discriminate; nia. }
  split; [exact Hiff|].
  intros Hbx Hby Hw Hh.
  destruct (generate_face_encoding interp luma img face_bbox) as [encoding|] eqn:Henc.
  - exists encoding. split; [reflexivity|].
    exact (proj2 (generate_face_encoding_normalized _ _ _ _ _ Henc)).
  - exfalso. destruct (proj1 Hiff eq_refl) as [H|H];
      unfold crop_rows, crop_cols, padding in H; lia.
Qed.

End CropProperties.

Lemma encoding_fails_only_on_empty_crop_witness :
  rectangular black_image
  ∧ 0 ≤ box_x box_inside + box_width box_inside + padding
  ∧ 0 ≤ box_y box_inside + box_height box_inside + padding
  ∧ (generate_face_encoding interp_nearest luma_fixed black_image box_inside = None
     ↔ crop_rows black_image box_inside ≤ 0 ∨ crop_cols black_image box_inside ≤ 0).
Proof.
  assert (rectangular black_image) as Hrect by (repeat constructor).
  assert (0 ≤ box_x box_inside + box_width box_inside + padding) as Hx
    by (vm_compute; discriminate).
  assert (0 ≤ box_y box_inside + box_height box_inside + padding) as Hy
    by (vm_compute; discriminate).
  split; [exact Hrect|]. split; [exact Hx|]. split; [exact Hy|].
  apply (encoding_fails_only_on_empty_crop interp_nearest luma_fixed
           black_image box_inside Hrect Hx Hy).
Defined.

(** ** Recognition of one face *)

(** X10.  In the outcome of a face, the name, the similarity and the
    recognised flag are those of the first of its matches: the face is
    recognised exactly when the list of matches is not empty, its name and
    similarity are then the [person_name] and [similarity] of the first
    match, and otherwise ['Unknown'] and 0.  There are at most 3 matches.
    On an empty index every face is unknown. *)
Theorem recognized_face_follows_first_match
    (st : FAISSManager) (face : detection) (encoding : vec) :
  let pf := recognized_face st face encoding in
  pf_matches pf = search_similar_faces st encoding 3
  ∧ (length (pf_matches pf) ≤ 3)%nat
  ∧ (pf_is_recognized pf = true ↔ pf_matches pf ≠ [])
  ∧ (∀ m rest, pf_matches pf = m :: rest →
       pf_name pf = r_person_name m ∧ pf_similarity pf = r_similarity m
       ∧ r_rank m = 1)
  ∧ (pf_matches pf = [] →
       pf_name pf = VStr "Unknown" ∧ pf_similarity pf = 0%R)
  ∧ (ntotal (index st) = 0 → pf_matches pf = [])
  ∧ pf_detection_id pf = det_detection_id face
  ∧ pf_encoding pf = encoding.
Proof.
  intros pf. subst pf. unfold recognized_face.
  rewrite (get_best_match_head st encoding 3) by lia.
  assert (length (search_similar_faces st encoding 3) ≤ 3)%nat as Hlen.
  { destruct (search_shape st encoding 3) as (m & Hm & -> & _ & _).
    pose proof (length_candidates st encoding 3).
    rewrite length_ranked, length_take. lia. }
  assert (take 3 (search_similar_faces st encoding 3)
          = search_similar_faces st encoding 3) as Htake
    by (apply take_ge; exact Hlen).
  assert (∀ m rest, search_similar_faces st encoding 3 = m :: rest → r_rank m = 1)
    as Hrank.
  { intros m rest Hs.
    destruct (search_shape st encoding 3) as (n & _ & Hr & _ & _).
    rewrite Hr in Hs.
    destruct (take n (candidates st encoding 3)); [discriminate|].
    simpl in Hs. injection Hs as <- _. reflexivity. }
  cbn [pf_matches pf_is_recognized pf_name pf_similarity pf_detection_id
       pf_encoding].
  rewrite Htake. clear Htake.
  destruct (search_similar_faces st encoding 3) as [|m rest] eqn:Hs;
    cbn [head]; cbn [pf_matches pf_is_recognized pf_name pf_similarity
                     pf_detection_id pf_encoding].
  - split; [reflexivity|]. split; [simpl; lia|].
    split; [split; [discriminate | intros H; contradiction]|].
    split; [intros m' rest' E; discriminate|].
    split; [intros _; split; reflexivity|].
    split; [reflexivity|]. split; reflexivity.
  - split; [reflexivity|]. split; [exact Hlen|].
    split; [split; [discriminate | reflexivity]|].
    split.
    { intros m' rest' E. injection E as <- _.
      split; [reflexivity|]. split; [reflexivity|].
      eapply Hrank. reflexivity. }
    split; [discriminate|].
    split; [|split; reflexivity].
    intros H0. rewrite search_similar_faces_unfold in Hs.
    destruct (decide _); [discriminate | contradiction].
Qed.

(** ** [process_image_for_registration] *)

Lemma detect_one_face :
  detect_faces (λ _, Some one_detection) black_image = Some [one_detected_face].
Proof.
  unfold detect_faces, one_detection, one_detected_face. cbn [foldl].
  unfold detect_step. cbn [rel_xmin rel_ymin rel_width rel_height score].
  change (Z.of_nat (shape0 black_image)) with 1.
  change (Z.of_nat (shape1 black_image)) with 1.
  rewrite !Rmult_1_r, !py_int_IZR. reflexivity.
Qed.

Lemma registration_metadata_field confidence quality face_bbox key :
  key = "face_id" ∨ key = "person_name" ∨ key = "index_position" →
  registration_metadata confidence quality face_bbox !! key = None.
Proof. intros [-> | [-> | ->]]; reflexivity. Qed.

Lemma registration_metadata_not_empty confidence quality face_bbox :
  registration_metadata confidence quality face_bbox ≠ ∅.
Proof.
  intros E.
  assert (registration_metadata confidence quality face_bbox !! "confidence"
          = Some (VFloat (Fin confidence))) as H by reflexivity.
  rewrite E, lookup_empty in H. discriminate.
Qed.

(** The record stored by a registration: the three fields of the manager
    and the three of the processor. *)
Lemma registration_record fid pn pos confidence quality face_bbox :
  let rec := build_metadata fid pn pos
               (Some (registration_metadata confidence quality face_bbox)) in
  rec !! "face_id" = Some (VStr fid)
  ∧ rec !! "person_name" = Some (VStr pn)
  ∧ rec !! "index_position" = Some (VInt pos)
  ∧ rec !! "confidence" = Some (VFloat (Fin confidence))
  ∧ rec !! "image_quality" = Some (VStr quality).
Proof.
  intros rec. subst rec. unfold build_metadata.
  destruct (decide _) as [E|_];
    [exfalso; exact (registration_metadata_not_empty _ _ _ E)|].
  split; [|split; [|split; [|split]]].
  - rewrite lookup_union_r by (apply registration_metadata_field; tauto).
    reflexivity.
  - rewrite lookup_union_r by (apply registration_metadata_field; tauto).
    reflexivity.
  - rewrite lookup_union_r by (apply registration_metadata_field; tauto).
    reflexivity.
  - apply lookup_union_Some_l. reflexivity.
  - apply lookup_union_Some_l. reflexivity.
Qed.

Section RegistrationProperties.

Variable interp : image → nat → nat → rgb.
Variable luma : rgb → Z.
Variable preprocess_image : list Byte.byte → option image.
Variable face_detection_process : image → option (list mp_detection).
Variable L : Type.
Variable extract_face_landmarks : image → list L.
Variable preprocess_error : list Byte.byte → string.
Variable detection_error : image → string.

Abbreviation register :=
  (process_image_for_registration interp luma preprocess_image
     face_detection_process L extract_face_landmarks preprocess_error
     detection_error).

(** What a registration that reports success went through. *)
Lemma registered_inv st dk io image_data name r st' dk' :
  register st dk io image_data name = (Registered r, st', dk') →
  ∃ img face encoding,
    preprocess_image image_data = Some img
    ∧ detect_faces face_detection_process img = Some [face]
    ∧ generate_face_encoding interp luma img (det_bounding_box face)
      = Some encoding
    ∧ r = mkRegistered encoding (det_confidence face)
            (head (extract_face_landmarks img))
            (_assess_image_quality luma img (det_bounding_box face))
            (det_bounding_box face)
            (name +:+ "_" +:+ str (Z.of_nat (size (metadata st))))
            (add_face_encoding st dk io encoding
               (name +:+ "_" +:+ str (Z.of_nat (size (metadata st)))) name
               (Some (registration_metadata (det_confidence face)
                        (_assess_image_quality luma img (det_bounding_box face))
                        (det_bounding_box face)))).1.1
    ∧ (st', dk') =
      ((add_face_encoding st dk io encoding
          (name +:+ "_" +:+ str (Z.of_nat (size (metadata st)))) name
          (Some (registration_metadata (det_confidence face)
                   (_assess_image_quality luma img (det_bounding_box face))
                   (det_bounding_box face)))).1.2,
       (add_face_encoding st dk io encoding
          (name +:+ "_" +:+ str (Z.of_nat (size (metadata st)))) name
          (Some (registration_metadata (det_confidence face)
                   (_assess_image_quality luma img (det_bounding_box face))
                   (det_bounding_box face)))).2).
Proof.
  unfold process_image_for_registration. intros H.
  destruct (preprocess_image image_data) as [img|] eqn:Hp; [|discriminate].
  destruct (detect_faces face_detection_process img)
    as [[|face [|face' faces]]|] eqn:Hf; try discriminate.
  destruct (generate_face_encoding interp luma img (det_bounding_box face))
    as [encoding|] eqn:He; [|discriminate].
  exists img, face, encoding.
  destruct (add_face_encoding _ _ _ _ _ _ _) as [[ok st1] dk1].
  injection H as <- <- <-.
  split; [reflexivity|]. split; [exact Hf|]. split; [exact He|].
  split; reflexivity.
Qed.

(** X11.  A registration that is refused changes nothing: whenever the
    result says ['success': False], the manager and the disk are the ones
    before the call.  With a readable image and a working detector the
    refusal is one of three: no face, more than one face, or the one face
    has an empty padded crop; each has its own message. *)
Theorem refused_registration_changes_nothing
    (st : FAISSManager) (dk : disk) (io : io_env)
    (image_data : list Byte.byte) (name error : string)
    (st' : FAISSManager) (dk' : disk) :
  register st dk io image_data name = (Registration_failed error, st', dk') →
  st' = st ∧ dk' = dk
  ∧ ∀ img faces,
      preprocess_image image_data = Some img →
      detect_faces face_detection_process img = Some faces →
      (faces = [] ∧ error = "No face detected in the image")
      ∨ ((2 ≤ length faces)%nat
         ∧ error = "Multiple faces detected. Please use an image with only one face.")
      ∨ (∃ face, faces = [face]
           ∧ generate_face_encoding interp luma img (det_bounding_box face) = None
           ∧ error = "Face encoding generation failed: Invalid face region").
Proof.
  unfold process_image_for_registration. intros H.
  destruct (preprocess_image image_data) as [img|] eqn:Hp.
  2:{ injection H as <- <- <-. split; [reflexivity|]. split; [reflexivity|].
      intros ? ? ?; discriminate. }
  destruct (detect_faces face_detection_process img) as [faces|] eqn:Hf.
  2:{ injection H as <- <- <-. split; [reflexivity|]. split; [reflexivity|].
      intros img0 faces0 E1 E2. injection E1 as <-. congruence. }
  assert (∀ img0 faces0 (P : Prop),
            Some img = Some img0 →
            detect_faces face_detection_process img0 = Some faces0 →
            (faces0 = faces → P) → P) as Hsame.
  { intros img0 faces0 P E1 E2 HP. injection E1 as <-. apply HP. congruence. }
  destruct faces as [|face [|face' faces]].
  - injection H as <- <- <-. split; [reflexivity|]. split; [reflexivity|].
    intros img0 faces0 E1 E2. apply (Hsame _ _ _ E1 E2). intros ->.
    left. split; reflexivity.
  - destruct (generate_face_encoding interp luma img (det_bounding_box face))
      as [encoding|] eqn:He.
    + destruct (add_face_encoding _ _ _ _ _ _ _) as [[ok st1] dk1]. discriminate.
    + injection H as <- <- <-. split; [reflexivity|]. split; [reflexivity|].
      intros img0 faces0 E1 E2. apply (Hsame _ _ _ E1 E2). intros ->.
      injection E1 as <-.
      right. right. exists face.
      split; [reflexivity|]. split; [exact He | reflexivity].
  - injection H as <- <- <-. split; [reflexivity|]. split; [reflexivity|].
    intros img0 faces0 E1 E2. apply (Hsame _ _ _ E1 E2). intros ->.
    right. left. split; [simpl; lia | reflexivity].
Qed.

(** X12.  A registration that reports success on a manager whose records
    are paired with its vectors, with an index of dimension 128: the face
    is indexed, its [face_id] is the name followed by [_] and the position
    it is stored at, the returned encoding is the vector appended to the
    index (the second normalisation, in [add_face_encoding], changes
    nothing), the record stored under that position carries the name, the
    id, the position, the confidence and the quality that the result
    reports, and the manager is paired again. *)
Theorem registration_stores_the_face
    (st : FAISSManager) (hist : history) (dk : disk) (io : io_env)
    (image_data : list Byte.byte) (name : string)
    (r : registration_success L) (st' : FAISSManager) (dk' : disk) :
  paired st hist →
  d (index st) = dimension →
  register st dk io image_data name = (Registered r, st', dk') →
  reg_faiss_indexed r = true
  ∧ reg_face_id r = name +:+ "_" +:+ str (ntotal (index st))
  ∧ length (reg_encoding r) = dimension
  ∧ xb (index st') = xb (index st) ++ [reg_encoding r]
  ∧ threshold st' = threshold st
  ∧ ∃ rec,
      metadata st' !! str (ntotal (index st)) = Some rec
      ∧ rec !! "face_id" = Some (VStr (reg_face_id r))
      ∧ rec !! "person_name" = Some (VStr name)
      ∧ rec !! "index_position" = Some (VInt (ntotal (index st)))
      ∧ rec !! "confidence" = Some (VFloat (Fin (reg_confidence r)))
      ∧ rec !! "image_quality" = Some (VStr (reg_image_quality r))
      ∧ paired st' (hist ++ [(reg_encoding r, rec)]).
Proof.
  intros Hpaired Hd H.
  assert (Z.of_nat (size (metadata st)) = ntotal (index st)) as Hsize.
  { destruct Hpaired as [Hxb Hmd]. unfold ntotal.
    rewrite Hxb, Hmd, size_metadata_from, !length_fmap. reflexivity. }
  destruct (registered_inv _ _ _ _ _ _ _ _ H)
    as (img & face & encoding & _ & _ & Henc & Hr & Hst).
  assert (encoding = normalize encoding ∧ length encoding = dimension)
    as [Hnorm Hlen].
  { destruct (generate_face_encoding_normalized _ _ _ _ _ Henc) as [H1 H2].
    split; [symmetry; exact H1 | exact H2]. }
  rewrite add_face_encoding_ok in Hr, Hst by assumption.
  cbv zeta in Hr, Hst. cbn [fst snd] in Hr, Hst.
  injection Hst as -> ->. subst r.
  cbn [reg_faiss_indexed reg_face_id reg_encoding reg_confidence
       reg_image_quality index metadata threshold xb d].
  rewrite Hsize, <- Hnorm.
  split; [reflexivity|]. split; [reflexivity|]. split; [exact Hlen|].
  split; [reflexivity|]. split; [reflexivity|].
  eexists. split; [apply lookup_insert_eq|].
  pose proof (registration_record
                (name +:+ "_" +:+ str (ntotal (index st))) name
                (ntotal (index st)) (det_confidence face)
                (_assess_image_quality luma img (det_bounding_box face))
                (det_bounding_box face)) as Hrec.
  cbv zeta in Hrec. destruct Hrec as (H1 & H2 & H3 & H4 & H5).
  split; [exact H1|]. split; [exact H2|]. split; [exact H3|].
  split; [exact H4|]. split; [exact H5|].
  apply (paired_add st hist encoding _ Hpaired).
Qed.

(** X13.  ['success': True] does not mean that the face was stored.  A
    registration that reports success has indexed the face exactly when the
    dimension of the loaded index is 128; otherwise the result still says
    success, with ['faiss_indexed': False], and neither the manager nor the
    disk has changed. *)
Theorem registration_success_without_indexing
    (st : FAISSManager) (dk : disk) (io : io_env)
    (image_data : list Byte.byte) (name : string)
    (r : registration_success L) (st' : FAISSManager) (dk' : disk) :
  register st dk io image_data name = (Registered r, st', dk') →
  (reg_faiss_indexed r = true ↔ d (index st) = dimension)
  ∧ (reg_faiss_indexed r = false → st' = st ∧ dk' = dk)
  ∧ (reg_faiss_indexed r = true →
       ntotal (index st') = ntotal (index st) + 1).
Proof.
  intros H.
  destruct (registered_inv _ _ _ _ _ _ _ _ H)
    as (img & face & encoding & _ & _ & Henc & Hr & Hst).
  assert (length encoding = dimension) as Hlen
    by exact (proj2 (generate_face_encoding_normalized _ _ _ _ _ Henc)).
  destruct (add_face_encoding_cases st dk io encoding
              (name +:+ "_" +:+ str (Z.of_nat (size (metadata st)))) name
              (Some (registration_metadata (det_confidence face)
                       (_assess_image_quality luma img (det_bounding_box face))
                       (det_bounding_box face))))
    as [[[Hbad|Hbad] Hout] | (_ & Hd & Hout)]; [contradiction | |];
    cbv zeta in Hout; rewrite Hout in Hr, Hst; cbn [fst snd] in Hr, Hst;
    injection Hst as -> ->; subst r; cbn [reg_faiss_indexed].
  - split; [split; [discriminate | intros E; contradiction]|].
    split; [intros _; split; reflexivity | discriminate].
  - split; [split; [intros _; exact Hd | reflexivity]|].
    split; [discriminate|].
    intros _. unfold ntotal. cbn [index xb]. rewrite length_app. simpl. lia.
Qed.

End RegistrationProperties.

Lemma refused_registration_changes_nothing_witness :
  fresh = fresh ∧ empty_disk = empty_disk
  ∧ ∀ img faces,
      Some black_image = Some img →
      detect_faces (λ _, Some sample_detections) img = Some faces →
      (faces = []
       ∧ "Multiple faces detected. Please use an image with only one face."
         = "No face detected in the image")
      ∨ ((2 ≤ length faces)%nat
         ∧ "Multiple faces detected. Please use an image with only one face."
           = "Multiple faces detected. Please use an image with only one face.")
      ∨ (∃ face, faces = [face]
           ∧ generate_face_encoding interp_nearest luma_fixed img
               (det_bounding_box face) = None
           ∧ "Multiple faces detected. Please use an image with only one face."
             = "Face encoding generation failed: Invalid face region").
Proof.
  apply (refused_registration_changes_nothing interp_nearest luma_fixed
           (λ _, Some black_image) (λ _, Some sample_detections)
           unit (λ _, []) (λ _, "") (λ _, "")
           fresh empty_disk io_ok [] "alice"
           "Multiple faces detected. Please use an image with only one face."
           fresh empty_disk).
  unfold process_image_for_registration.
  rewrite detect_sample_faces. reflexivity.
Defined.

Lemma register_alice (image_data : list Byte.byte) :
  process_image_for_registration interp_nearest luma_fixed
    (λ _, Some black_image) (λ _, Some one_detection)
    unit (λ _, []) (λ _, "") (λ _, "") fresh empty_disk io_ok image_data "alice"
  = (Registered (alice_result true), alice_state,
     _save_index alice_state empty_disk io_ok).
Proof.
  unfold process_image_for_registration.
  rewrite detect_one_face.
  change (det_bounding_box one_detected_face) with box_inside.
  rewrite black_region_encoding.
  rewrite add_face_encoding_ok by reflexivity. cbv zeta.
  rewrite normalize_all_nan by (apply Forall_replicate; reflexivity).
  reflexivity.
Qed.

Lemma register_alice_foreign (image_data : list Byte.byte) :
  process_image_for_registration interp_nearest luma_fixed
    (λ _, Some black_image) (λ _, Some one_detection)
    unit (λ _, []) (λ _, "") (λ _, "")
    (FAISSManager_init foreign_disk) foreign_disk io_ok image_data "alice"
  = (Registered (alice_result false), FAISSManager_init foreign_disk,
     foreign_disk).
Proof.
  unfold process_image_for_registration.
  rewrite detect_one_face.
  change (det_bounding_box one_detected_face) with box_inside.
  rewrite black_region_encoding. reflexivity.
Qed.

Lemma registration_stores_the_face_witness :
  reg_faiss_indexed (alice_result true) = true
  ∧ reg_face_id (alice_result true) = "alice" +:+ "_" +:+ str (ntotal (index fresh))
  ∧ length (reg_encoding (alice_result true)) = dimension
  ∧ xb (index alice_state) = xb (index fresh) ++ [reg_encoding (alice_result true)]
  ∧ threshold alice_state = threshold fresh
  ∧ ∃ rec,
      metadata alice_state !! str (ntotal (index fresh)) = Some rec
      ∧ rec !! "face_id" = Some (VStr (reg_face_id (alice_result true)))
      ∧ rec !! "person_name" = Some (VStr "alice")
      ∧ rec !! "index_position" = Some (VInt (ntotal (index fresh)))
      ∧ rec !! "confidence"
        = Some (VFloat (Fin (reg_confidence (alice_result true))))
      ∧ rec !! "image_quality"
        = Some (VStr (reg_image_quality (alice_result true)))
      ∧ paired alice_state ([] ++ [(reg_encoding (alice_result true), rec)]).
Proof.
  apply (registration_stores_the_face interp_nearest luma_fixed
           (λ _, Some black_image) (λ _, Some one_detection)
           unit (λ _, []) (λ _, "") (λ _, "")
           fresh [] empty_disk io_ok [] "alice" (alice_result true) alice_state
           (_save_index alice_state empty_disk io_ok)).
  - split; reflexivity.
  - reflexivity.
  - exact (register_alice []).
Defined.

Lemma registration_success_without_indexing_witness :
  (reg_faiss_indexed (alice_result false) = true
   ↔ d (index (FAISSManager_init foreign_disk)) = dimension)
  ∧ (reg_faiss_indexed (alice_result false) = false →
       FAISSManager_init foreign_disk = FAISSManager_init foreign_disk
       ∧ foreign_disk = foreign_disk)
  ∧ (reg_faiss_indexed (alice_result false) = true →
       ntotal (index (FAISSManager_init foreign_disk))
       = ntotal (index (FAISSManager_init foreign_disk)) + 1).
Proof.
  apply (registration_success_without_indexing interp_nearest luma_fixed
           (λ _, Some black_image) (λ _, Some one_detection)
           unit (λ _, []) (λ _, "") (λ _, "")
           (FAISSManager_init foreign_disk) foreign_disk io_ok [] "alice"
           (alice_result false) (FAISSManager_init foreign_disk) foreign_disk).
  exact (register_alice_foreign []).
Defined.

(** ** [_assess_image_quality] *)

Lemma reflect101_lt (n : nat) (i : Z) :
  (0 < n)%nat → -1 ≤ i ≤ Z.of_nat n → (reflect101 n i < n)%nat.
Proof.
  intros Hn Hi. unfold reflect101.
  destruct (Nat.leb_spec n 1); [lia|].
  destruct (Z.ltb_spec i 0); [lia|].
  destruct (Z.leb_spec (Z.of_nat n) i); lia.
Qed.

Lemma rectangular_const_length {A} (a : list (list A)) (c : nat) :
  Forall (λ row, length row = c) a → rectangular a.
Proof.
  intros H. unfold rectangular, shape1.
  destruct H as [|row a Hrow Ha]; [constructor|]. simpl.
  constructor; [reflexivity|].
  eapply Forall_impl; [exact Ha|]. simpl. intros r Hr. congruence.
Qed.

Lemma length_py_slice_ext {A B} (start stop : Z) (l : list A) (l' : list B) :
  length l = length l' →
  length (py_slice start stop l) = length (py_slice start stop l').
Proof.
  intros H. unfold py_slice. rewrite !length_take, !length_drop, H. reflexivity.
Qed.

Lemma rectangular_slice2 {A} r0 r1 c0 c1 (a : list (list A)) :
  rectangular a → rectangular (slice2 r0 r1 c0 c1 a).
Proof.
  intros Ha.
  apply (rectangular_const_length _
           (length (py_slice c0 c1 (replicate (shape1 a) tt)))).
  unfold slice2. apply Forall_fmap.
  eapply Forall_impl; [apply Forall_py_slice, Ha|].
  intros row Hrow. simpl. apply length_py_slice_ext.
  rewrite length_replicate. exact Hrow.
Qed.

Lemma rectangular_fmap {A B} (f : A → B) (a : list (list A)) :
  rectangular a → rectangular (map (map f) a).
Proof.
  intros Ha. apply (rectangular_const_length _ (shape1 a)).
  apply Forall_fmap. eapply Forall_impl; [exact Ha|].
  intros row Hrow. simpl. rewrite length_map. exact Hrow.
Qed.

(** On a rectangular array of one value, the pixels read by a 3x3 kernel
    at any position of the array, border included, have that value. *)
Lemma pixel_at_const (g : gray_image) (c : Z) (i j : Z) :
  rectangular g → Forall (Forall (λ z, z = c)) g →
  (0 < shape0 g)%nat → (0 < shape1 g)%nat →
  -1 ≤ i ≤ Z.of_nat (shape0 g) → -1 ≤ j ≤ Z.of_nat (shape1 g) →
  pixel_at g i j = IZR c.
Proof.
  intros Hrect Hc H0 H1 Hi Hj. unfold pixel_at. f_equal.
  pose proof (reflect101_lt (shape0 g) i H0 Hi) as Hr.
  pose proof (reflect101_lt (shape1 g) j H1 Hj) as Hcol.
  destruct (lookup_lt_is_Some_2 g (reflect101 (shape0 g) i) Hr) as [row Hrow].
  rewrite (nth_lookup g _ []), Hrow. simpl.
  assert (length row = shape1 g) as Hlen
    by exact (proj1 (Forall_lookup _ _) Hrect _ _ Hrow).
  assert (Forall (λ z, z = c) row) as Hall
    by exact (proj1 (Forall_lookup _ _) Hc _ _ Hrow).
  assert (reflect101 (shape1 g) j < length row)%nat as Hcol'
    by (rewrite Hlen; exact Hcol).
  destruct (lookup_lt_is_Some_2 row _ Hcol') as [z Hz].
  rewrite (nth_lookup row _ 0), Hz. simpl.
  exact (proj1 (Forall_lookup _ _) Hall _ _ Hz).
Qed.

Lemma cv2_Laplacian_const (g : gray_image) (c : Z) :
  rectangular g → Forall (Forall (λ z, z = c)) g →
  Forall (Forall (λ r : R, r = 0%R)) (cv2_Laplacian g).
Proof.
  intros Hrect Hc. unfold cv2_Laplacian, tabulate_like.
  apply Forall_lookup. intros i row Hrow.
  rewrite list_lookup_imap in Hrow.
  destruct (g !! i) as [r|] eqn:Hi; [|discriminate]. injection Hrow as <-.
  apply Forall_lookup. intros j x Hx.
  rewrite list_lookup_imap in Hx.
  destruct (r !! j) as [z|] eqn:Hj; [|discriminate]. injection Hx as <-.
  pose proof (lookup_lt_Some _ _ _ Hi) as Hi'.
  pose proof (lookup_lt_Some _ _ _ Hj) as Hj'.
  assert (length r = shape1 g) as Hlen
    by exact (proj1 (Forall_lookup _ _) Hrect _ _ Hi).
  rewrite Hlen in Hj'. change (length g) with (shape0 g) in Hi'.
  unfold Laplacian_at.
  rewrite !(pixel_at_const g c) by (try assumption; lia). lra.
Qed.

Lemma Rsum_zeros (l : list R) : Forall (λ r, r = 0%R) l → Rsum l = 0%R.
Proof.
  unfold Rsum. induction 1 as [|x l -> _ IH]; simpl; [reflexivity|].
  rewrite IH. lra.
Qed.

Lemma np_var_zeros (l : list R) : Forall (λ r, r = 0%R) l → np_var l = 0%R.
Proof.
  intros H. unfold np_var, np_mean.
  rewrite (Rsum_zeros l H).
  assert (Rsum (map (λ x : R, ((x - 0 / INR (length l))
                               * (x - 0 / INR (length l)))%R) l) = 0%R) as Hs.
  { apply Rsum_zeros, Forall_fmap. eapply Forall_impl; [exact H|].
    intros x ->. simpl. unfold Rdiv. rewrite Rmult_0_l. lra. }
  rewrite Hs. unfold Rdiv. apply Rmult_0_l.
Qed.

Section QualityProperties.

Variable luma : rgb → Z.

(** X14.  A crop of one grey level is never rated above ['low'], whatever
    the size of the box and the brightness: on a rectangular image, when
    every pixel of the box's crop has the same grey value, the rating is
    ['low'] -- unless the crop is empty, in which case the conversion to
    grey raises and the rating is ['medium']. *)
Theorem flat_crop_is_rated_low
    (img : image) (face_bbox : bounding_box) (c : Z) :
  let face_region :=
    slice2 (box_y face_bbox) (box_y face_bbox + box_height face_bbox)
           (box_x face_bbox) (box_x face_bbox + box_width face_bbox) img in
  rectangular img →
  Forall (Forall (λ p, luma p = c)) face_region →
  _assess_image_quality luma img face_bbox
  = if decide (array_size 3 face_region = 0%nat) then "medium" else "low".
Proof.
  intros face_region Hrect Hflat. unfold _assess_image_quality.
  fold face_region.
  destruct (decide (array_size 3 face_region = 0%nat)) as [_|_]; [reflexivity|].
  assert (np_var (concat (cv2_Laplacian (cv2_cvtColor_RGB2GRAY luma face_region)))
          = 0%R) as Hvar.
  { apply np_var_zeros, Forall_concat_2d, (cv2_Laplacian_const _ c).
    - apply rectangular_fmap, rectangular_slice2, Hrect.
    - unfold cv2_cvtColor_RGB2GRAY. apply Forall_fmap.
      eapply Forall_impl; [exact Hflat|]. intros row Hrow. simpl.
      apply Forall_fmap. exact Hrow. }
  rewrite Hvar.
  rewrite (bool_decide_eq_false_2 (0 > 500)%R) by lra.
  rewrite (bool_decide_eq_false_2 (0 > 200)%R) by lra.
  reflexivity.
Qed.

End QualityProperties.

Lemma flat_crop_is_rated_low_witness :
  _assess_image_quality luma_fixed black_image box_inside
  = (if decide (array_size 3
                  (slice2 (box_y box_inside)
                     (box_y box_inside + box_height box_inside)
                     (box_x box_inside)
                     (box_x box_inside + box_width box_inside) black_image)
                = 0%nat)
     then "medium" else "low").
Proof.
  apply (flat_crop_is_rated_low luma_fixed black_image box_inside
           (luma_fixed (0, 0, 0))).
  - repeat constructor.
  - repeat constructor.
Defined.

(** ** [process_image_for_recognition]: every detection is accounted for *)

Section RecognitionAccounting.

Variable interp : image → nat → nat → rgb.
Variable luma : rgb → Z.
Variable preprocess_image : list Byte.byte → option image.
Variable face_detection_process : image → option (list mp_detection).

Lemma recognize_loop_partition st img (l : list detection) :
  StronglySorted Z.lt (det_detection_id <$> l) →
  let faces := omap (face_outcome interp luma st img) l in
  let log := omap (face_warning interp luma img) l in
  (length faces + length log = length l)%nat
  ∧ StronglySorted Z.lt (pf_detection_id <$> faces)
  ∧ Forall (λ pf, pf_detection_id pf ∈ det_detection_id <$> l) faces
  ∧ Forall (λ lg, ∃ id, lg = Warning_failed_face id
                        ∧ id ∈ det_detection_id <$> l
                        ∧ id ∉ pf_detection_id <$> faces) log.
Proof.
  induction l as [|face l IH]; intros Hsorted; cbv zeta.
  - simpl. split; [reflexivity|]. split; [constructor|].
    split; constructor.
  - rewrite fmap_cons in Hsorted. apply StronglySorted_inv in Hsorted
      as [Hrest Hlt].
    destruct (IH Hrest) as (Hlen & Hs & Hin & Hlog). clear IH.
    assert (Forall (Z.lt (det_detection_id face))
              (pf_detection_id
                 <$> omap (face_outcome interp luma st img) l)) as Hbelow.
    { apply Forall_fmap. eapply Forall_impl; [exact Hin|].
      intros pf Hpf. simpl.
      exact (proj1 (Forall_forall _ _) Hlt _ Hpf). }
    rewrite !omap_cons_option_list.
    destruct (generate_face_encoding interp luma img (det_bounding_box face))
      as [encoding|] eqn:Henc;
      [assert (face_outcome interp luma st img face
               = Some (recognized_face st face encoding)) as Ho
         by (unfold face_outcome; rewrite Henc; reflexivity);
       assert (face_warning interp luma img face = None) as Hw
         by (unfold face_warning; rewrite Henc; reflexivity)
      |assert (face_outcome interp luma st img face = None) as Ho
         by (unfold face_outcome; rewrite Henc; reflexivity);
       assert (face_warning interp luma img face
               = Some (Warning_failed_face (det_detection_id face))) as Hw
         by (unfold face_warning; rewrite Henc; reflexivity)];
      rewrite Ho, Hw; unfold option_list, option_rect; cbn [app].
    + assert (pf_detection_id (recognized_face st face encoding)
              = det_detection_id face) as Hid.
      { unfold recognized_face. destruct (get_best_match st encoding); reflexivity. }
      split; [simpl; lia|].
      split; [rewrite fmap_cons, Hid; constructor; assumption|].
      split.
      * constructor; [rewrite Hid, fmap_cons; apply list_elem_of_here|].
        eapply Forall_impl; [exact Hin|]. intros pf Hpf. cbn beta.
        rewrite ?fmap_cons. apply list_elem_of_further, Hpf.
      * eapply Forall_impl; [exact Hlog|]. intros lg (id & -> & Hid1 & Hid2).
        cbn beta. exists id. split; [reflexivity|].
        split; [rewrite ?fmap_cons; apply list_elem_of_further, Hid1|].
        rewrite ?fmap_cons, Hid, elem_of_cons. intros [->|Hbad]; [|contradiction].
        pose proof (proj1 (Forall_forall _ _) Hlt _ Hid1). lia.
    + split; [simpl; lia|]. split; [exact Hs|].
      split.
      * eapply Forall_impl; [exact Hin|]. intros pf Hpf. cbn beta.
        rewrite ?fmap_cons. apply list_elem_of_further, Hpf.
      * constructor.
        -- exists (det_detection_id face). split; [reflexivity|].
           split; [rewrite ?fmap_cons; apply list_elem_of_here|].
           intros Hbad.
           pose proof (proj1 (Forall_forall _ _) Hbelow _ Hbad). lia.
        -- eapply Forall_impl; [exact Hlog|].
           intros lg (id & -> & Hid1 & Hid2). cbn beta.
           exists id. split; [reflexivity|].
           split; [rewrite ?fmap_cons; apply list_elem_of_further, Hid1|].
           exact Hid2.
Qed.

Lemma seq_ids_sorted (start len : nat) :
  StronglySorted Z.lt (Z.of_nat <$> seq start len).
Proof.
  revert start. induction len as [|len IH]; intros start; simpl;
    constructor; [apply IH|].
  apply Forall_fmap, Forall_forall. intros i Hi. simpl.
  apply elem_of_seq in Hi. lia.
Qed.

(** X15.  A recognition that processed an image accounts for every
    detection exactly once: each detection either has its entry in
    ['faces'] or one warning in the log, so the number of faces plus the
    number of warnings is ['total_detected'], and ['total_processed'] is
    the number of faces.  The faces come in strictly increasing order of
    [detection_id], every id is below ['total_detected'], and every log
    record is the warning of a detection id that has no face. *)
Theorem recognition_accounts_for_every_detection
    (st : FAISSManager) (image_data : list Byte.byte)
    (faces : list processed_face) (total_detected total_processed : nat)
    (log : list log_record) :
  process_image_for_recognition interp luma preprocess_image
    face_detection_process st image_data
  = (Processed faces total_detected total_processed, log) →
  total_processed = length faces
  ∧ (length faces + length log = total_detected)%nat
  ∧ (0 < total_detected)%nat
  ∧ StronglySorted Z.lt (pf_detection_id <$> faces)
  ∧ Forall (λ pf, 0 ≤ pf_detection_id pf < Z.of_nat total_detected) faces
  ∧ Forall (λ lg, ∃ id, lg = Warning_failed_face id
                        ∧ 0 ≤ id < Z.of_nat total_detected
                        ∧ id ∉ pf_detection_id <$> faces) log.
Proof.
  unfold process_image_for_recognition. intros H.
  destruct (preprocess_image image_data) as [img|]; [|discriminate].
  destruct (detect_faces face_detection_process img) as [detected|] eqn:Hdet;
    [|discriminate].
  assert (det_detection_id <$> detected
          = Z.of_nat <$> seq 0 (length detected)) as Hids.
  { unfold detect_faces in Hdet.
    destruct (face_detection_process img) as [detections|]; [|discriminate].
    injection Hdet as <-.
    pose proof (detect_step_ids img detections [] eq_refl) as Hi.
    rewrite Hi. f_equal. f_equal.
    apply (f_equal length) in Hi. rewrite !length_fmap, length_seq in Hi.
    simpl in *. lia. }
  assert (∀ id, id ∈ det_detection_id <$> detected →
                0 ≤ id < Z.of_nat (length detected)) as Hrange.
  { intros id Hid. rewrite Hids in Hid.
    apply list_elem_of_fmap in Hid as (n & -> & Hn).
    apply elem_of_seq in Hn. lia. }
  assert (StronglySorted Z.lt (det_detection_id <$> detected)) as Hsorted
    by (rewrite Hids; apply seq_ids_sorted).
  destruct (recognize_loop_partition st img detected Hsorted)
    as (Hlen & Hs & Hin & Hlog).
  destruct detected as [|face detected]; [discriminate|].
  rewrite recognize_loop_eq in H.
  injection H as <- <- <- <-.
  split; [reflexivity|]. split; [exact Hlen|]. split; [simpl; lia|].
  split; [exact Hs|]. split.
  - eapply Forall_impl; [exact Hin|]. intros pf Hpf. simpl. apply Hrange, Hpf.
  - eapply Forall_impl; [exact Hlog|]. intros lg (id & -> & Hid1 & Hid2).
    simpl. exists id. split; [reflexivity|]. split; [apply Hrange, Hid1|].
    exact Hid2.
Qed.

End RecognitionAccounting.

Lemma recognition_accounts_for_every_detection_witness :
  let faces :=
    [ mkFace (replicate 128 NaN) (8 / 10)%R box_inside 1
             (VStr "Unknown") 0%R false [] ] in
  let log := [ Warning_failed_face 0 ] in
  1%nat = length faces
  ∧ (length faces + length log = 2)%nat
  ∧ (0 < 2)%nat
  ∧ StronglySorted Z.lt (pf_detection_id <$> faces)
  ∧ Forall (λ pf, 0 ≤ pf_detection_id pf < Z.of_nat 2) faces
  ∧ Forall (λ lg, ∃ id, lg = Warning_failed_face id
                        ∧ 0 ≤ id < Z.of_nat 2
                        ∧ id ∉ pf_detection_id <$> faces) log.
Proof.
  exact (recognition_accounts_for_every_detection interp_nearest luma_fixed
           (λ _, Some black_image) (λ _, Some sample_detections) one_face []
           _ 2%nat 1%nat _ recognition_of_sample_faces).
Defined.

(* ===================================================================== *)
(** * Properties of the endpoints *)

Section EndpointProperties.

Variable interp : image → nat → nat → rgb.
Variable luma : rgb → Z.
Variable preprocess_image : list Byte.byte → option image.
Variable face_detection_process : image → option (list mp_detection).
Variable L : Type.
Variable extract_face_landmarks : image → list L.
Variable preprocess_error : list Byte.byte → string.
Variable detection_error : image → string.
Variable py_strip : string → string.
Variable recognition_error : list Byte.byte → string.
Variable clear_error : string.

Abbreviation register_of_processor :=
  (process_image_for_registration interp luma preprocess_image
     face_detection_process L extract_face_landmarks preprocess_error
     detection_error).

Abbreviation post_register :=
  (app.register_face interp luma preprocess_image face_detection_process L
     extract_face_landmarks preprocess_error detection_error py_strip).

Lemma refused_registration_state st dk io image_data name error st' dk' :
  register_of_processor st dk io image_data name
  = (Registration_failed error, st', dk') →
  st' = st ∧ dk' = dk.
Proof.
  unfold process_image_for_registration. intros H.
  destruct (preprocess_image image_data) as [img|];
    [|injection H as <- <- <-; split; reflexivity].
  destruct (detect_faces face_detection_process img)
    as [[|face [|face' faces]]|];
    try (injection H as <- <- <-; split; reflexivity).
  destruct (generate_face_encoding interp luma img (det_bounding_box face));
    [|injection H as <- <- <-; split; reflexivity].
  destruct (add_face_encoding _ _ _ _ _ _ _) as [[ok st1] dk1]. discriminate.
Qed.

Lemma unindexed_registration_state st dk io image_data name r st' dk' :
  d (index st) ≠ dimension →
  register_of_processor st dk io image_data name = (Registered r, st', dk') →
  reg_faiss_indexed r = false ∧ st' = st ∧ dk' = dk.
Proof.
  intros Hd H.
  destruct (registered_inv _ _ _ _ _ _ _ _ _ _ _ _ _ _ _ _ H)
    as (img & face & encoding & _ & _ & _ & Hr & Hst).
  destruct (add_face_encoding_cases st dk io encoding
              (name +:+ "_" +:+ str (Z.of_nat (size (metadata st)))) name
              (Some (registration_metadata (det_confidence face)
                       (_assess_image_quality luma img (det_bounding_box face))
                       (det_bounding_box face))))
    as [[_ Hout] | (_ & Hd' & _)]; [|contradiction].
  cbv zeta in Hout. rewrite Hout in Hr, Hst. cbn [fst snd] in Hr, Hst.
  injection Hst as -> ->. subst r. split; [reflexivity|]. split; reflexivity.
Qed.

(** X16.  [POST /register].  Every error answer leaves the manager and the
    disk as they were; its status is 400, except for an upload without a
    content type, which gets 500.  The answer 200 is given only for a name
    that is not blank, a content type that starts with [image/] and a file
    of 1 byte to 10 MB, and then the processor registered the face under
    the stripped name, while the message repeats the name as sent.  The
    body does not say whether the face was indexed: on an index whose
    dimension is not 128 the answer is still 200, and nothing was
    stored. *)
Theorem register_endpoint_answers
    (st : FAISSManager) (dk : disk) (io : io_env)
    (image : UploadFile) (name : string)
    (resp : http_response (register_body L))
    (st' : FAISSManager) (dk' : disk) :
  post_register st dk io image name = (resp, st', dk') →
  (∀ code detail, resp = Http_error code detail →
     st' = st ∧ dk' = dk
     ∧ (code = 400 ∨ code = 500)
     ∧ (code = 500 →
        content_type image = None ∧ name ≠ "" ∧ py_strip name ≠ ""))
  ∧ (∀ body, resp = Http_ok body →
     py_strip name ≠ ""
     ∧ (∃ ct, content_type image = Some ct ∧ String.prefix "image/" ct = true)
     ∧ 0 < Z.of_nat (length (file_content image)) ≤ max_upload
     ∧ rb_message body = "Face registered successfully for " +:+ name
     ∧ (∃ r, register_of_processor st dk io (file_content image) (py_strip name)
             = (Registered r, st', dk')
             ∧ rb_encoding body = reg_encoding r
             ∧ rb_confidence body = reg_confidence r
             ∧ rb_image_quality body = reg_image_quality r
             ∧ rb_bounding_box body = reg_bounding_box r)
     ∧ (d (index st) ≠ dimension → st' = st ∧ dk' = dk)).
Proof.
  unfold app.register_face. intros H.
  destruct (decide (name = "" ∨ py_strip name = "")) as [Hname|Hname].
  { injection H as <- <- <-. split; [|intros ? ?; discriminate].
    intros code detail E. injection E as <- <-.
    split; [reflexivity|]. split; [reflexivity|]. split; [left; reflexivity|].
    discriminate. }
  assert (name ≠ "" ∧ py_strip name ≠ "") as [Hn1 Hn2] by tauto.
  destruct (content_type image) as [ct|] eqn:Hct.
  2:{ injection H as <- <- <-. split; [|intros ? ?; discriminate].
      intros code detail E. injection E as <- <-.
      split; [reflexivity|]. split; [reflexivity|]. split; [right; reflexivity|].
      intros _. split; [reflexivity|]. split; assumption. }
  destruct (String.prefix "image/" ct) eqn:Hprefix; cbn [negb] in H.
  2:{ injection H as <- <- <-. split; [|intros ? ?; discriminate].
      intros code detail E. injection E as <- <-.
      split; [reflexivity|]. split; [reflexivity|]. split; [left; reflexivity|].
      discriminate. }
  cbv zeta in H.
  destruct (decide (length (file_content image) = 0%nat)) as [Hempty|Hempty].
  { injection H as <- <- <-. split; [|intros ? ?; discriminate].
    intros code detail E. injection E as <- <-.
    split; [reflexivity|]. split; [reflexivity|]. split; [left; reflexivity|].
    discriminate. }
  destruct (decide (max_upload < Z.of_nat (length (file_content image))))
    as [Hbig|Hbig].
  { injection H as <- <- <-. split; [|intros ? ?; discriminate].
    intros code detail E. injection E as <- <-.
    split; [reflexivity|]. split; [reflexivity|]. split; [left; reflexivity|].
    discriminate. }
  destruct (register_of_processor st dk io (file_content image) (py_strip name))
    as [[[r|error] st1] dk1] eqn:Hreg; injection H as <- <- <-.
  - split; [intros ? ? ?; discriminate|].
    intros body E. injection E as <-.
    split; [exact Hn2|]. split; [exists ct; split; [reflexivity | exact Hprefix]|].
    split; [lia|]. split; [reflexivity|].
    split.
    + exists r. split; [reflexivity|]. repeat split; reflexivity.
    + intros Hd.
      destruct (unindexed_registration_state _ _ _ _ _ _ _ _ Hd Hreg)
        as (_ & -> & ->).
      split; reflexivity.
  - split; [|intros ? ?; discriminate].
    intros code detail E. injection E as <- <-.
    destruct (refused_registration_state _ _ _ _ _ _ _ _ Hreg) as [-> ->].
    split; [reflexivity|]. split; [reflexivity|]. split; [left; reflexivity|].
    discriminate.
Qed.

(** X17.  [POST /detect] never answers 400.  Its answer is either 200 --
    for an upload with an image content type and at least one byte that
    the processor could read and search for faces, with ['total_detected']
    the length of ['faces'] -- or the one 500 of the handler.  So an
    upload that is not an image, or an empty file, for which
    [POST /recognize] answers 400 with the reason, gets a 500 from
    [POST /detect]. *)
Theorem detect_endpoint_never_answers_400 (image : UploadFile) :
  ((∃ body ct image_np,
      app.detect_faces preprocess_image face_detection_process image
      = Http_ok body
      ∧ content_type image = Some ct ∧ String.prefix "image/" ct = true
      ∧ file_content image ≠ []
      ∧ preprocess_image (file_content image) = Some image_np
      ∧ detect_faces face_detection_process image_np = Some (dt_faces body)
      ∧ dt_total_detected body = length (dt_faces body))
   ∨ app.detect_faces preprocess_image face_detection_process image
     = Http_error 500 "Internal server error during face detection")
  ∧ (∀ st ct,
       content_type image = Some ct → String.prefix "image/" ct = false →
       app.detect_faces preprocess_image face_detection_process image
       = Http_error 500 "Internal server error during face detection"
       ∧ app.recognize_faces interp luma preprocess_image
           face_detection_process recognition_error st image
         = (Http_error 400 "File must be an image", []))
  ∧ (∀ st ct,
       content_type image = Some ct → String.prefix "image/" ct = true →
       file_content image = [] →
       app.detect_faces preprocess_image face_detection_process image
       = Http_error 500 "Internal server error during face detection"
       ∧ app.recognize_faces interp luma preprocess_image
           face_detection_process recognition_error st image
         = (Http_error 400 "Empty image file", [])).
Proof.
  split; [|split].
  - unfold app.detect_faces.
    destruct (content_type image) as [ct|] eqn:Hct; [|right; reflexivity].
    destruct (String.prefix "image/" ct) eqn:Hprefix; cbn [negb];
      [|right; reflexivity].
    cbv zeta.
    destruct (decide (length (file_content image) = 0%nat)) as [Hempty|Hempty];
      [right; reflexivity|].
    destruct (preprocess_image (file_content image)) as [image_np|] eqn:Hpre;
      [|right; reflexivity].
    destruct (detect_faces face_detection_process image_np)
      as [detected_faces|] eqn:Hdet; [|right; reflexivity].
    left. eexists _, ct, image_np. split; [reflexivity|].
    split; [reflexivity|]. split; [exact Hprefix|].
    split; [intros E; rewrite E in Hempty; apply Hempty; reflexivity|].
    split; [reflexivity|]. split; [exact Hdet | reflexivity].
  - intros st ct Hct Hprefix.
    unfold app.detect_faces, app.recognize_faces.
    rewrite Hct, Hprefix. split; reflexivity.
  - intros st ct Hct Hprefix Hempty.
    unfold app.detect_faces, app.recognize_faces.
    rewrite Hct, Hprefix, Hempty. split; reflexivity.
Qed.

(** X18.  [POST /faiss/clear] always answers 200: the branch that raises
    the 500 is never taken, because neither [clear_faiss_index] of the
    processor nor [clear_index] and [_save_index] of the manager let an
    exception out.  The manager is empty afterwards; but when the write of
    the index file failed the disk still holds what it held, and a restart
    loads it again. *)
Theorem clear_endpoint_always_succeeds
    (st : FAISSManager) (dk : disk) (io : io_env) :
  let '(resp, st', dk') := app.clear_faiss_index clear_error st dk io in
  resp = Http_ok "FAISS index cleared successfully"
  ∧ ntotal (index st') = 0 ∧ metadata st' = ∅
  ∧ (write_index io = IoErr →
     dk' = dk ∧ FAISSManager_init dk' = FAISSManager_init dk)
  ∧ (io = io_ok → paired (FAISSManager_init dk') []).
Proof.
  unfold app.clear_faiss_index, clear_faiss_index, clear_index.
  split; [reflexivity|]. split; [reflexivity|]. split; [reflexivity|].
  split.
  - intros Hio. unfold _save_index. rewrite Hio. split; reflexivity.
  - intros ->. apply init_paired. eapply save_ok_disk_holds.
    apply paired_fresh.
Qed.

End EndpointProperties.

Lemma post_register_alice_foreign :
  app.register_face interp_nearest luma_fixed
    (λ _, Some black_image) (λ _, Some one_detection)
    unit (λ _, []) (λ _, "") (λ _, "") (λ s, s)
    (FAISSManager_init foreign_disk) foreign_disk io_ok image_upload "alice"
  = (Http_ok (mkRegisterBody "Face registered successfully for alice"
                (replicate 128 NaN) (8 / 10)%R None alice_quality box_inside),
     FAISSManager_init foreign_disk, foreign_disk).
Proof.
  unfold app.register_face.
  destruct (decide ("alice" = "" ∨ "alice" = "")) as [[E|E]|_];
    [discriminate E | discriminate E |].
  cbn [content_type image_upload file_content negb String.prefix].
  change (String.prefix "image/" "image/png") with true. cbn [negb].
  destruct (decide (length [Byte.x00] = 0%nat)) as [E|_]; [discriminate E|].
  destruct (decide (max_upload < Z.of_nat (length [Byte.x00]))) as [E|_];
    [exfalso; revert E; unfold max_upload; simpl; lia|].
  rewrite register_alice_foreign. reflexivity.
Qed.

Lemma register_endpoint_answers_witness :
  let st := FAISSManager_init foreign_disk in
  let resp : http_response (register_body unit) :=
    Http_ok (mkRegisterBody "Face registered successfully for alice"
               (replicate 128 NaN) (8 / 10)%R None alice_quality box_inside) in
  (∀ code detail, resp = Http_error code detail →
     st = st ∧ foreign_disk = foreign_disk
     ∧ (code = 400 ∨ code = 500)
     ∧ (code = 500 →
        content_type image_upload = None ∧ "alice" ≠ "" ∧ "alice" ≠ ""))
  ∧ (∀ body, resp = Http_ok body →
     "alice" ≠ ""
     ∧ (∃ ct, content_type image_upload = Some ct
              ∧ String.prefix "image/" ct = true)
     ∧ 0 < Z.of_nat (length (file_content image_upload)) ≤ max_upload
     ∧ rb_message body = "Face registered successfully for " +:+ "alice"
     ∧ (∃ r, process_image_for_registration interp_nearest luma_fixed
               (λ _, Some black_image) (λ _, Some one_detection)
               unit (λ _, []) (λ _, "") (λ _, "")
               st foreign_disk io_ok (file_content image_upload) "alice"
             = (Registered r, st, foreign_disk)
             ∧ rb_encoding body = reg_encoding r
             ∧ rb_confidence body = reg_confidence r
             ∧ rb_image_quality body = reg_image_quality r
             ∧ rb_bounding_box body = reg_bounding_box r)
     ∧ (d (index st) ≠ dimension → st = st ∧ foreign_disk = foreign_disk)).
Proof.
  exact (register_endpoint_answers interp_nearest luma_fixed
           (λ _, Some black_image) (λ _, Some one_detection)
           unit (λ _, []) (λ _, "") (λ _, "") (λ s, s)
           (FAISSManager_init foreign_disk) foreign_disk io_ok image_upload
           "alice" _ _ _ post_register_alice_foreign).
Defined.

(* ===================================================================== *)
(** * Registration followed by recognition *)

Section RoundTrip.

Variable interp : image → nat → nat → rgb.
Variable luma : rgb → Z.
Variable preprocess_image : list Byte.byte → option image.
Variable face_detection_process : image → option (list mp_detection).
Variable L : Type.
Variable extract_face_landmarks : image → list L.
Variable preprocess_error : list Byte.byte → string.
Variable detection_error : image → string.

(** X19.  A registered face is recognised in the image it was registered
    from.  When the image shows one face whose crop is not empty and not
    flat (its 128 features are not all zero), on an index of dimension 128
    and with a threshold that is not negative: the registration succeeds
    and indexes the face, and a recognition of the same image on the
    manager it leaves processes that one face, with the encoding that was
    registered, and recognises it with similarity 1; when the index was
    empty before, under the registered name. *)
Theorem registered_face_is_recognised
    (st : FAISSManager) (dk : disk) (io : io_env)
    (image_data : list Byte.byte) (name : string)
    (img : image) (face : detection) :
  preprocess_image image_data = Some img →
  detect_faces face_detection_process img = Some [face] →
  array_size 3 (face_region_of img (det_bounding_box face)) ≠ 0%nat →
  Rsum_squares (features_of interp luma img (det_bounding_box face)) ≠ 0%R →
  d (index st) = dimension → (0 <= threshold st)%R →
  ∃ r st' dk' pf,
    process_image_for_registration interp luma preprocess_image
      face_detection_process L extract_face_landmarks preprocess_error
      detection_error st dk io image_data name
    = (Registered r, st', dk')
    ∧ reg_faiss_indexed r = true
    ∧ process_image_for_recognition interp luma preprocess_image
        face_detection_process st' image_data
      = (Processed [pf] 1 1, [])
    ∧ pf_encoding pf = reg_encoding r
    ∧ pf_is_recognized pf = true
    ∧ pf_similarity pf = 1%R
    ∧ (xb (index st) = [] → pf_name pf = VStr name).
Proof.
  intros Hpre Hdet Hsize Hfeat Hd Hthr.
  set (features := features_of interp luma img (det_bounding_box face)) in *.
  set (encoding := normalize (reals features)).
  assert (generate_face_encoding interp luma img (det_bounding_box face)
          = Some encoding) as Henc.
  { unfold generate_face_encoding.
    destruct (decide _) as [E|_]; [contradiction|]. reflexivity. }
  assert (length encoding = dimension) as Hlen.
  { subst encoding. rewrite length_normalize. unfold reals.
    rewrite length_map. apply length_fit_128. }
  assert (normalize encoding = encoding) as Hidem by apply normalize_idem.
  assert (fvec_L2sqr encoding encoding = Fin 0) as Hself.
  { subst encoding. destruct (normalize_reals features Hfeat) as [-> _].
    apply fvec_L2sqr_self. }
  set (quality := _assess_image_quality luma img (det_bounding_box face)).
  set (face_id := name +:+ "_" +:+ str (Z.of_nat (size (metadata st)))).
  set (md := build_metadata face_id name (ntotal (index st))
               (Some (registration_metadata (det_confidence face) quality
                        (det_bounding_box face)))).
  set (st' := mkManager (mkIndex (d (index st)) (xb (index st) ++ [encoding]))
                (<[ str (ntotal (index st)) := md ]> (metadata st))
                (threshold st)).
  destruct (best_match_of_last_vector st' (xb (index st)) encoding encoding
              eq_refl Hd Hlen Hidem Hself Hthr)
    as (h & Hbest & Hzero & Hrange).
  exists (mkRegistered encoding (det_confidence face)
            (head (extract_face_landmarks img)) quality
            (det_bounding_box face) face_id true),
         st', (_save_index st' dk io), (recognized_face st' face encoding).
  split.
  { unfold process_image_for_registration. rewrite Hpre, Hdet, Henc.
    fold quality face_id.
    rewrite add_face_encoding_ok by assumption. cbv zeta.
    rewrite Hidem. reflexivity. }
  split; [reflexivity|].
  split.
  { unfold process_image_for_recognition. rewrite Hpre, Hdet.
    rewrite recognize_loop_eq. cbn [omap list_omap].
    unfold face_outcome, face_warning. rewrite Henc. reflexivity. }
  unfold recognized_face. rewrite Hbest.
  cbn [pf_encoding pf_is_recognized pf_similarity pf_name reg_encoding
       result_of r_similarity r_person_name].
  rewrite Hzero, similarity_of_zero.
  split; [reflexivity|]. split; [reflexivity|]. split; [reflexivity|].
  intros Hempty.
  assert (h.2 = 0) as Hpos.
  { rewrite Hempty in Hrange. simpl in Hrange. lia. }
  rewrite Hpos.
  assert (dict_get (metadata st') (str 0) ∅ = md) as Hmd.
  { unfold dict_get. subst st'. simpl metadata.
    unfold ntotal. rewrite Hempty. simpl. rewrite lookup_insert_eq. reflexivity. }
  rewrite Hmd. unfold dict_get.
  pose proof (registration_record face_id name (ntotal (index st))
                (det_confidence face) quality (det_bounding_box face)) as Hrec.
  cbv zeta in Hrec. destruct Hrec as (_ & Hname & _).
  fold md in Hname. rewrite Hname. reflexivity.
Qed.

End RoundTrip.

(** ** An image with an edge: features that are not all zero *)

Lemma edge_face_gray :
  cv2_cvtColor_RGB2GRAY luma_fixed
    (cv2_resize interp_nearest (face_region_of edge_image edge_box))
  = edge_gray.
Proof. vm_compute. reflexivity. Qed.

Lemma edge_region_not_empty :
  array_size 3 (face_region_of edge_image edge_box) ≠ 0%nat.
Proof. vm_compute. discriminate. Qed.

Lemma detect_edge_face :
  detect_faces (λ _, Some edge_detection) edge_image = Some [edge_face].
Proof.
  unfold detect_faces, edge_detection, edge_face, edge_box. cbn [foldl].
  unfold detect_step. cbn [rel_xmin rel_ymin rel_width rel_height score].
  change (Z.of_nat (shape0 edge_image)) with 1.
  change (Z.of_nat (shape1 edge_image)) with 16.
  rewrite !Rmult_0_l, !Rmult_1_l, !py_int_IZR. reflexivity.
Qed.

(** The pair (angle, magnitude) of the pixel in row 1, column 7 is the
    24th of the first cell, whatever the two gradients and the two
    functions applied to them. *)
Lemma edge_cell_pixel (F G : R → R → R) (fx fy : Z → Z → R) :
  zip (concat (slice2 0 16 0 16
                 (map2_2d G (tabulate_like edge_gray fx)
                            (tabulate_like edge_gray fy))))
      (concat (slice2 0 16 0 16
                 (map2_2d F (tabulate_like edge_gray fx)
                            (tabulate_like edge_gray fy)))) !! 23%nat
  = Some (G (fx 1 7) (fy 1 7), F (fx 1 7) (fy 1 7)).
Proof. vm_compute. reflexivity. Qed.

Lemma edge_Sobel :
  Sobel_dx edge_gray 1 7 = 1020%R ∧ Sobel_dy edge_gray 1 7 = 0%R.
Proof.
  split; cbv -[IZR Rplus Rminus Rmult]; lra.
Qed.

Lemma weighted_count_nonneg b (aw : list (R * R)) :
  Forall (λ p, (0 <= p.2)%R) aw → (0 <= weighted_count b aw)%R.
Proof.
  unfold weighted_count. induction 1 as [|p aw Hp _ IH]; cbn [foldr]; [lra|].
  destruct (in_bin b p.1); lra.
Qed.

(** One pixel of positive weight in the bin makes the count positive. *)
Lemma weighted_count_pos b (aw : list (R * R)) (a w : R) :
  Forall (λ p, (0 <= p.2)%R) aw → (a, w) ∈ aw →
  in_bin b a = true → (0 < w)%R → (0 < weighted_count b aw)%R.
Proof.
  intros Hall Hin Hbin Hw. induction Hall as [|p aw Hp Hall IH].
  - apply elem_of_nil in Hin. contradiction.
  - pose proof (weighted_count_nonneg b aw Hall) as Hrest.
    unfold weighted_count in *. cbn [foldr].
    apply elem_of_cons in Hin as [<-|Hin].
    + cbn [fst snd]. rewrite Hbin. lra.
    + specialize (IH Hin). destruct (in_bin b p.1); lra.
Qed.

Lemma in_bin_middle : in_bin 4 0 = true.
Proof.
  pose proof PI_RGT_0 as Hpi.
  unfold in_bin, bin_edge. simpl INR.
  rewrite (bool_decide_eq_true_2 (- PI + (1 + 1 + 1 + 1) * (2 * PI / 9) <= 0)%R)
    by lra.
  rewrite (bool_decide_eq_true_2
             (0 < - PI + (1 + 1 + 1 + 1 + 1) * (2 * PI / 9))%R) by lra.
  reflexivity.
Qed.

Lemma Rsum_squares_elem_nonzero (rs : list R) (x : R) :
  x ∈ rs → x ≠ 0%R → Rsum_squares rs ≠ 0%R.
Proof.
  intros Hin Hx Hs. apply Hx.
  exact (proj1 (Forall_forall _ _) (Rsum_squares_zero rs Hs) x Hin).
Qed.

Lemma Forall2d_map2_2d {A B C} (P : C → Prop) (f : A → B → C)
    (a : list (list A)) (b : list (list B)) :
  (∀ x y, P (f x y)) → Forall (Forall P) (map2_2d f a b).
Proof.
  intros Hf. unfold map2_2d. revert b.
  induction a as [|ra a IH]; intros [|rb b]; simpl; try constructor; [|apply IH].
  revert rb. induction ra as [|x ra IHr]; intros [|y rb]; simpl;
    constructor; [apply Hf | apply IHr].
Qed.

Lemma Forall_zip_snd {A B} (P : B → Prop) (l : list A) (k : list B) :
  Forall P k → Forall (λ p, P p.2) (zip l k).
Proof.
  intros Hk. revert l. induction Hk as [|y k Hy _ IH]; intros [|x l]; simpl;
    constructor; [exact Hy | apply IH].
Qed.

(** The first nine features are the histogram of the cell in the corner. *)
Lemma cell_features_first (g : gray_image) :
  (cell_size ≤ shape0 g)%nat → (cell_size ≤ shape1 g)%nat →
  ∃ rest,
    cell_features g
    = cell_histogram
        (map2_2d (λ gx gy, sqrt (gx * gx + gy * gy))
           (cv2_Sobel g 1 0) (cv2_Sobel g 0 1))
        (map2_2d (λ gx gy, np_arctan2 gy gx)
           (cv2_Sobel g 1 0) (cv2_Sobel g 0 1))
        (shape0 g) (shape1 g) 0 0
      ++ rest.
Proof.
  intros H0 H1. unfold cell_features.
  destruct (shape0 g / cell_size)%nat as [|cy] eqn:Hy.
  { apply Nat.div_small_iff in Hy; unfold cell_size in *; lia. }
  destruct (shape1 g / cell_size)%nat as [|cx] eqn:Hx.
  { apply Nat.div_small_iff in Hx; unfold cell_size in *; lia. }
  cbn [seq map concat]. rewrite <- app_assoc. eexists. reflexivity.
Qed.

Lemma edge_features_nonzero :
  Rsum_squares (features_of interp_nearest luma_fixed edge_image edge_box) ≠ 0%R.
Proof.
  unfold features_of. rewrite edge_face_gray.
  destruct (cell_features_first edge_gray) as [rest Hrest];
    [vm_compute; lia | vm_compute; lia |].
  set (magnitude := map2_2d (λ gx gy, sqrt (gx * gx + gy * gy))
                      (cv2_Sobel edge_gray 1 0) (cv2_Sobel edge_gray 0 1)) in *.
  set (angle := map2_2d (λ gx gy, np_arctan2 gy gx)
                  (cv2_Sobel edge_gray 1 0) (cv2_Sobel edge_gray 0 1)) in *.
  change (cell_histogram magnitude angle (shape0 edge_gray) (shape1 edge_gray) 0 0)
    with (np_histogram (concat (slice2 0 16 0 16 angle))
            (concat (slice2 0 16 0 16 magnitude))) in Hrest.
  set (aw := zip (concat (slice2 0 16 0 16 angle))
                 (concat (slice2 0 16 0 16 magnitude))).
  apply (Rsum_squares_elem_nonzero _ (weighted_count 4 aw)).
  - apply (list_elem_of_lookup_2 _ 4%nat). unfold fit_128.
    destruct (decide (128 < length (cell_features edge_gray))%nat) as [_|E].
    2:{ exfalso. apply E. rewrite length_cell_features. vm_compute. lia. }
    rewrite lookup_take_lt by lia. rewrite Hrest.
    rewrite lookup_app_l by (rewrite length_np_histogram; lia).
    reflexivity.
  - apply Rgt_not_eq, Rlt_gt.
    destruct edge_Sobel as [Hdx Hdy].
    apply (weighted_count_pos 4 aw
             (np_arctan2 (Sobel_dy edge_gray 1 7) (Sobel_dx edge_gray 1 7))
             (sqrt (Sobel_dx edge_gray 1 7 * Sobel_dx edge_gray 1 7
                    + Sobel_dy edge_gray 1 7 * Sobel_dy edge_gray 1 7))).
    + subst aw. apply Forall_zip_snd, Forall_concat_2d, Forall2d_slice2.
      subst magnitude. apply Forall2d_map2_2d. intros x y. apply sqrt_pos.
    + apply (list_elem_of_lookup_2 _ 23%nat). subst aw magnitude angle.
      exact (edge_cell_pixel (λ gx gy, sqrt (gx * gx + gy * gy))
               (λ gx gy, np_arctan2 gy gx)
               (Sobel_dx edge_gray) (Sobel_dy edge_gray)).
    + rewrite Hdx, Hdy. unfold np_arctan2.
      destruct (decide (0 < 1020)%R) as [_|E]; [|exfalso; lra].
      replace (0 / 1020)%R with 0%R by lra. rewrite atan_0.
      exact in_bin_middle.
    + rewrite Hdx, Hdy. apply sqrt_lt_R0. lra.
Qed.

Lemma registered_face_is_recognised_witness :
  ∃ (r : registration_success unit) st' dk' pf,
    process_image_for_registration interp_nearest luma_fixed
      (λ _, Some edge_image) (λ _, Some edge_detection)
      unit (λ _, []) (λ _, "") (λ _, "") fresh empty_disk io_ok [] "alice"
    = (Registered r, st', dk')
    ∧ reg_faiss_indexed r = true
    ∧ process_image_for_recognition interp_nearest luma_fixed
        (λ _, Some edge_image) (λ _, Some edge_detection) st' []
      = (Processed [pf] 1 1, [])
    ∧ pf_encoding pf = reg_encoding r
    ∧ pf_is_recognized pf = true
    ∧ pf_similarity pf = 1%R
    ∧ (xb (index fresh) = [] → pf_name pf = VStr "alice").
Proof.
  apply (registered_face_is_recognised interp_nearest luma_fixed
           (λ _, Some edge_image) (λ _, Some edge_detection)
           unit (λ _, []) (λ _, "") (λ _, "")
           fresh empty_disk io_ok [] "alice" edge_image edge_face).
  - reflexivity.
  - exact detect_edge_face.
  - exact edge_region_not_empty.
  - exact edge_features_nonzero.
  - reflexivity.
  - simpl. lra.
Defined.
